(** * repo-retriever-ai: a shallow embedding of the tree builder, the bundle
    generator, the repository reference parser and the inclusion filter.

    Sources embedded here:
    - [src/services/GitHubService.ts]: [parseRepoUrl], [isTextFile],
      [shouldIncludeFile];
    - [FileTreeSelector] (component): [buildTree];
    - [RepoAnalyzer] (component): [fetchRepository], [generateOutput],
      [getFileExtension].

    JavaScript strings are modelled as [string] (sequences of 8-bit
    characters); the model is exact on ASCII strings, where
    [toLowerCase] folds the letters [A]-[Z] and nothing else, and says
    nothing of strings with other characters.  JavaScript numbers are
    IEEE 754 binary64 values, computed with the operations of the
    standard library's specification of floating-point arithmetic.  The
    collation [String.prototype.localeCompare], the clock and the two
    network collaborators are parameters of the functions that use
    them. *)

From Stdlib Require Import ZArith QArith Ascii String DecimalString SpecFloat.
From stdpp Require Import gmap strings list fin_maps sorting.

Local Open Scope string_scope.
Local Open Scope list_scope.
Local Set Warnings "-register-all".

(* ===================================================================== *)
(** * JavaScript string primitives *)
(* ===================================================================== *)

(** The line feed of the template literals ([\n]). *)
Definition nl : string := String (ascii_of_nat 10) EmptyString.

Definition isUpper (c : ascii) : bool :=
  Nat.leb 65 (nat_of_ascii c) && Nat.leb (nat_of_ascii c) 90.

Definition lowerChar (c : ascii) : ascii :=
  if isUpper c then ascii_of_nat (nat_of_ascii c + 32)%nat else c.

(** [s.toLowerCase()] on an ASCII string: the letters [A]-[Z] are
    folded, every other character stays.  On other strings
    [String.prototype.toLowerCase] folds more and looks at the context;
    they are outside the model. *)
Fixpoint toLowerCase (s : string) : string :=
  match s with
  | EmptyString => EmptyString
  | String c s' => String (lowerChar c) (toLowerCase s')
  end.

(** Every character of [s] is an ASCII character. *)
Fixpoint isAscii (s : string) : bool :=
  match s with
  | EmptyString => true
  | String c s' => Nat.ltb (nat_of_ascii c) 128 && isAscii s'
  end.

(** [s.startsWith(p)] *)
Fixpoint startsWith (s p : string) : bool :=
  match p, s with
  | EmptyString, _ => true
  | String _ _, EmptyString => false
  | String a p', String b s' => if ascii_dec a b then startsWith s' p' else false
  end.

(** The rest of [s] after the literal [p], when [s] starts with [p]. *)
Fixpoint stripPrefix (p s : string) : option string :=
  match p, s with
  | EmptyString, _ => Some s
  | String _ _, EmptyString => None
  | String a p', String b s' => if ascii_dec a b then stripPrefix p' s' else None
  end.

(** [s.includes(p)] *)
Fixpoint includes (s p : string) : bool :=
  startsWith s p ||
  match s with
  | EmptyString => false
  | String _ s' => includes s' p
  end.

(** [s.endsWith(p)] *)
Fixpoint endsWith (s p : string) : bool :=
  (if string_dec s p then true else false) ||
  match s with
  | EmptyString => false
  | String _ s' => endsWith s' p
  end.

(** [s.slice(1)] *)
Definition slice1 (s : string) : string :=
  match s with
  | EmptyString => EmptyString
  | String _ s' => s'
  end.

(** [s.split(sep)] for a one-character separator: never empty, the empty
    string splits into one empty part. *)
Fixpoint split (sep : ascii) (s : string) : list string :=
  match s with
  | EmptyString => [EmptyString]
  | String c s' =>
      if ascii_dec c sep then EmptyString :: split sep s'
      else match split sep s' with
           | h :: t => String c h :: t
           | [] => [String c EmptyString]
           end
  end.

(** [parts.join(sep)] *)
Fixpoint join (sep : string) (parts : list string) : string :=
  match parts with
  | [] => EmptyString
  | [x] => x
  | x :: rest => x +:+ sep +:+ join sep rest
  end.

(** A number in a template literal: its decimal digits. *)
Definition numberToString (n : nat) : string :=
  NilEmpty.string_of_uint (Nat.to_uint n).

(** Truthiness of a string: non-empty. *)
Definition truthy (s : string) : bool :=
  match s with EmptyString => false | _ => true end.

(* ===================================================================== *)
(** * GitHubService *)
(* ===================================================================== *)

(** ['file' | 'dir'] *)
Inductive EntryType := file | dir.

Global Instance EntryType_eq_dec : EqDecision EntryType.
Proof. solve_decision. Defined.

(** [GitHubFile]: the fields the modelled code reads ([name], [path],
    [type]), and [sha] as the representative of the ones it only carries
    along. *)
Record GitHubFile := mkFile {
  name : string;
  path : string;
  sha : string;
  type : EntryType
}.

Global Instance GitHubFile_eq_dec : EqDecision GitHubFile.
Proof. solve_decision. Defined.

Record RepoInfo := mkRepo {
  owner : string;
  repo : string;
  branch : string
}.

(** ** parseRepoUrl *)

(** The greedy [[^\/]*]: the longest slash-free prefix and what follows. *)
Fixpoint spanSegment (s : string) : string * string :=
  match s with
  | EmptyString => (EmptyString, EmptyString)
  | String c s' =>
      if ascii_dec c "/" then (EmptyString, s)
      else let (seg, rest) := spanSegment s' in (String c seg, rest)
  end.

(** What a successful match captures: groups 1 and 2, and group 3 when it
    took part in the match. *)
Definition Match : Type := string * string * option string.

(** The optional group [(?:\/tree\/([^\/]+))?] tried at [s]. *)
Definition matchTree (s : string) : option string :=
  match stripPrefix "/tree/" s with
  | Some s' =>
      let (b, _) := spanSegment s' in
      if truthy b then Some b else None
  | None => None
  end.

(** [/github\.com\/([^\/]+)\/([^\/]+)(?:\/tree\/([^\/]+))?/] tried at the
    start of [s].  A segment followed by a slash can only be the longest
    slash-free run, and after the second segment every continuation
    matches, so the greedy choice is the backtracking matcher's. *)
Definition matchUrlAt (s : string) : option Match :=
  match stripPrefix "github.com/" s with
  | Some s1 =>
      let (o, s2) := spanSegment s1 in
      if truthy o then
        match s2 with
        | String "/" s3 =>
            let (r, s4) := spanSegment s3 in
            if truthy r then Some (o, r, matchTree s4) else None
        | _ => None
        end
      else None
  | None => None
  end.

(** The unanchored search: the leftmost position where the pattern
    matches. *)
Fixpoint matchUrl (s : string) : option Match :=
  match matchUrlAt s with
  | Some m => Some m
  | None =>
      match s with
      | EmptyString => None
      | String _ s' => matchUrl s'
      end
  end.

(** [/^([^\/]+)\/([^\/]+)$/]: the whole input is two non-empty slash-free
    segments around one slash.  It has no third group. *)
Definition matchShorthand (s : string) : option Match :=
  let (o, s2) := spanSegment s in
  if truthy o then
    match s2 with
    | String "/" s3 =>
        let (r, s4) := spanSegment s3 in
        if truthy r then
          match s4 with
          | EmptyString => Some (o, r, None)
          | _ => None
          end
        else None
    | _ => None
    end
  else None.

(** The loop over [patterns]: the first pattern that matches. *)
Definition matchPatterns (url : string) : option Match :=
  match matchUrl url with
  | Some m => Some m
  | None => matchShorthand url
  end.

(** [s.replace(/\.git$/, '')] *)
Definition replaceGitSuffix (s : string) : string :=
  if endsWith s ".git" then substring 0 (String.length s - 4)%nat s else s.

(** [match[3] || 'main'] *)
Definition branchOrMain (g : option string) : string :=
  match g with
  | Some b => if truthy b then b else "main"
  | None => "main"
  end.

Definition parseRepoUrl (url : string) : option RepoInfo :=
  match matchPatterns url with
  | Some (o, r, b) =>
      Some {| owner := o; repo := replaceGitSuffix r; branch := branchOrMain b |}
  | None => None
  end.

(** ** isTextFile *)

Definition textExtensions : list string :=
  [ ".js"; ".jsx"; ".ts"; ".tsx"; ".json"; ".md"; ".txt"; ".yml"; ".yaml";
    ".html"; ".htm"; ".css"; ".scss"; ".sass"; ".less"; ".xml"; ".svg";
    ".py"; ".java"; ".c"; ".cpp"; ".h"; ".hpp"; ".cs"; ".php"; ".rb";
    ".go"; ".rs"; ".swift"; ".kt"; ".scala"; ".sh"; ".bash"; ".zsh";
    ".sql"; ".r"; ".matlab"; ".m"; ".pl"; ".lua"; ".dart"; ".vue";
    ".toml"; ".ini"; ".cfg"; ".conf"; ".env"; ".gitignore"; ".dockerignore";
    "Dockerfile"; "README"; "LICENSE"; "CHANGELOG" ].

(** The callback of [textExtensions.some]. *)
Definition matchesExtension (lowerName ext : string) : bool :=
  endsWith lowerName ext
  || (if string_dec lowerName (slice1 ext) then true else false)
  || (startsWith ext "." && includes lowerName ext).

Definition isTextFile (filename : string) : bool :=
  let lowerName := toLowerCase filename in
  existsb (matchesExtension lowerName) textExtensions.

(** ** shouldIncludeFile *)

(** The exclusion patterns are sequences of literal characters, one with
    an optional character ([s?]), some anchored at the end ([$]). *)
Inductive Atom := Lit (c : ascii) | Opt (c : ascii).

Record RegExp := mkRegExp { atoms : list Atom; anchoredAtEnd : bool }.

Fixpoint lits (s : string) : list Atom :=
  match s with
  | EmptyString => []
  | String c s' => Lit c :: lits s'
  end.

(** The pattern matched at the start of [s]; an optional character is
    tried first (greedy), then skipped. *)
Fixpoint matchHere (re : list Atom) (atEnd : bool) (s : string) : bool :=
  match re with
  | [] => if atEnd then negb (truthy s) else true
  | Lit c :: re' =>
      match s with
      | String x s' => if ascii_dec x c then matchHere re' atEnd s' else false
      | EmptyString => false
      end
  | Opt c :: re' =>
      match s with
      | String x s' =>
          (if ascii_dec x c then matchHere re' atEnd s' else false)
          || matchHere re' atEnd s
      | EmptyString => matchHere re' atEnd s
      end
  end.

Fixpoint searchFrom (re : list Atom) (atEnd : bool) (s : string) : bool :=
  matchHere re atEnd s ||
  match s with
  | EmptyString => false
  | String _ s' => searchFrom re atEnd s'
  end.

(** [pattern.test(s)] *)
Definition test (pattern : RegExp) (s : string) : bool :=
  searchFrom (atoms pattern) (anchoredAtEnd pattern) s.

Definition excludePatterns : list RegExp :=
  [ mkRegExp (lits "node_modules") false;
    mkRegExp (lits ".git") false;
    mkRegExp (lits ".DS_Store") false;
    mkRegExp (lits ".vscode") false;
    mkRegExp (lits ".idea") false;
    mkRegExp (lits "dist") false;
    mkRegExp (lits "build") false;
    mkRegExp (lits "out") false;
    mkRegExp (lits "target") false;
    mkRegExp (lits "bin") false;
    mkRegExp (lits "obj") false;
    mkRegExp (lits ".next") false;
    mkRegExp (lits "coverage") false;
    mkRegExp (lits ".nyc_output") false;
    mkRegExp (lits "log" ++ [Opt "s"]) false;
    mkRegExp (lits ".log") true;
    mkRegExp (lits ".lock") true;
    mkRegExp (lits "package-lock.json") true;
    mkRegExp (lits "yarn.lock") true;
    mkRegExp (lits "pnpm-lock.yaml") true;
    mkRegExp (lits "bun.lockb") true ].

Definition shouldIncludeFile (p : string) : bool :=
  negb (existsb (fun pattern => test pattern p) excludePatterns).

(* ===================================================================== *)
(** * FileTreeSelector: buildTree *)
(* ===================================================================== *)

(** A [TreeNode] object.  The node objects are shared between [nodeMap],
    the [root] array and the [children] arrays, and [buildTree] mutates a
    parent through [nodeMap] after it was attached; so the objects live in
    a store, and [children] and [root] hold references.  Every object is
    created once and registered at once under its own [path], which is
    never overwritten: the registration key is its reference. *)
Record TreeNode := mkNode {
  node_name : string;
  node_path : string;
  node_type : EntryType;
  children : list string;
  node_file : option GitHubFile
}.

Global Instance TreeNode_eq_dec : EqDecision TreeNode.
Proof. solve_decision. Defined.

(** The state of [buildTree]: the [root] array and the store of node
    objects ([nodeMap]). *)
Record Tree := mkTree {
  root : list string;
  nodeMap : gmap string TreeNode
}.

(** [currentPath = currentPath ? `${currentPath}/${part}` : part] *)
Definition nextPath (currentPath part : string) : string :=
  if truthy currentPath then currentPath +:+ "/" +:+ part else part.

(** [parentNode.children.push(node)] *)
Definition pushChild (child : string) (n : TreeNode) : TreeNode :=
  {| node_name := node_name n; node_path := node_path n;
     node_type := node_type n; children := children n ++ [child];
     node_file := node_file n |}.

(** The body of [parts.forEach((part, index) => ...)]; the second
    component of the state is the variable [currentPath]. *)
Definition visitPart (f : GitHubFile) (parts : list string)
    (index : nat) (part : string) (st : Tree * string) : Tree * string :=
  let (t, previousPath) := st in
  let isLast := Nat.eqb index (length parts - 1) in
  let currentPath := nextPath previousPath part in
  match nodeMap t !! currentPath with
  | Some _ => (t, currentPath)
  | None =>
      let leaf := isLast && bool_decide (type f = file) in
      let node :=
        {| node_name := part; node_path := currentPath;
           node_type := if leaf then file else dir;
           children := [];
           node_file := if leaf then Some f else None |} in
      let m := <[currentPath := node]> (nodeMap t) in
      if Nat.eqb index 0 then (mkTree (root t ++ [currentPath]) m, currentPath)
      else
        let parentPath := join "/" (take index parts) in
        match m !! parentPath with
        | Some parentNode =>
            (mkTree (root t) (<[parentPath := pushChild currentPath parentNode]> m),
             currentPath)
        | None => (mkTree (root t) m, currentPath)
        end
  end.

Fixpoint forEachPart (f : GitHubFile) (parts : list string) (index : nat)
    (rest : list string) (st : Tree * string) : Tree * string :=
  match rest with
  | [] => st
  | part :: rest' =>
      forEachPart f parts (S index) rest' (visitPart f parts index part st)
  end.

(** The body of [sortedFiles.forEach(file => ...)]. *)
Definition addFile (t : Tree) (f : GitHubFile) : Tree :=
  let parts := split "/" (path f) in
  fst (forEachPart f parts 0 parts (t, EmptyString)).

Definition emptyTree : Tree := mkTree [] ∅.

(** The entries processed in the order given (the loop without the
    sort). *)
Definition buildFrom (sortedFiles : list GitHubFile) : Tree :=
  fold_left addFile sortedFiles emptyTree.

Section Collation.

(** [a.localeCompare(b)]: negative, zero or positive. *)
Variable localeCompare : string -> string -> Z.

(** [[...files].sort((a, b) => a.path.localeCompare(b.path))].
    [Array.prototype.sort] is stable; it is modelled as the stable
    insertion sort, which every stable sort agrees with when the
    comparator is consistent. *)
Fixpoint insertByPath (x : GitHubFile) (l : list GitHubFile) : list GitHubFile :=
  match l with
  | [] => [x]
  | y :: l' =>
      if (localeCompare (path x) (path y) <=? 0)%Z then x :: l
      else y :: insertByPath x l'
  end.

Definition sortByPath (files : list GitHubFile) : list GitHubFile :=
  foldr insertByPath [] files.

Definition buildTree (files : list GitHubFile) : Tree :=
  buildFrom (sortByPath files).

End Collation.

(** The nodes of the returned tree: the objects reachable from [root]
    through [children]. *)
Inductive inTree (t : Tree) : string -> Prop :=
  | inTree_root k : In k (root t) -> inTree t k
  | inTree_child p n k :
      inTree t p -> nodeMap t !! p = Some n -> In k (children n) -> inTree t k.

Definition treeNode (t : Tree) (n : TreeNode) : Prop :=
  exists k, inTree t k /\ nodeMap t !! k = Some n.

(** The returned value read as a nested structure, as the renderer walks
    it: [root], and under every node its [children]. *)
Inductive TreeView :=
  View (vname vpath : string) (vtype : EntryType)
       (vchildren : list TreeView) (vfile : option GitHubFile).

Fixpoint viewNode (depth : nat) (m : gmap string TreeNode) (k : string)
    : option TreeView :=
  match depth with
  | O => None
  | S depth' =>
      match m !! k with
      | Some n =>
          Some (View (node_name n) (node_path n) (node_type n)
                     (omap (viewNode depth' m) (children n)) (node_file n))
      | None => None
      end
  end.

(** The walk goes as deep as there are registered nodes: a longer path
    from [root] would pass through one node twice. *)
Definition view (t : Tree) : list TreeView :=
  omap (viewNode (S (size (nodeMap t))) (nodeMap t)) (root t).

(* ===================================================================== *)
(** * RepoAnalyzer *)
(* ===================================================================== *)

(** ** getFileExtension *)

(** What [extMap[ext] || ext] can evaluate to.  [extMap] is an object
    literal, so a key that is not its own is looked up in
    [Object.prototype]; of the names found there only [constructor] and
    [__proto__] are lower case, as [ext] is. *)
Inductive JsValue :=
  | JsString (s : string)
  | ObjectConstructor
  | ObjectPrototype.

Definition extMap : list (string * string) :=
  [ ("js", "javascript"); ("jsx", "jsx"); ("ts", "typescript"); ("tsx", "tsx");
    ("py", "python"); ("java", "java"); ("cpp", "cpp"); ("c", "c");
    ("cs", "csharp"); ("php", "php"); ("rb", "ruby"); ("go", "go");
    ("rs", "rust"); ("swift", "swift"); ("kt", "kotlin"); ("scala", "scala");
    ("sh", "bash"); ("yml", "yaml"); ("yaml", "yaml"); ("json", "json");
    ("xml", "xml"); ("html", "html"); ("css", "css"); ("scss", "scss");
    ("sass", "sass"); ("md", "markdown") ].

Fixpoint ownProperty (table : list (string * string)) (key : string) : option string :=
  match table with
  | [] => None
  | (k, v) :: table' => if string_dec k key then Some v else ownProperty table' key
  end.

(** [extMap[ext]]; [None] is [undefined]. *)
Definition extMapGet (ext : string) : option JsValue :=
  match ownProperty extMap ext with
  | Some v => Some (JsString v)
  | None =>
      if string_dec ext "constructor" then Some ObjectConstructor
      else if string_dec ext "__proto__" then Some ObjectPrototype
      else None
  end.

Definition truthyValue (v : JsValue) : bool :=
  match v with
  | JsString s => truthy s
  | _ => true
  end.

(** [filename.split('.').pop()?.toLowerCase()], then
    [ext ? extMap[ext] || ext : '']. *)
Definition getFileExtension (filename : string) : JsValue :=
  let ext := toLowerCase (List.last (split "." filename) EmptyString) in
  if truthy ext then
    match extMapGet ext with
    | Some v => if truthyValue v then v else JsString ext
    | None => JsString ext
    end
  else JsString EmptyString.

(** A value in a template literal. *)
Definition toStringValue (v : JsValue) : string :=
  match v with
  | JsString s => s
  | ObjectConstructor => "function Object() { [native code] }"
  | ObjectPrototype => "[object Object]"
  end.

(** ** The component's state and what it does to the outside *)

Record Toast := mkToast {
  title : string;
  description : string;
  destructive : bool
}.

(** What an awaited call throws. *)
Inductive Thrown :=
  | ErrorObject (message : string)
  | OtherValue.

(** [error instanceof Error ? error.message : 'Unknown error'] *)
Definition errorMessage (e : Thrown) : string :=
  match e with
  | ErrorObject m => m
  | OtherValue => "Unknown error"
  end.

Inductive Settled (A : Type) :=
  | Fulfilled (value : A)
  | Rejected (reason : Thrown).
Arguments Fulfilled {A} value.
Arguments Rejected {A} reason.

Record GitHubTree := mkGitHubTree {
  tree : list GitHubFile;
  truncated : bool
}.

Record AppState := mkState {
  repoUrl : string;
  files : list GitHubFile;
  selectedFiles : gset string;
  loading : bool;
  progress : Q;
  result : string;
  repoInfo : option RepoInfo
}.

(** The state setters and the calls that leave the component, in the
    order in which a run makes them. *)
Inductive Event :=
  | EToast (t : Toast)
  | ESetLoading (b : bool)
  | ESetProgress (p : Q)
  | ESetFiles (fs : list GitHubFile)
  | ESetRepoInfo (r : RepoInfo)
  | ESetSelectedFiles (sel : gset string)
  | ESetResult (doc : string)
  | EFetchTree (o r b : string)
  | EFetchContent (o r p b : string)
  | EDelay (ms : nat)
  | EConsoleError (p : string) (e : Thrown).

Definition applyEvent (st : AppState) (e : Event) : AppState :=
  match e with
  | ESetLoading b =>
      mkState (repoUrl st) (files st) (selectedFiles st) b (progress st) (result st) (repoInfo st)
  | ESetProgress p =>
      mkState (repoUrl st) (files st) (selectedFiles st) (loading st) p (result st) (repoInfo st)
  | ESetFiles fs =>
      mkState (repoUrl st) fs (selectedFiles st) (loading st) (progress st) (result st) (repoInfo st)
  | ESetRepoInfo r =>
      mkState (repoUrl st) (files st) (selectedFiles st) (loading st) (progress st) (result st) (Some r)
  | ESetSelectedFiles sel =>
      mkState (repoUrl st) (files st) sel (loading st) (progress st) (result st) (repoInfo st)
  | ESetResult doc =>
      mkState (repoUrl st) (files st) (selectedFiles st) (loading st) (progress st) doc (repoInfo st)
  | _ => st
  end.

(** A run: the events it makes and the state they leave. *)
Definition run (st : AppState) (events : list Event) : AppState * list Event :=
  (fold_left applyEvent events st, events).

(** ** fetchRepository *)

Definition isWhiteSpace (c : ascii) : bool :=
  let n := nat_of_ascii c in
  (Nat.leb 9 n && Nat.leb n 13) || Nat.eqb n 32 || Nat.eqb n 160.

Fixpoint trimStart (s : string) : string :=
  match s with
  | EmptyString => EmptyString
  | String c s' => if isWhiteSpace c then trimStart s' else s
  end.

Fixpoint trimEnd (s : string) : string :=
  match s with
  | EmptyString => EmptyString
  | String c s' =>
      let r := trimEnd s' in
      if isWhiteSpace c && negb (truthy r) then EmptyString else String c r
  end.

(** [s.trim()] *)
Definition trim (s : string) : string := trimEnd (trimStart s).

(** The filter of [fetchRepository]. *)
Definition textFiles (entries : list GitHubFile) : list GitHubFile :=
  List.filter
    (fun f => bool_decide (type f = file) && isTextFile (name f) && shouldIncludeFile (path f))
    entries.

Definition errorToast (text : string) : Toast :=
  {| title := "Error"; description := text; destructive := true |}.

Definition successToast (text : string) : Toast :=
  {| title := "Success"; description := text; destructive := false |}.

(** ** Numbers *)

(** The binary64 format: 53 bits of precision, exponents below 1024. *)
Definition precision : Z := 53.
Definition maxExponent : Z := 1024.

(** The number of a count ([processedFiles], [selectedFilesList.length])
    and of an integer literal. *)
Definition numberOfNat (n : nat) : spec_float :=
  binary_normalize precision maxExponent (Z.of_nat n) 0 false.

(** [(processedFiles / totalFiles) * 100]: the quotient rounded to
    nearest, then the product rounded to nearest. *)
Definition percentNumber (processedFiles totalFiles : nat) : spec_float :=
  SFmul precision maxExponent
    (SFdiv precision maxExponent (numberOfNat processedFiles) (numberOfNat totalFiles))
    (numberOfNat 100).

(** The rational a finite number is: the progress is kept as the value
    of the number.  [NaN] and the infinities have no value; the loop of
    [generateOutput] divides a count by the number of the files it runs
    over, which is not zero, and does not produce them. *)
Definition valueOf (x : spec_float) : Q :=
  match x with
  | S754_finite s m e =>
      let q :=
        match e with
        | Zneg p => Zpos m # (2 ^ p)
        | _ => inject_Z (Zpos m * 2 ^ e)
        end in
      if s then Qopp q else q
  | _ => inject_Z 0
  end.

(** The value [setProgress] is given after [processedFiles] of
    [totalFiles] files. *)
Definition percent (processedFiles totalFiles : nat) : Q :=
  valueOf (percentNumber processedFiles totalFiles).

Section Collaborators.

(** [GitHubService.fetchRepoTree(owner, repo, branch)] *)
Variable fetchRepoTree : string -> string -> string -> Settled GitHubTree.

(** [GitHubService.fetchFileContent(owner, repo, path, branch)] *)
Variable fetchFileContent : string -> string -> string -> string -> Settled string.

(** [new Date().toISOString()] *)
Variable now : string.

(** The message of the [TypeError] that reading a property of [null]
    throws. *)
Variable nullReadMessage : string.

Definition fetchRepository (st : AppState) : AppState * list Event :=
  if negb (truthy (trim (repoUrl st))) then
    run st [EToast (errorToast "Please enter a repository URL")]
  else
    match parseRepoUrl (repoUrl st) with
    | None => run st [EToast (errorToast "Invalid repository URL format")]
    | Some parsedRepo =>
        let begin :=
          [ESetLoading true; ESetProgress (inject_Z 10);
           EFetchTree (owner parsedRepo) (repo parsedRepo) (branch parsedRepo)] in
        let finally := [ESetLoading false; ESetProgress (inject_Z 0)] in
        match fetchRepoTree (owner parsedRepo) (repo parsedRepo) (branch parsedRepo) with
        | Fulfilled t =>
            let found := textFiles (tree t) in
            run st
              (begin ++
               [ESetProgress (inject_Z 50);
                ESetFiles found;
                ESetRepoInfo parsedRepo;
                ESetSelectedFiles (list_to_set (map path found));
                ESetProgress (inject_Z 100);
                EToast (successToast
                  ("Found " +:+ numberToString (length found) +:+ " text files"))]
               ++ finally)
        | Rejected e =>
            run st
              (begin ++
               [EToast (errorToast ("Failed to fetch repository: " +:+ errorMessage e))]
               ++ finally)
        end
    end.

(** ** generateOutput *)

(** The variables of the loop: [output], [processedFiles], and the events
    made so far. *)
Record Loop := mkLoop {
  output : string;
  processedFiles : nat;
  events : list Event
}.

(** The body of [for (const file of selectedFilesList)]. *)
Definition processFile (r : RepoInfo) (totalFiles : nat) (acc : Loop) (f : GitHubFile) : Loop :=
  let call := EFetchContent (owner r) (repo r) (path f) (branch r) in
  match fetchFileContent (owner r) (repo r) (path f) (branch r) with
  | Fulfilled content =>
      let output := output acc +:+ ("## File: " +:+ path f +:+ nl +:+ nl) in
      let output := output +:+ ("```" +:+ toStringValue (getFileExtension (name f)) +:+ nl) in
      let output := output +:+ content in
      let output := output +:+ (nl +:+ "```" +:+ nl +:+ nl) in
      let processedFiles := S (processedFiles acc) in
      mkLoop output processedFiles
        (events acc ++ [call; ESetProgress (percent processedFiles totalFiles); EDelay 100])
  | Rejected e =>
      let output := output acc +:+ ("## File: " +:+ path f +:+ nl +:+ nl) in
      let output :=
        output +:+ ("Error fetching file content: " +:+ errorMessage e +:+ nl +:+ nl) in
      let processedFiles := S (processedFiles acc) in
      mkLoop output processedFiles
        (events acc ++ [call; EConsoleError (path f) e;
                        ESetProgress (percent processedFiles totalFiles)])
  end.

(** The header the document starts with. *)
Definition header (r : RepoInfo) (totalFiles : nat) : string :=
  let output := "# " +:+ owner r +:+ "/" +:+ repo r +:+ nl +:+ nl in
  let output := output +:+ ("Repository: https://github.com/" +:+ owner r +:+ "/" +:+ repo r +:+ nl) in
  let output := output +:+ ("Branch: " +:+ branch r +:+ nl) in
  let output := output +:+ ("Generated: " +:+ now +:+ nl) in
  let output := output +:+ ("Files included: " +:+ numberToString totalFiles +:+ nl +:+ nl) in
  output +:+ ("---" +:+ nl +:+ nl).

Definition selectedFilesList (st : AppState) : list GitHubFile :=
  List.filter (fun f => bool_decide (path f ∈ selectedFiles st)) (files st).

Definition generateOutput (st : AppState) : AppState * list Event :=
  if Nat.eqb (size (selectedFiles st)) 0 then
    run st [EToast (errorToast "Please select at least one file")]
  else
    let begin := [ESetLoading true; ESetProgress (inject_Z 0)] in
    let finally := [ESetLoading false; ESetProgress (inject_Z 0)] in
    let selected := selectedFilesList st in
    let totalFiles := length selected in
    match repoInfo st with
    | None =>
        run st
          (begin ++
           [EToast (errorToast ("Failed to generate output: " +:+ nullReadMessage))]
           ++ finally)
    | Some r =>
        let done :=
          fold_left (processFile r totalFiles) selected
            (mkLoop (header r totalFiles) 0 begin) in
        run st
          (events done ++
           [ESetResult (output done);
            EToast (successToast
              ("Generated text from " +:+ numberToString (processedFiles done) +:+ " files"))]
           ++ finally)
    end.

End Collaborators.

(* ===================================================================== *)
(** * Vocabulary of the specification *)
(* ===================================================================== *)

(** No [/] in [s]. *)
Fixpoint slashFree (s : string) : bool :=
  match s with
  | EmptyString => true
  | String c s' => (if ascii_dec c "/" then false else true) && slashFree s'
  end.

(** A path segment of a repository reference ([owner], [repo],
    [branch]): non-empty, without a slash. *)
Definition isSegment (s : string) : bool := truthy s && slashFree s.

Fixpoint countSlashes (s : string) : nat :=
  match s with
  | EmptyString => 0
  | String c s' => (if ascii_dec c "/" then 1 else 0) + countSlashes s'
  end.

(** What may follow a segment: the end of the input, or a slash. *)
Definition segmentEnd (s : string) : Prop :=
  s = EmptyString \/ exists s', s = String "/" s'.

(** The beginnings of a URL of the host: the scheme, and the host with
    or without [www.]. *)
Definition urlPrefixes : list string :=
  [ "https://"; "http://"; "https://www."; "http://www." ].

(** "A full host URL containing owner/repo[/tree/branch]", in the words
    of the specification: a URL of the host [github.com] whose path
    starts with the owner and the repository; the path may go on. *)
Definition fullHostUrl (s : string) : Prop :=
  exists pre o r rest,
    s = pre +:+ "github.com/" +:+ o +:+ "/" +:+ r +:+ rest
    /\ In pre urlPrefixes
    /\ isSegment o = true /\ isSegment r = true /\ segmentEnd rest.


(** What the first pattern looks for: [github.com/], a segment, a slash
    and a segment occur somewhere in the input, whatever stands before
    and after. *)
Definition containsHostPattern (s : string) : Prop :=
  exists pre o r rest,
    s = pre +:+ "github.com/" +:+ o +:+ "/" +:+ r +:+ rest
    /\ isSegment o = true /\ isSegment r = true.

(** "A bare owner/repo shorthand": the input is two segments around a
    slash. *)
Definition shorthandShape (s : string) : Prop :=
  exists o r, s = o +:+ "/" +:+ r /\ isSegment o = true /\ isSegment r = true.

(** [s] occurs in the document [doc]. *)
Definition occursIn (s doc : string) : Prop :=
  exists before after, doc = before +:+ s +:+ after.

(** "Its name matches the static allow-list of text-like
    extensions/basenames", in the words of the specification: the name
    ends with an entry of the list that is an extension (it starts with
    a dot), or the name is an entry that is a basename. *)
Definition onAllowList (filename : string) : Prop :=
  exists entry,
    In entry textExtensions
    /\ ((startsWith entry "." = true /\ endsWith filename entry = true)
        \/ (startsWith entry "." = false /\ filename = entry)).

(** The entries of the allow-list that are basenames. *)
Definition listedBasenames : list string :=
  [ "Dockerfile"; "README"; "LICENSE"; "CHANGELOG" ].

(** "Its path matches a deny-list pattern". *)
Definition matchesDenyList (p : string) : Prop :=
  exists pattern, In pattern excludePatterns /\ test pattern p = true.

(** The heading of a file's section. *)
Definition sectionHeading (f : GitHubFile) : string :=
  "## File: " +:+ path f +:+ nl +:+ nl.

(** The fenced block of a file's section, with its tag. *)
Definition fencedBlock (tag content : string) : string :=
  "```" +:+ tag +:+ nl +:+ content +:+ nl +:+ "```" +:+ nl +:+ nl.

(** The section of a file whose content was fetched. *)
Definition contentSection (f : GitHubFile) (content : string) : string :=
  sectionHeading f +:+ fencedBlock (toStringValue (getFileExtension (name f))) content.

(** The section of a file whose fetch failed. *)
Definition errorSection (f : GitHubFile) (e : Thrown) : string :=
  sectionHeading f +:+ "Error fetching file content: " +:+ errorMessage e +:+ nl +:+ nl.

(** The paths the content collaborator was called with, in order. *)
Fixpoint fetchedPaths (evs : list Event) : list string :=
  match evs with
  | [] => []
  | EFetchContent _ _ p _ :: evs' => p :: fetchedPaths evs'
  | _ :: evs' => fetchedPaths evs'
  end.

(** The fetches and the delays of a run, in order. *)
Fixpoint pacing (evs : list Event) : list Event :=
  match evs with
  | [] => []
  | EFetchContent o r p b :: evs' => EFetchContent o r p b :: pacing evs'
  | EDelay ms :: evs' => EDelay ms :: pacing evs'
  | _ :: evs' => pacing evs'
  end.

(** The values the progress counter is set to, in order. *)
Fixpoint progressValues (evs : list Event) : list Q :=
  match evs with
  | [] => []
  | ESetProgress p :: evs' => p :: progressValues evs'
  | _ :: evs' => progressValues evs'
  end.

Section BundleVocabulary.

Variable fetchFileContent : string -> string -> string -> string -> Settled string.
Variable r : RepoInfo.

(** The section a selected file gets, by the outcome of its fetch. *)
Definition sectionOf (f : GitHubFile) : string :=
  match fetchFileContent (owner r) (repo r) (path f) (branch r) with
  | Fulfilled content => contentSection f content
  | Rejected e => errorSection f e
  end.

Fixpoint sections (selected : list GitHubFile) : string :=
  match selected with
  | [] => EmptyString
  | f :: selected' => sectionOf f +:+ sections selected'
  end.

(** What the loop does for the file that brings the count to [k]. *)
Definition fileEvents (totalFiles k : nat) (f : GitHubFile) : list Event :=
  let call := EFetchContent (owner r) (repo r) (path f) (branch r) in
  match fetchFileContent (owner r) (repo r) (path f) (branch r) with
  | Fulfilled _ => [call; ESetProgress (percent k totalFiles); EDelay 100]
  | Rejected e => [call; EConsoleError (path f) e; ESetProgress (percent k totalFiles)]
  end.

Fixpoint loopEvents (totalFiles k : nat) (selected : list GitHubFile) : list Event :=
  match selected with
  | [] => []
  | f :: selected' => fileEvents totalFiles (S k) f ++ loopEvents totalFiles (S k) selected'
  end.

End BundleVocabulary.

(* ===================================================================== *)
(** * Scenarios *)
(* ===================================================================== *)

Definition acme : RepoInfo := {| owner := "acme"; repo := "widgets"; branch := "main" |}.

Definition notFound : Thrown := ErrorObject "Failed to fetch file: 404 Not Found".

(** Two selected files; the fetch of the first one fails. *)
Definition aTs : GitHubFile := mkFile "a.ts" "src/a.ts" "1" file.
Definition xPy : GitHubFile := mkFile "x.py" "x.py" "2" file.

Definition failingFirst (o r p b : string) : Settled string :=
  if string_dec p "src/a.ts" then Rejected notFound else Fulfilled "print(1)".

Definition twoSelected : AppState :=
  {| repoUrl := "acme/widgets"; files := [aTs; xPy];
     selectedFiles := {[ "src/a.ts"; "x.py" ]};
     loading := false; progress := inject_Z 0; result := EmptyString;
     repoInfo := Some acme |}.

(** The selection [{"x.py"}] of the same file list. *)
Definition onlyPy : AppState :=
  {| repoUrl := "acme/widgets"; files := [aTs; xPy];
     selectedFiles := {[ "x.py" ]};
     loading := false; progress := inject_Z 0; result := EmptyString;
     repoInfo := Some acme |}.

(** Nothing selected, a document left by an earlier run. *)
Definition noneSelected : AppState :=
  {| repoUrl := "acme/widgets"; files := [aTs; xPy];
     selectedFiles := ∅;
     loading := false; progress := inject_Z 0; result := "# earlier document";
     repoInfo := Some acme |}.

(** A file whose name has no extension and that the filter of
    [fetchRepository] lets through. *)
Definition confFile : GitHubFile := mkFile "conf" "etc/conf" "3" file.

Definition confSelected : AppState :=
  {| repoUrl := "acme/widgets"; files := textFiles [confFile];
     selectedFiles := {[ "etc/conf" ]};
     loading := false; progress := inject_Z 0; result := EmptyString;
     repoInfo := Some acme |}.

Definition alwaysFulfilled (content : string) (o r p b : string) : Settled string :=
  Fulfilled content.

(** A fetched tree: a source file, a directory, an image and a file
    under a dependency directory. *)
Definition sampleTree : GitHubTree :=
  {| tree := [ mkFile "a.ts" "src/a.ts" "1" file;
               mkFile "src" "src" "2" dir;
               mkFile "logo.png" "logo.png" "3" file;
               mkFile "i.js" "node_modules/i.js" "4" file ];
     truncated := false |}.

Definition treeFetched (o r b : string) : Settled GitHubTree := Fulfilled sampleTree.

(** A fetched tree with a [README] and a source file at the top. *)
Definition readme : GitHubFile := mkFile "README" "README" "5" file.
Definition mainPy : GitHubFile := mkFile "main.py" "main.py" "6" file.

Definition readmeTree : GitHubTree :=
  {| tree := [readme; mainPy]; truncated := false |}.

Definition readmeFetched (o r b : string) : Settled GitHubTree := Fulfilled readmeTree.

Definition beforeFetch : AppState :=
  {| repoUrl := "acme/widgets"; files := [];
     selectedFiles := ∅;
     loading := false; progress := inject_Z 0; result := EmptyString;
     repoInfo := None |}.

(* ===================================================================== *)
(** * Vocabulary of the tree builder *)
(* ===================================================================== *)

(** The segments of an entry's path. *)
Definition segments (f : GitHubFile) : list string := split "/" (path f).

(** The path made of the first [i] segments. *)
Definition prefixPath (parts : list string) (i : nat) : string :=
  join "/" (take i parts).

(** "The leaf file nodes correspond exactly to the entries whose type is
    'file' (one file node per such entry, carrying that entry), and for
    every proper path-prefix of any entry's path there is a directory
    node with that prefix path." *)
Definition treeMatchesEntries (t : Tree) (entries : list GitHubFile) : Prop :=
  (forall f, In f entries -> type f = file ->
     exists n, treeNode t n /\ node_type n = file /\ node_file n = Some f
               /\ children n = [])
  /\ (forall n, treeNode t n -> node_type n = file ->
        children n = []
        /\ exists f, In f entries /\ type f = file /\ node_file n = Some f)
  /\ (forall n n' f, treeNode t n -> treeNode t n' ->
        node_file n = Some f -> node_file n' = Some f -> n = n')
  /\ (forall g i, In g entries -> (0 < i < length (segments g))%nat ->
        exists n, treeNode t n /\ node_type n = dir
                  /\ node_path n = prefixPath (segments g) i).

(** No two entries have the same path. *)
Definition pathsDistinct (entries : list GitHubFile) : Prop :=
  NoDup (map path entries).

(** No file entry's path is a proper directory prefix of an entry's
    path. *)
Definition noFileAsDirectory (entries : list GitHubFile) : Prop :=
  forall f g i, In f entries -> In g entries -> type f = file ->
    (0 < i < length (segments g))%nat -> prefixPath (segments g) i <> path f.

(** Every path starts with a non-empty segment: it is not empty and does
    not start with a slash. *)
Definition relativePaths (entries : list GitHubFile) : Prop :=
  forall g, In g entries -> truthy (hd EmptyString (segments g)) = true.

(** The order of the sort: [a] may stay before [b]. *)
Definition pathLe (localeCompare : string -> string -> Z) (a b : GitHubFile) : Prop :=
  (localeCompare (path a) (path b) <= 0)%Z.

(** A consistent comparison function, as [Array.prototype.sort] asks
    for one: by the sign of the result, a string equals itself, equality
    is symmetric and transitive, and so are "before" and "after".
    Strings that are different may compare as equal. *)
Definition consistentComparator (localeCompare : string -> string -> Z) : Prop :=
  (forall a, localeCompare a a = 0%Z)
  /\ (forall a b, localeCompare a b = 0%Z -> localeCompare b a = 0%Z)
  /\ (forall a b c, localeCompare a b = 0%Z -> localeCompare b c = 0%Z ->
        localeCompare a c = 0%Z)
  /\ (forall a b c, (localeCompare a b < 0)%Z -> (localeCompare b c < 0)%Z ->
        (localeCompare a c < 0)%Z)
  /\ (forall a b c, (localeCompare a b > 0)%Z -> (localeCompare b c > 0)%Z ->
        (localeCompare a c > 0)%Z).

(** The comparison function ties no two different paths of the
    entries. *)
Definition noTies (localeCompare : string -> string -> Z) (entries : list GitHubFile)
    : Prop :=
  forall f g, In f entries -> In g entries ->
    localeCompare (path f) (path g) = 0%Z -> path f = path g.

(** A consistent comparator that tells different strings apart: a total
    order. *)
Definition totalOrderComparator (localeCompare : string -> string -> Z) : Prop :=
  (forall a b, (localeCompare a b <= 0)%Z \/ (localeCompare b a <= 0)%Z)
  /\ (forall a b c, (localeCompare a b <= 0)%Z -> (localeCompare b c <= 0)%Z ->
        (localeCompare a c <= 0)%Z)
  /\ (forall a b, (localeCompare a b <= 0)%Z -> (localeCompare b a <= 0)%Z -> a = b).

(** The comparison by character codes, one total order comparator. *)
Definition codeCompare (a b : string) : Z :=
  match String.compare a b with
  | Lt => (-1)%Z
  | Eq => 0%Z
  | Gt => 1%Z
  end.

(** A comparison that ignores the case of the letters [A]-[Z]: a
    consistent comparator that ties different strings. *)
Definition caseBlindCompare (a b : string) : Z :=
  codeCompare (toLowerCase a) (toLowerCase b).

(** The example of the specification. *)
Definition bTxt : GitHubFile := mkFile "b.txt" "a/b.txt" "1" file.
Definition dTxt : GitHubFile := mkFile "d.txt" "a/c/d.txt" "2" file.

(** A file entry whose path is the directory of another entry. *)
Definition aFile : GitHubFile := mkFile "a" "a" "1" file.
Definition abFile : GitHubFile := mkFile "b" "a/b" "2" file.

(** A file whose path differs from the path of [aFile] by the case of
    its letter. *)
Definition capitalA : GitHubFile := mkFile "A" "A" "4" file.

(** A directory entry with the path of [aFile]. *)
Definition aDir : GitHubFile := mkFile "a" "a" "3" dir.

(** ** The invariants of the two loops of [buildTree] *)

(** The registered nodes, with [seen] the entries met so far: a node is
    registered under its own path and is in the tree; a file node is a
    leaf and carries a file entry with its path; a directory node carries
    none. *)
Definition nodesWellFormed (seen : list GitHubFile) (t : Tree) : Prop :=
  (forall k n, nodeMap t !! k = Some n -> node_path n = k)
  /\ (forall k, is_Some (nodeMap t !! k) -> inTree t k)
  /\ (forall k n, nodeMap t !! k = Some n -> node_type n = file ->
        children n = []
        /\ exists f, In f seen /\ type f = file /\ path f = k /\ node_file n = Some f)
  /\ (forall k n, nodeMap t !! k = Some n -> node_type n = dir -> node_file n = None).

(** The entries already processed: a node is registered for each of
    their prefixes, and each file entry has its file node. *)
Definition covered (processed : list GitHubFile) (t : Tree) : Prop :=
  (forall g i, In g processed -> (0 < i <= length (segments g))%nat ->
     is_Some (nodeMap t !! prefixPath (segments g) i))
  /\ (forall f, In f processed -> type f = file ->
        exists n, nodeMap t !! path f = Some n /\ node_type n = file
                  /\ node_file n = Some f).

(** Where the registered paths come from: a prefix of a processed entry,
    or one of the first [index] prefixes of the current entry [g]. *)
Definition provenance (processed : list GitHubFile) (g : GitHubFile) (index : nat)
    (t : Tree) : Prop :=
  forall k, is_Some (nodeMap t !! k) ->
    (exists g' i, In g' processed /\ (0 < i <= length (segments g'))%nat
                  /\ k = prefixPath (segments g') i)
    \/ (exists i, (0 < i <= index)%nat /\ k = prefixPath (segments g) i).

(** Between two entries. *)
Definition treeInv (processed : list GitHubFile) (t : Tree) : Prop :=
  nodesWellFormed processed t
  /\ covered processed t
  /\ (forall k, is_Some (nodeMap t !! k) ->
        exists g' i, In g' processed /\ (0 < i <= length (segments g'))%nat
                     /\ k = prefixPath (segments g') i).

(** Inside the entry [g], before the part at [index]. *)
Definition fileInv (processed : list GitHubFile) (g : GitHubFile) (index : nat)
    (t : Tree) : Prop :=
  nodesWellFormed (processed ++ [g]) t
  /\ covered processed t
  /\ provenance processed g index t
  /\ (forall i, (0 < i <= index)%nat ->
        is_Some (nodeMap t !! prefixPath (segments g) i))
  /\ (index = length (segments g) -> type g = file ->
        exists n, nodeMap t !! path g = Some n /\ node_type n = file
                  /\ node_file n = Some g).

(** The node [visitPart] creates for the part at [index] of the entry
    [g]. *)
Definition newNode (g : GitHubFile) (index : nat) (part : string) : TreeNode :=
  let leaf :=
    Nat.eqb index (length (segments g) - 1) && bool_decide (type g = file) in
  {| node_name := part;
     node_path := prefixPath (segments g) (S index);
     node_type := if leaf then file else dir;
     children := [];
     node_file := if leaf then Some g else None |}.

(* ===================================================================== *)
(** * GitHubService: the API key and the two requests *)
(* ===================================================================== *)

Module GitHubService.

(** The static field [apiKey] and the browser's [localStorage]. *)
Record KeyStore := mkKeyStore {
  apiKey : option string;
  localStorage : gmap string string
}.

(** Truthiness of a [string | null]. *)
Definition truthyKey (k : option string) : bool :=
  match k with
  | Some s => truthy s
  | None => false
  end.

Definition setApiKey (key : string) (ks : KeyStore) : KeyStore :=
  {| apiKey := Some key;
     localStorage := <["github_api_key" := key]> (localStorage ks) |}.

(** [getApiKey()]: the cached key, read from [localStorage] when the
    field is null or empty; the second component is the store it leaves. *)
Definition getApiKey (ks : KeyStore) : option string * KeyStore :=
  let ks' :=
    if truthyKey (apiKey ks) then ks
    else {| apiKey := localStorage ks !! "github_api_key";
            localStorage := localStorage ks |} in
  (apiKey ks', ks').

(** A page load: the static field starts as null, [localStorage] stays. *)
Definition reload (ks : KeyStore) : KeyStore :=
  {| apiKey := None; localStorage := localStorage ks |}.

Definition BASE_URL : string := "https://api.github.com".

(** The [headers] object of both requests, in the order in which its
    properties are set. *)
Definition requestHeaders (key : option string) : list (string * string) :=
  ("Accept", "application/vnd.github.v3+json")
  :: (if truthyKey key
      then [("Authorization", "token " +:+ default EmptyString key)]
      else []).

(** What [fetch] resolves to: the fields the code reads, and what
    [response.json()] gives. *)
Record Response (J : Type) := mkResponse {
  ok : bool;
  status : nat;
  statusText : string;
  json : Settled J
}.
Arguments mkResponse {J} ok status statusText json.
Arguments ok {J} r.
Arguments status {J} r.
Arguments statusText {J} r.
Arguments json {J} r.

(** The payload of the contents endpoint: [data.content] and
    [data.encoding], [None] when the property is missing. *)
Record ContentData := mkContentData {
  content : option string;
  encoding : option string
}.

(** [branch: string = 'main'] *)
Definition branchDefault (b : option string) : string := default "main" b.

Definition treeUrl (o r : string) (b : option string) : string :=
  BASE_URL +:+ "/repos/" +:+ o +:+ "/" +:+ r +:+ "/git/trees/" +:+ branchDefault b
  +:+ "?recursive=1".

Definition contentUrl (o r p : string) (b : option string) : string :=
  BASE_URL +:+ "/repos/" +:+ o +:+ "/" +:+ r +:+ "/contents/" +:+ p +:+ "?ref="
  +:+ branchDefault b.

(** [s.replace(/\n/g, '')] *)
Fixpoint removeNewlines (s : string) : string :=
  match s with
  | EmptyString => EmptyString
  | String c s' =>
      if ascii_dec c (ascii_of_nat 10) then removeNewlines s'
      else String c (removeNewlines s')
  end.

Section Requests.

Variable fetchTree : string -> list (string * string) -> Settled (Response GitHubTree).
Variable fetchContent : string -> list (string * string) -> Settled (Response ContentData).

(** [atob]: the decoded text, or the exception for a malformed input. *)
Variable atob : string -> Settled string.

(** [fetchRepoTree(owner, repo, branch)], with the store of the key it
    leaves. *)
Definition fetchRepoTree (o r : string) (b : option string) (ks : KeyStore)
    : Settled GitHubTree * KeyStore :=
  let (key, ks') := getApiKey ks in
  let headers := requestHeaders key in
  let url := treeUrl o r b in
  match fetchTree url headers with
  | Rejected e => (Rejected e, ks')
  | Fulfilled response =>
      if negb (ok response) then
        (Rejected (ErrorObject
           ("Failed to fetch repository: " +:+ numberToString (status response)
            +:+ " " +:+ statusText response)),
         ks')
      else (json response, ks')
  end.

(** What [fetchFileContent] returns for the parsed payload [data]. *)
Definition decodeContent (data : ContentData) : Settled string :=
  match content data with
  | Some c =>
      if truthy c then
        if bool_decide (encoding data = Some "base64") then atob (removeNewlines c)
        else Fulfilled c
      else Fulfilled EmptyString
  | None => Fulfilled EmptyString
  end.

(** [fetchFileContent(owner, repo, path, branch)] *)
Definition fetchFileContent (o r p : string) (b : option string) (ks : KeyStore)
    : Settled string * KeyStore :=
  let (key, ks') := getApiKey ks in
  let headers := requestHeaders key in
  let url := contentUrl o r p b in
  match fetchContent url headers with
  | Rejected e => (Rejected e, ks')
  | Fulfilled response =>
      if negb (ok response) then
        (Rejected (ErrorObject
           ("Failed to fetch file: " +:+ numberToString (status response)
            +:+ " " +:+ statusText response)),
         ks')
      else
        match json response with
        | Rejected e => (Rejected e, ks')
        | Fulfilled data => (decodeContent data, ks')
        end
  end.

End Requests.

End GitHubService.

(* ===================================================================== *)
(** * FileTreeSelector: expansion and selection *)
(* ===================================================================== *)

Module FileTreeSelector.

(** [toggleExpanded(path)]: the next value of [expandedDirs]. *)
Definition toggleExpanded (p : string) (expandedDirs : gset string) : gset string :=
  if bool_decide (p ∈ expandedDirs) then expandedDirs ∖ {[ p ]}
  else expandedDirs ∪ {[ p ]}.

(** [toggleFileSelection(path, checked)]: the set handed to
    [onSelectionChange]. *)
Definition toggleFileSelection (p : string) (checked : bool)
    (selectedFiles : gset string) : gset string :=
  if checked then selectedFiles ∪ {[ p ]} else selectedFiles ∖ {[ p ]}.

(** [selectAll()]: the set handed to [onSelectionChange]. *)
Definition selectAll (files : list GitHubFile) : gset string :=
  list_to_set (map path (List.filter (fun f => bool_decide (type f = file)) files)).

(** [selectNone()] *)
Definition selectNone : gset string := ∅.

End FileTreeSelector.

(* ===================================================================== *)
(** * RepoAnalyzer: the component as a whole *)
(* ===================================================================== *)

Module RepoAnalyzer.

(** The state of the first render. *)
Definition initialState : AppState :=
  {| repoUrl := EmptyString; files := []; selectedFiles := ∅;
     loading := false; progress := inject_Z 0; result := EmptyString;
     repoInfo := None |}.

(** [setRepoUrl(value)] *)
Definition setRepoUrl (value : string) (st : AppState) : AppState :=
  mkState value (files st) (selectedFiles st) (loading st) (progress st) (result st)
          (repoInfo st).

(** [downloadResult()]: the name and the content of the file offered,
    [None] when reading [repoInfo.owner] throws. *)
Definition downloadResult (st : AppState) : option (string * string) :=
  match repoInfo st with
  | Some r =>
      Some (owner r +:+ "-" +:+ repo r +:+ "-" +:+ branch r +:+ ".txt", result st)
  | None => None
  end.

(** What the user can do with the rendered component. *)
Inductive Action :=
  | TypeUrl (value : string)
  | Fetch
  | ToggleFile (p : string) (checked : bool)
  | SelectAll
  | SelectNone
  | Generate.

(** The control of an action is rendered and enabled: the selector and
    the generate button are rendered when [files.length > 0], the button
    is disabled while loading or with nothing selected; the fetch button
    is disabled while loading, the Enter key of the URL field never. *)
Definition available (st : AppState) (a : Action) : bool :=
  match a with
  | TypeUrl _ => true
  | Fetch => true
  | ToggleFile _ _ | SelectAll | SelectNone => Nat.ltb 0 (length (files st))
  | Generate =>
      Nat.ltb 0 (length (files st))
      && negb (loading st || Nat.eqb (size (selectedFiles st)) 0)
  end.

Section Steps.

Variable fetchRepoTree : string -> string -> string -> Settled GitHubTree.
Variable fetchFileContent : string -> string -> string -> string -> Settled string.
Variable now : string.
Variable nullReadMessage : string.

(** The state an action leaves, its run being over. *)
Definition perform (st : AppState) (a : Action) : AppState :=
  match a with
  | TypeUrl value => setRepoUrl value st
  | Fetch => fst (fetchRepository fetchRepoTree st)
  | ToggleFile p checked =>
      applyEvent st
        (ESetSelectedFiles (FileTreeSelector.toggleFileSelection p checked (selectedFiles st)))
  | SelectAll => applyEvent st (ESetSelectedFiles (FileTreeSelector.selectAll (files st)))
  | SelectNone => applyEvent st (ESetSelectedFiles FileTreeSelector.selectNone)
  | Generate => fst (generateOutput fetchFileContent now nullReadMessage st)
  end.

End Steps.

(** The states the component reaches from its first render when each run
    is over before the next action; the network and the clock may answer
    differently at every step. *)
Inductive reachable : AppState -> Prop :=
  | reachable_initial : reachable initialState
  | reachable_step st a fetchRepoTree fetchFileContent now nullReadMessage :
      reachable st -> available st a = true ->
      reachable (perform fetchRepoTree fetchFileContent now nullReadMessage st a).

End RepoAnalyzer.

(* ===================================================================== *)
(** * More vocabulary *)
(* ===================================================================== *)

(** The texts of the exclusion patterns that are not anchored; the last
    one is the mandatory part of [logs?]. *)
Definition excludedSubstrings : list string :=
  [ "node_modules"; ".git"; ".DS_Store"; ".vscode"; ".idea"; "dist"; "build";
    "out"; "target"; "bin"; "obj"; ".next"; "coverage"; ".nyc_output"; "log" ].

(** The texts of the exclusion patterns anchored at the end. *)
Definition excludedSuffixes : list string :=
  [ ".log"; ".lock"; "package-lock.json"; "yarn.lock"; "pnpm-lock.yaml"; "bun.lockb" ].

(** The lower-case forms of the four entries of the allow-list that are
    names, not extensions. *)
Definition namedFiles : list string :=
  [ "dockerfile"; "readme"; "license"; "changelog" ].

(** The entries with the path [p], in their order. *)
Definition withPath (p : string) (entries : list GitHubFile) : list GitHubFile :=
  List.filter (fun f => if string_dec (path f) p then true else false) entries.

(** No value of the list is above the next one. *)
Fixpoint nondecreasing (values : list Q) : bool :=
  match values with
  | x :: (y :: _) as rest => Qle_bool x y && nondecreasing rest
  | _ => true
  end.

(** In a run over [n] files the progress does not go down from one
    file to the next. *)
Definition progressRises (n : nat) : bool :=
  nondecreasing (map (fun k => percent k n) (seq 0 (S n))).

(** The same for every run over at most [bound] files. *)
Definition progressRisesUpTo (bound : nat) : bool :=
  forallb progressRises (seq 0 (S bound)).

(** The number of delays among the events of a run. *)
Fixpoint delays (evs : list Event) : nat :=
  match evs with
  | [] => 0
  | EDelay _ :: evs' => S (delays evs')
  | _ :: evs' => delays evs'
  end.

(** The selected files whose content the collaborator returns. *)
Definition fetchedFiles
    (fetchFileContent : string -> string -> string -> string -> Settled string)
    (r : RepoInfo) (selected : list GitHubFile) : list GitHubFile :=
  List.filter
    (fun f =>
       match fetchFileContent (owner r) (repo r) (path f) (branch r) with
       | Fulfilled _ => true
       | Rejected _ => false
       end)
    selected.

(** What [buildTree] keeps of its store whatever the entries: a node is
    registered under its own path; a file node carries a file entry of
    the input, a directory node none; what is in [root] or in a
    [children] array is registered; and no node is attached twice. *)
Definition storeInv (entries : list GitHubFile) (t : Tree) : Prop :=
  (forall k n, nodeMap t !! k = Some n -> node_path n = k)
  /\ (forall k n, nodeMap t !! k = Some n -> node_type n = file ->
        exists f, node_file n = Some f /\ In f entries /\ type f = file)
  /\ (forall k n, nodeMap t !! k = Some n -> node_type n = dir -> node_file n = None)
  /\ (forall k, In k (root t) -> is_Some (nodeMap t !! k))
  /\ (forall p n c, nodeMap t !! p = Some n -> In c (children n) ->
        is_Some (nodeMap t !! c))
  /\ List.NoDup (root t)
  /\ (forall p n, nodeMap t !! p = Some n -> List.NoDup (children n))
  /\ (forall p n c, nodeMap t !! p = Some n -> In c (children n) -> ~ In c (root t))
  /\ (forall p p' n n' c,
        nodeMap t !! p = Some n -> nodeMap t !! p' = Some n' ->
        In c (children n) -> In c (children n') -> p = p').

(** The key [k] is in no array of the tree. *)
Definition unattached (t : Tree) (k : string) : Prop :=
  ~ In k (root t)
  /\ forall p n, nodeMap t !! p = Some n -> ~ In k (children n).

(** How the paths of the nodes hang together: a node is registered
    under its path, and what is attached is registered; every registered
    node is in the tree; the path of a top-level node is its name; the
    path of a child is the path of its parent, a slash and its name. *)
Definition pathsLinked (t : Tree) : Prop :=
  (forall k n, nodeMap t !! k = Some n -> node_path n = k)
  /\ (forall k, In k (root t) -> is_Some (nodeMap t !! k))
  /\ (forall p n c, nodeMap t !! p = Some n -> In c (children n) ->
        is_Some (nodeMap t !! c))
  /\ (forall k, is_Some (nodeMap t !! k) -> inTree t k)
  /\ (forall k n, In k (root t) -> nodeMap t !! k = Some n -> node_path n = node_name n)
  /\ (forall p n c cn,
        nodeMap t !! p = Some n -> In c (children n) -> nodeMap t !! c = Some cn ->
        node_path cn = node_path n +:+ "/" +:+ node_name cn).

(** [pathsLinked], inside an entry whose first [index] prefixes are
    registered. *)
Definition linkedUpTo (g : GitHubFile) (index : nat) (t : Tree) : Prop :=
  pathsLinked t
  /\ forall i, (0 < i <= index)%nat -> is_Some (nodeMap t !! prefixPath (segments g) i).

(** What holds of the state between two runs: nothing is loading and
    the progress is reset; a listed file went through the filter of
    [fetchRepository]; where there are files, or a document, the
    repository is known; without files nothing is selected. *)
Definition stateInv (st : AppState) : Prop :=
  loading st = false
  /\ progress st = inject_Z 0
  /\ (forall f, In f (files st) ->
        type f = file /\ isTextFile (name f) = true /\ shouldIncludeFile (path f) = true)
  /\ (files st <> [] -> is_Some (repoInfo st))
  /\ (truthy (result st) = true -> is_Some (repoInfo st))
  /\ (files st = [] -> selectedFiles st = ∅).

(* ===================================================================== *)
(** * More scenarios *)
(* ===================================================================== *)

(** A store in which a key was saved on an earlier visit. *)
Definition savedKey : GitHubService.KeyStore :=
  GitHubService.reload
    (GitHubService.setApiKey "ghp_abc" (GitHubService.mkKeyStore None ∅)).

(** The network answers every tree request with [404 Not Found]. *)
Definition treeNotFound (url : string) (headers : list (string * string))
    : Settled (GitHubService.Response GitHubTree) :=
  Fulfilled (GitHubService.mkResponse false 404 "Not Found" (Rejected OtherValue)).

(** The contents endpoint: [404] for [src/a.ts], and for every other
    path a base64 payload broken over two lines. *)
Definition contentsNetwork (url : string) (headers : list (string * string))
    : Settled (GitHubService.Response GitHubService.ContentData) :=
  if string_dec url
       (GitHubService.contentUrl "acme" "widgets" "src/a.ts" (Some "main"))
  then Fulfilled (GitHubService.mkResponse false 404 "Not Found" (Rejected OtherValue))
  else Fulfilled (GitHubService.mkResponse true 200 "OK"
         (Fulfilled (GitHubService.mkContentData
                       (Some ("cHJpbnQo" +:+ nl +:+ "MSk=")) (Some "base64")))).

(** A decoder that knows the payload of the scenario. *)
Definition atobSample (s : string) : Settled string :=
  if string_dec s "cHJpbnQoMSk=" then Fulfilled "print(1)"
  else Rejected (ErrorObject "The string to be decoded is not correctly encoded.").

(** [fetchFileContent] of the service as the collaborator of
    [generateOutput], for the store [ks] of the key at the start of the
    run: reading the key leaves a store in which the next read gives the
    same key, so every call of the run reads what the first one reads. *)
Definition serviceFetchFileContent
    (fetchContent : string -> list (string * string)
                    -> Settled (GitHubService.Response GitHubService.ContentData))
    (atob : string -> Settled string) (ks : GitHubService.KeyStore)
    (o r p b : string) : Settled string :=
  fst (GitHubService.fetchFileContent fetchContent atob o r p (Some b) ks).

(** [fetchRepoTree] of the service as the collaborator of
    [fetchRepository], for the store [ks] of the key at the start of the
    run. *)
Definition serviceFetchRepoTree
    (fetchTree : string -> list (string * string)
                 -> Settled (GitHubService.Response GitHubTree))
    (ks : GitHubService.KeyStore) (o r b : string) : Settled GitHubTree :=
  fst (GitHubService.fetchRepoTree fetchTree o r (Some b) ks).

(** The state in which a repository reference was typed. *)
Definition urlTyped : AppState := RepoAnalyzer.setRepoUrl "acme/widgets" RepoAnalyzer.initialState.

(** The reference typed, the repository fetched, the document
    generated. *)
Definition afterFetch : AppState :=
  RepoAnalyzer.perform treeFetched failingFirst "T" "null" urlTyped RepoAnalyzer.Fetch.

Definition afterGenerate : AppState :=
  RepoAnalyzer.perform treeFetched failingFirst "T" "null" afterFetch RepoAnalyzer.Generate.

(* ===================================================================== *)
(** * Theorems *)
(* ===================================================================== *)

Local Arguments String.append : simpl nomatch.

(* ===================================================================== *)
(** * Facts about strings *)
(* ===================================================================== *)

Section StringFacts.

Lemma append_assoc (a b c : string) : (a +:+ b) +:+ c = a +:+ (b +:+ c).
Proof. induction a as [|x a IH]; simpl; [reflexivity | by rewrite IH]. Qed.

Lemma append_nil_l (a : string) : EmptyString +:+ a = a.
Proof. reflexivity. Qed.

Lemma append_cons (c : ascii) (a b : string) : String c a +:+ b = String c (a +:+ b).
Proof. reflexivity. Qed.

Lemma append_nil_r (a : string) : a +:+ EmptyString = a.
Proof. induction a as [|x a IH]; simpl; [reflexivity | by rewrite IH]. Qed.

Lemma length_append (a b : string) :
  String.length (a +:+ b) = (String.length a + String.length b)%nat.
Proof. induction a as [|x a IH]; simpl; [reflexivity | by rewrite IH]. Qed.

Lemma stripPrefix_app (p s : string) : stripPrefix p (p +:+ s) = Some s.
Proof.
  induction p as [|x p IH]; simpl; [by destruct s|].
  destruct (ascii_dec x x); [apply IH | congruence].
Qed.

Lemma stripPrefix_Some (p s r : string) : stripPrefix p s = Some r -> s = p +:+ r.
Proof.
  revert s; induction p as [|x p IH]; intros s H; simpl in *.
  - destruct s; congruence.
  - destruct s as [|y s]; [discriminate|].
    destruct (ascii_dec x y) as [->|]; [|discriminate].
    by rewrite (IH _ H).
Qed.

Lemma substring_prefix (a b : string) : substring 0 (String.length a) (a +:+ b) = a.
Proof.
  induction a as [|x a IH]; simpl; [by destruct b | by rewrite IH].
Qed.

Lemma endsWith_refl (p : string) : endsWith p p = true.
Proof.
  destruct p as [|c p]; [reflexivity|].
  cbn [endsWith]. by destruct (string_dec (String c p) (String c p)).
Qed.

Lemma endsWith_app (a p : string) : endsWith (a +:+ p) p = true.
Proof.
  induction a as [|x a IH]; simpl.
  - apply endsWith_refl.
  - rewrite IH. apply orb_true_r.
Qed.

Lemma countSlashes_app (a b : string) :
  countSlashes (a +:+ b) = (countSlashes a + countSlashes b)%nat.
Proof. induction a as [|x a IH]; simpl; [reflexivity | rewrite IH; lia]. Qed.

Lemma countSlashes_slashFree (a : string) : slashFree a = true -> countSlashes a = 0%nat.
Proof.
  induction a as [|x a IH]; simpl; [reflexivity|].
  destruct (ascii_dec x "/"); simpl; [discriminate | auto].
Qed.

Lemma isSegment_inv (s : string) :
  isSegment s = true -> truthy s = true /\ slashFree s = true.
Proof. unfold isSegment. intros H. by apply andb_prop in H. Qed.

End StringFacts.

(* ===================================================================== *)
(** * parseRepoUrl *)
(* ===================================================================== *)

Section ParseRepoUrl.

Lemma spanSegment_spec (s a b : string) :
  spanSegment s = (a, b) -> s = a +:+ b /\ slashFree a = true /\ segmentEnd b.
Proof.
  revert a b; induction s as [|c s IH]; intros a b H; simpl in H.
  - inversion H; subst. repeat split. by left.
  - destruct (ascii_dec c "/") as [->|Hc].
    + inversion H; subst. repeat split. right; eauto.
    + destruct (spanSegment s) as [seg rest] eqn:E. inversion H; subst.
      destruct (IH _ _ eq_refl) as (-> & Hs & He).
      simpl. destruct (ascii_dec c "/"); [contradiction|]. by repeat split.
Qed.

Lemma spanSegment_app (a b : string) :
  slashFree a = true -> segmentEnd b -> spanSegment (a +:+ b) = (a, b).
Proof.
  intros Ha Hb. induction a as [|c a IH]; simpl in *.
  - destruct Hb as [->|[b' ->]]; [reflexivity|]. simpl.
    by destruct (ascii_dec "/" "/").
  - destruct (ascii_dec c "/"); [discriminate|]. simpl in Ha. by rewrite IH.
Qed.

Lemma spanSegment_truthy (r rest : string) :
  isSegment r = true -> truthy (fst (spanSegment (r +:+ rest))) = true.
Proof.
  intros [Ht Hs]%isSegment_inv. destruct r as [|c r]; [discriminate|].
  simpl in *. destruct (ascii_dec c "/"); [discriminate|].
  by destruct (spanSegment (r +:+ rest)).
Qed.

Lemma matchUrl_unfold (s : string) :
  matchUrl s =
  match matchUrlAt s with
  | Some m => Some m
  | None => match s with EmptyString => None | String _ s' => matchUrl s' end
  end.
Proof. by destruct s. Qed.


Lemma matchUrlAt_sound (s o r : string) (b : option string) :
  matchUrlAt s = Some (o, r, b) ->
  exists rest,
    s = "github.com/" +:+ o +:+ "/" +:+ r +:+ rest
    /\ isSegment o = true /\ isSegment r = true
    /\ segmentEnd rest /\ b = matchTree rest.
Proof.
  unfold matchUrlAt. intros H.
  destruct (stripPrefix "github.com/" s) as [s1|] eqn:E1; [|discriminate].
  apply stripPrefix_Some in E1 as ->.
  destruct (spanSegment s1) as [o' s2] eqn:E2.
  apply spanSegment_spec in E2 as (-> & Hso & _).
  destruct (truthy o') eqn:Hto; [|discriminate].
  destruct s2 as [|c s3]; [discriminate|].
  destruct c as [[] [] [] [] [] [] [] []]; try discriminate.
  destruct (spanSegment s3) as [r' s4] eqn:E3.
  apply spanSegment_spec in E3 as (-> & Hsr & He).
  destruct (truthy r') eqn:Htr; [|discriminate].
  inversion H; subst. exists s4.
  unfold isSegment. rewrite Hto, Hso, Htr, Hsr. by repeat split.
Qed.

Lemma matchUrl_sound (s o r : string) (b : option string) :
  matchUrl s = Some (o, r, b) ->
  exists pre rest,
    s = pre +:+ "github.com/" +:+ o +:+ "/" +:+ r +:+ rest
    /\ isSegment o = true /\ isSegment r = true.
Proof.
  induction s as [|c s IH]; rewrite matchUrl_unfold.
  - destruct (matchUrlAt EmptyString) as [m|] eqn:E; [|discriminate].
    intros [= ->]. apply matchUrlAt_sound in E as (rest & E & Ho & Hr & _).
    exists EmptyString, rest. by repeat split.
  - destruct (matchUrlAt (String c s)) as [m|] eqn:E.
    + intros [= ->]. apply matchUrlAt_sound in E as (rest & E & Ho & Hr & _).
      exists EmptyString, rest. by repeat split.
    + intros H. destruct (IH H) as (pre & rest & -> & Ho & Hr).
      exists (String c pre), rest. by repeat split.
Qed.

Lemma matchUrlAt_complete (o r rest : string) :
  isSegment o = true -> isSegment r = true ->
  is_Some (matchUrlAt ("github.com/" +:+ o +:+ "/" +:+ r +:+ rest)).
Proof.
  intros [Hto Hso]%isSegment_inv Hr.
  unfold matchUrlAt. rewrite stripPrefix_app.
  rewrite (spanSegment_app o); [|done|right; simpl; eauto].
  rewrite Hto. simpl.
  pose proof (spanSegment_truthy r rest Hr) as Ht.
  destruct (spanSegment (r +:+ rest)) as [r' s4]. simpl in Ht. rewrite Ht. eauto.
Qed.

Lemma matchUrl_complete (s : string) : containsHostPattern s -> is_Some (matchUrl s).
Proof.
  intros (pre & o & r & rest & -> & Ho & Hr).
  induction pre as [|c pre IH]; rewrite matchUrl_unfold.
  - rewrite append_nil_l. destruct (matchUrlAt_complete o r rest Ho Hr) as [m ->]. eauto.
  - destruct (matchUrlAt _); [eauto|]. rewrite append_cons. apply IH.
Qed.

Lemma matchShorthand_sound (s o r : string) (b : option string) :
  matchShorthand s = Some (o, r, b) ->
  s = o +:+ "/" +:+ r /\ isSegment o = true /\ isSegment r = true /\ b = None.
Proof.
  unfold matchShorthand. intros H.
  destruct (spanSegment s) as [o' s2] eqn:E2.
  apply spanSegment_spec in E2 as (-> & Hso & _).
  destruct (truthy o') eqn:Hto; [|discriminate].
  destruct s2 as [|c s3]; [discriminate|].
  destruct c as [[] [] [] [] [] [] [] []]; try discriminate.
  destruct (spanSegment s3) as [r' s4] eqn:E3.
  apply spanSegment_spec in E3 as (-> & Hsr & He).
  destruct (truthy r') eqn:Htr; [|discriminate].
  destruct s4; [|discriminate]. inversion H; subst.
  rewrite append_nil_r. unfold isSegment. rewrite Hto, Hso, Htr, Hsr. by repeat split.
Qed.

Lemma matchShorthand_complete (o r : string) :
  isSegment o = true -> isSegment r = true ->
  matchShorthand (o +:+ "/" +:+ r) = Some (o, r, None).
Proof.
  intros [Hto Hso]%isSegment_inv [Htr Hsr]%isSegment_inv.
  unfold matchShorthand.
  rewrite (spanSegment_app o); [|done|right; simpl; eauto].
  rewrite Hto. simpl.
  rewrite <- (append_nil_r r) at 1.
  rewrite (spanSegment_app r); [|done|by left].
  by rewrite Htr.
Qed.

(** The shorthand has one slash, a match of the host pattern at least
    two. *)
Lemma matchUrl_shorthand (o r : string) :
  isSegment o = true -> isSegment r = true -> matchUrl (o +:+ "/" +:+ r) = None.
Proof.
  intros [_ Hso]%isSegment_inv [_ Hsr]%isSegment_inv.
  destruct (matchUrl (o +:+ "/" +:+ r)) as [[[o' r'] b]|] eqn:E; [|reflexivity].
  apply matchUrl_sound in E as (pre & rest & E & _ & _).
  apply (f_equal countSlashes) in E.
  rewrite !countSlashes_app in E.
  rewrite (countSlashes_slashFree o), (countSlashes_slashFree r) in E by done.
  simpl in E. lia.
Qed.








Lemma replaceGitSuffix_strip (x : string) : replaceGitSuffix (x +:+ ".git") = x.
Proof.
  unfold replaceGitSuffix. rewrite endsWith_app, length_append. simpl.
  replace (String.length x + 4 - 4)%nat with (String.length x) by lia.
  apply substring_prefix.
Qed.

End ParseRepoUrl.

Section ParseRepoUrlClaims.






(** C6 (amended).  [parseRepoUrl] returns no match exactly for the
    inputs in which [github.com/], a segment, a slash and a segment occur
    nowhere, and that are not two segments around one slash; every other
    input gives a [RepoInfo]. *)
Theorem parseRepoUrl_rejects_other_shapes (url : string) :
  parseRepoUrl url = None <-> ~ containsHostPattern url /\ ~ shorthandShape url.
Proof.
  unfold parseRepoUrl, matchPatterns. split.
  - intros H. split.
    + intros Hs. destruct (matchUrl_complete url Hs) as [[[o r] b] E].
      by rewrite E in H.
    + intros (o & r & -> & Ho & Hr).
      rewrite matchUrl_shorthand, matchShorthand_complete in H; done.
  - intros [Hu Hs].
    destruct (matchUrl url) as [[[o r] b]|] eqn:E1.
    { exfalso. apply Hu. apply matchUrl_sound in E1 as (pre & rest & E & Ho & Hr).
      by exists pre, o, r, rest. }
    destruct (matchShorthand url) as [[[o r] b]|] eqn:E2; [|reflexivity].
    exfalso. apply Hs. apply matchShorthand_sound in E2 as (E & Ho & Hr & _).
    by exists o, r.
Qed.

Lemma not_shorthand_many_slashes (s : string) :
  (1 < countSlashes s)%nat -> ~ shorthandShape s.
Proof.
  intros Hn (o & r & -> & [_ Hso]%isSegment_inv & [_ Hsr]%isSegment_inv).
  rewrite !countSlashes_app in Hn.
  rewrite (countSlashes_slashFree o), (countSlashes_slashFree r) in Hn by done.
  simpl in Hn. lia.
Qed.

(** C6 as stated fails: a URL of another host whose name ends in
    [github.com] is no full URL of the host and no shorthand, and it
    gives a [RepoInfo]. *)
Lemma parseRepoUrl_accepts_other_hosts :
  exists url,
    url = "https://notgithub.com/a/b"
    /\ ~ fullHostUrl url /\ ~ shorthandShape url
    /\ parseRepoUrl url = Some {| owner := "a"; repo := "b"; branch := "main" |}.
Proof.
  exists "https://notgithub.com/a/b". split; [reflexivity|]. split; [|split].
  - intros (pre & o & r & rest & E & Hpre & _).
    destruct Hpre as [<-|[<-|[<-|[<-|[]]]]]; discriminate E.
  - apply not_shorthand_many_slashes. vm_compute. lia.
  - reflexivity.
Qed.

(** So does a sentence that mentions a repository. *)
Example parseRepoUrl_accepts_prose :
  ~ fullHostUrl "see github.com/a/b for details"
  /\ ~ shorthandShape "see github.com/a/b for details"
  /\ parseRepoUrl "see github.com/a/b for details"
     = Some {| owner := "a"; repo := "b for details"; branch := "main" |}.
Proof.
  split; [|split].
  - intros (pre & o & r & rest & E & Hpre & _).
    destruct Hpre as [<-|[<-|[<-|[<-|[]]]]]; discriminate E.
  - apply not_shorthand_many_slashes. vm_compute. lia.
  - reflexivity.
Qed.

(** C10.  Whenever the reference is accepted, the [repo] field is the
    matched repository segment without its trailing [.git]: one suffix is
    removed, at the end only, and a segment that does not end in [.git] is
    returned as it is. *)
Theorem parseRepoUrl_strips_git_suffix (url o seg : string) (b : option string) :
  matchPatterns url = Some (o, seg, b) ->
  exists info,
    parseRepoUrl url = Some info
    /\ owner info = o
    /\ (forall x, seg = x +:+ ".git" -> repo info = x)
    /\ (endsWith seg ".git" = false -> repo info = seg).
Proof.
  intros H. unfold parseRepoUrl. rewrite H. eexists. split; [reflexivity|].
  simpl. split; [reflexivity|]. split.
  - intros x ->. apply replaceGitSuffix_strip.
  - intros He. unfold replaceGitSuffix. by rewrite He.
Qed.

Lemma parseRepoUrl_strips_git_suffix_witness :
  exists info,
    parseRepoUrl "acme/widgets.git.git" = Some info
    /\ owner info = "acme"
    /\ (forall x, "widgets.git.git" = x +:+ ".git" -> repo info = x)
    /\ (endsWith "widgets.git.git" ".git" = false -> repo info = "widgets.git.git").
Proof.
  apply (parseRepoUrl_strips_git_suffix "acme/widgets.git.git" "acme" "widgets.git.git" None).
  reflexivity.
Defined.

Example parseRepoUrl_git_examples :
  parseRepoUrl "acme/widgets.git"
  = Some {| owner := "acme"; repo := "widgets"; branch := "main" |}
  /\ parseRepoUrl "acme/widgets.git.git"
     = Some {| owner := "acme"; repo := "widgets.git"; branch := "main" |}
  /\ parseRepoUrl "https://github.com/acme/widgets.git/tree/dev"
     = Some {| owner := "acme"; repo := "widgets"; branch := "dev" |}
  /\ parseRepoUrl "acme/widgets.gitx"
     = Some {| owner := "acme"; repo := "widgets.gitx"; branch := "main" |}
  /\ parseRepoUrl "acme/.git/x" = None.
Proof. repeat split. Qed.

End ParseRepoUrlClaims.

(* ===================================================================== *)
(** * The inclusion filter *)
(* ===================================================================== *)

Section InclusionFilter.

Lemma shouldIncludeFile_denyList (p : string) :
  shouldIncludeFile p = true <-> ~ matchesDenyList p.
Proof.
  unfold shouldIncludeFile, matchesDenyList.
  rewrite negb_true_iff, <- not_true_iff_false, existsb_exists. reflexivity.
Qed.

(** C9 (where the code departs from it).  The basenames of the
    allow-list are on it and match no pattern of the deny-list, and
    [isTextFile] accepts none of them: the name is lower-cased before it
    is compared with the capitalised entries.  So a file with such a
    name is in no file list that the filter of [fetchRepository] builds;
    of a fetched tree with a [README] and a source file at the top, only
    the source file is listed. *)
Theorem fetchRepository_drops_listed_basenames :
  (forall n, In n listedBasenames ->
     In n textExtensions /\ onAllowList n /\ ~ matchesDenyList n
     /\ isTextFile n = false)
  /\ (forall entries f, In (name f) listedBasenames -> ~ In f (textFiles entries))
  /\ In readme (tree readmeTree)
  /\ type readme = file
  /\ files (fst (fetchRepository readmeFetched beforeFetch)) = [mainPy].
Proof.
  assert (forall n, In n listedBasenames -> isTextFile n = false) as Hrejected.
  { intros n [<-|[<-|[<-|[<-|[]]]]]; reflexivity. }
  split; [|split; [|split; [|split]]].
  - intros n Hn.
    assert (In n textExtensions) as Hlisted.
    { destruct Hn as [<-|[<-|[<-|[<-|[]]]]]; unfold textExtensions;
        repeat (first [left; reflexivity | right]). }
    split; [exact Hlisted|]. split; [|split; [|by apply Hrejected]].
    + exists n. split; [exact Hlisted|]. right.
      split; [|reflexivity]. by destruct Hn as [<-|[<-|[<-|[<-|[]]]]].
    + apply shouldIncludeFile_denyList.
      by destruct Hn as [<-|[<-|[<-|[<-|[]]]]].
  - intros entries f Hn Hin. unfold textFiles in Hin.
    apply filter_In in Hin as [_ Hin].
    apply andb_prop in Hin as [Hin _]. apply andb_prop in Hin as [_ Htext].
    rewrite (Hrejected _ Hn) in Htext. discriminate.
  - by left.
  - reflexivity.
  - reflexivity.
Qed.

(** The two tests on some names and paths.  The name is lower-cased
    before it is compared, so the capitalised entries of the allow-list
    accept no name; a dotted entry accepts a name that contains it
    anywhere; the patterns of the deny-list match anywhere in the path
    unless they are anchored. *)
Example isTextFile_examples :
  isTextFile "main.py" = true
  /\ isTextFile "README.md" = true
  /\ isTextFile "logo.png" = false
  /\ isTextFile "README" = false
  /\ isTextFile "Dockerfile" = false
  /\ isTextFile "cache.pyc" = true.
Proof. repeat split. Qed.

Example shouldIncludeFile_examples :
  shouldIncludeFile "src/main.py" = true
  /\ shouldIncludeFile "node_modules/i.js" = false
  /\ shouldIncludeFile "yarn.lock" = false
  /\ shouldIncludeFile "debug.log" = false
  /\ shouldIncludeFile "src/layout.tsx" = false
  /\ shouldIncludeFile "locks.ts" = true.
Proof. repeat split. Qed.

End InclusionFilter.

(* ===================================================================== *)
(** * Bundle generation *)
(* ===================================================================== *)

Section GenerateOutput.

Variable fetchFileContent : string -> string -> string -> string -> Settled string.
Variable now : string.
Variable nullReadMessage : string.

Lemma fetchedPaths_app (a b : list Event) :
  fetchedPaths (a ++ b) = fetchedPaths a ++ fetchedPaths b.
Proof.
  induction a as [|e a IH]; [reflexivity|].
  destruct e; simpl; rewrite ?IH; reflexivity.
Qed.

Lemma pacing_app (a b : list Event) : pacing (a ++ b) = pacing a ++ pacing b.
Proof.
  induction a as [|e a IH]; [reflexivity|].
  destruct e; simpl; rewrite ?IH; reflexivity.
Qed.

Lemma progressValues_app (a b : list Event) :
  progressValues (a ++ b) = progressValues a ++ progressValues b.
Proof.
  induction a as [|e a IH]; [reflexivity|].
  destruct e; simpl; rewrite ?IH; reflexivity.
Qed.

Lemma processFile_spec (r : RepoInfo) (totalFiles : nat) (acc : Loop) (f : GitHubFile) :
  processFile fetchFileContent r totalFiles acc f =
  mkLoop (output acc +:+ sectionOf fetchFileContent r f)
         (S (processedFiles acc))
         (events acc ++ fileEvents fetchFileContent r totalFiles (S (processedFiles acc)) f).
Proof.
  unfold processFile, sectionOf, fileEvents.
  destruct (fetchFileContent _ _ _ _) as [content|e].
  - f_equal. unfold contentSection, fencedBlock, sectionHeading.
    rewrite !append_assoc. reflexivity.
  - f_equal. unfold errorSection, sectionHeading.
    rewrite !append_assoc. reflexivity.
Qed.

Lemma loop_spec (r : RepoInfo) (totalFiles : nat) (selected : list GitHubFile) (acc : Loop) :
  fold_left (processFile fetchFileContent r totalFiles) selected acc =
  mkLoop (output acc +:+ sections fetchFileContent r selected)
         (processedFiles acc + length selected)
         (events acc ++ loopEvents fetchFileContent r totalFiles (processedFiles acc) selected).
Proof.
  revert acc. induction selected as [|f selected IH]; intros acc.
  - destruct acc as [o p e]. simpl.
    by rewrite append_nil_r, Nat.add_0_r, app_nil_r.
  - cbn [fold_left]. rewrite IH, processFile_spec. cbn [output processedFiles events].
    cbn [sections loopEvents length].
    rewrite append_assoc, <- app_assoc. f_equal. lia.
Qed.

Lemma sections_occurs (r : RepoInfo) (selected : list GitHubFile) (f : GitHubFile) :
  In f selected ->
  occursIn (sectionOf fetchFileContent r f) (sections fetchFileContent r selected).
Proof.
  induction selected as [|g selected IH]; [intros []|].
  intros [->|Hin].
  - exists EmptyString, (sections fetchFileContent r selected). reflexivity.
  - destruct (IH Hin) as (before & after & E).
    exists (sectionOf fetchFileContent r g +:+ before), after.
    cbn [sections]. by rewrite E, append_assoc.
Qed.

Lemma occursIn_app_l (s pre doc : string) : occursIn s doc -> occursIn s (pre +:+ doc).
Proof.
  intros (before & after & ->). exists (pre +:+ before), after.
  by rewrite append_assoc.
Qed.

Lemma fetchedPaths_fileEvents (r : RepoInfo) (totalFiles k : nat) (f : GitHubFile) :
  fetchedPaths (fileEvents fetchFileContent r totalFiles k f) = [path f].
Proof. unfold fileEvents. by destruct (fetchFileContent _ _ _ _). Qed.

Lemma fetchedPaths_loopEvents (r : RepoInfo) (totalFiles k : nat) (selected : list GitHubFile) :
  fetchedPaths (loopEvents fetchFileContent r totalFiles k selected) = map path selected.
Proof.
  revert k. induction selected as [|f selected IH]; intros k; [reflexivity|].
  cbn [loopEvents]. by rewrite fetchedPaths_app, fetchedPaths_fileEvents, IH.
Qed.

Lemma selection_nonempty (st : AppState) :
  selectedFiles st <> ∅ -> Nat.eqb (size (selectedFiles st)) 0 = false.
Proof.
  intros H. apply Nat.eqb_neq. intros Hs. apply H.
  apply leibniz_equiv. by apply size_empty_inv.
Qed.

(** The run of [generateOutput] on a non-empty selection, with the
    repository known. *)
Lemma generateOutput_run (st : AppState) (r : RepoInfo) :
  selectedFiles st <> ∅ -> repoInfo st = Some r ->
  let selected := selectedFilesList st in
  let doc := header now r (length selected) +:+ sections fetchFileContent r selected in
  snd (generateOutput fetchFileContent now nullReadMessage st) =
    [ESetLoading true; ESetProgress (inject_Z 0)]
    ++ loopEvents fetchFileContent r (length selected) 0 selected
    ++ [ESetResult doc;
        EToast (successToast
          ("Generated text from " +:+ numberToString (length selected) +:+ " files"));
        ESetLoading false; ESetProgress (inject_Z 0)]
  /\ result (fst (generateOutput fetchFileContent now nullReadMessage st)) = doc.
Proof.
  intros Hsel Hrepo selected doc.
  unfold generateOutput. rewrite (selection_nonempty st Hsel), Hrepo.
  fold selected. rewrite loop_spec. cbn [output processedFiles events].
  fold doc. unfold run. cbn [fst snd]. split.
  - rewrite <- !app_assoc. reflexivity.
  - rewrite !fold_left_app. reflexivity.
Qed.

(** C4.  With an empty selection [generateOutput] only reports the error:
    the state, and so the previous result, is unchanged, no document is
    set and the content collaborator is not called. *)
Theorem generateOutput_empty_selection (st : AppState) :
  selectedFiles st = ∅ ->
  generateOutput fetchFileContent now nullReadMessage st
    = (st, [EToast (errorToast "Please select at least one file")])
  /\ result (fst (generateOutput fetchFileContent now nullReadMessage st)) = result st
  /\ fetchedPaths (snd (generateOutput fetchFileContent now nullReadMessage st)) = []
  /\ (forall doc,
        ~ In (ESetResult doc) (snd (generateOutput fetchFileContent now nullReadMessage st))).
Proof.
  intros Hsel.
  assert (generateOutput fetchFileContent now nullReadMessage st
          = (st, [EToast (errorToast "Please select at least one file")])) as E.
  { unfold generateOutput. rewrite Hsel, size_empty. reflexivity. }
  rewrite E. repeat split. intros doc [H|[]]. discriminate.
Qed.

(** C2.  On a non-empty selection (the repository being known) the
    document is the header followed by one section per selected file, in
    the order of the file list: a file whose fetch failed has its heading
    and the error message, and the files after it are fetched and have
    their sections too.  Every selected file is attempted, and the count
    reported is their number. *)
Theorem generateOutput_isolates_fetch_failures (st : AppState) (r : RepoInfo) :
  selectedFiles st <> ∅ -> repoInfo st = Some r ->
  let selected := selectedFilesList st in
  let out := generateOutput fetchFileContent now nullReadMessage st in
  result (fst out) = header now r (length selected) +:+ sections fetchFileContent r selected
  /\ In (ESetResult (result (fst out))) (snd out)
  /\ (forall f e,
        In f selected ->
        fetchFileContent (owner r) (repo r) (path f) (branch r) = Rejected e ->
        occursIn (errorSection f e) (result (fst out)))
  /\ (forall f content,
        In f selected ->
        fetchFileContent (owner r) (repo r) (path f) (branch r) = Fulfilled content ->
        occursIn (contentSection f content) (result (fst out)))
  /\ fetchedPaths (snd out) = map path selected
  /\ In (EToast (successToast
           ("Generated text from " +:+ numberToString (length selected) +:+ " files")))
        (snd out).
Proof.
  intros Hsel Hrepo selected out.
  destruct (generateOutput_run st r Hsel Hrepo) as [Hev Hres].
  fold selected in Hev, Hres. subst out. rewrite Hres, Hev.
  split; [reflexivity|]. split.
  { apply in_or_app. right. apply in_or_app. right. by left. }
  split; [|split; [|split]].
  - intros f e Hin Hf. apply occursIn_app_l.
    pose proof (sections_occurs r selected f Hin) as H.
    unfold sectionOf in H at 1. by rewrite Hf in H.
  - intros f c Hin Hf. apply occursIn_app_l.
    pose proof (sections_occurs r selected f Hin) as H.
    unfold sectionOf in H at 1. by rewrite Hf in H.
  - rewrite !fetchedPaths_app, fetchedPaths_loopEvents. cbn. by rewrite app_nil_r.
  - apply in_or_app. right. apply in_or_app. right. right. by left.
Qed.

End GenerateOutput.

Section BundleScenarios.

Example fetchRepository_sample :
  files (fst (fetchRepository treeFetched beforeFetch)) = [aTs].
Proof. reflexivity. Qed.

Lemma generateOutput_empty_selection_witness :
  generateOutput failingFirst "T" "null" noneSelected
    = (noneSelected, [EToast (errorToast "Please select at least one file")])
  /\ result (fst (generateOutput failingFirst "T" "null" noneSelected))
     = result noneSelected
  /\ fetchedPaths (snd (generateOutput failingFirst "T" "null" noneSelected)) = []
  /\ (forall doc,
        ~ In (ESetResult doc) (snd (generateOutput failingFirst "T" "null" noneSelected))).
Proof.
  apply (generateOutput_empty_selection failingFirst "T" "null" noneSelected).
  reflexivity.
Defined.

Lemma twoSelected_nonempty : selectedFiles twoSelected <> ∅.
Proof. intros H. apply (f_equal size) in H. vm_compute in H. discriminate. Qed.

(** Two selected files, the fetch of the first fails: the document has
    the sections of both, and two files are reported. *)
Lemma generateOutput_isolates_fetch_failures_witness :
  occursIn (errorSection aTs notFound)
           (result (fst (generateOutput failingFirst "T" "null" twoSelected)))
  /\ occursIn (contentSection xPy "print(1)")
              (result (fst (generateOutput failingFirst "T" "null" twoSelected)))
  /\ fetchedPaths (snd (generateOutput failingFirst "T" "null" twoSelected))
     = ["src/a.ts"; "x.py"]
  /\ In (EToast (successToast "Generated text from 2 files"))
        (snd (generateOutput failingFirst "T" "null" twoSelected)).
Proof.
  destruct (generateOutput_isolates_fetch_failures failingFirst "T" "null"
              twoSelected acme twoSelected_nonempty eq_refl)
    as (_ & _ & Hfail & Hok & Hpaths & Hcount).
  split; [|split; [|split]].
  - apply Hfail; [by left | reflexivity].
  - apply Hok; [right; by left | reflexivity].
  - exact Hpaths.
  - exact Hcount.
Defined.

End BundleScenarios.

Section FenceTags.

Lemma extMap_values_truthy (ext tag : string) :
  ownProperty extMap ext = Some tag -> truthy tag = true.
Proof.
  unfold extMap. cbn [ownProperty].
  repeat (destruct (string_dec _ ext); [intros [= <-]; reflexivity|]).
  discriminate.
Qed.

Lemma extMap_keys_truthy (ext tag : string) :
  ownProperty extMap ext = Some tag -> truthy ext = true.
Proof. destruct ext; [discriminate | reflexivity]. Qed.

(** The tag of a name whose lower-cased last dot-separated part is a key
    of the table: the mapped identifier. *)
Lemma getFileExtension_mapped (filename tag : string) :
  ownProperty extMap (toLowerCase (List.last (split "." filename) EmptyString)) = Some tag ->
  getFileExtension filename = JsString tag.
Proof.
  intros H. unfold getFileExtension, extMapGet.
  rewrite (extMap_keys_truthy _ _ H), H. cbn [truthyValue].
  by rewrite (extMap_values_truthy _ _ H).
Qed.

(** The tag of a name whose last part is no key of the table and none of
    the two inherited lower-case property names: that part, lower-cased. *)
Lemma getFileExtension_unmapped (filename : string) :
  let ext := toLowerCase (List.last (split "." filename) EmptyString) in
  ownProperty extMap ext = None ->
  ext <> "constructor" -> ext <> "__proto__" ->
  getFileExtension filename = JsString ext.
Proof.
  intros ext H Hc Hp. unfold getFileExtension, extMapGet. fold ext. rewrite H.
  destruct (string_dec ext "constructor"); [done|].
  destruct (string_dec ext "__proto__"); [done|].
  by destruct ext.
Qed.

(** The fence is untagged exactly when the name ends with a dot or is
    empty: the last part is what is looked at, whether or not the name
    has a dot. *)
Lemma getFileExtension_untagged_iff (filename : string) :
  toStringValue (getFileExtension filename) = EmptyString
  <-> List.last (split "." filename) EmptyString = EmptyString.
Proof.
  unfold getFileExtension.
  destruct (List.last (split "." filename) EmptyString) as [|c s] eqn:E.
  - by split.
  - cbn [toLowerCase truthy]. split; [|discriminate].
    unfold extMapGet.
    destruct (ownProperty extMap _) as [tag|] eqn:Hown.
    + cbn [truthyValue]. rewrite (extMap_values_truthy _ _ Hown).
      pose proof (extMap_values_truthy _ _ Hown). cbn [toStringValue].
      intros ->. discriminate.
    + destruct (string_dec _ "constructor"); [discriminate|].
      destruct (string_dec _ "__proto__"); discriminate.
Qed.

(** The selection [{"x.py"}] with the fetched content [print(1)]: the
    document has the heading [x.py] and a fence tagged [python] around
    the content. *)
Example generateOutput_python_fence :
  occursIn (sectionHeading xPy +:+ fencedBlock "python" "print(1)")
           (result (fst (generateOutput failingFirst "T" "null" onlyPy))).
Proof.
  exists (header "T" acme 1), EmptyString. vm_compute. reflexivity.
Qed.

(** C3 (where the code departs from it).  A name without a dot is its
    own last part: [Makefile] is tagged [makefile], and [conf], a name
    the filter of [fetchRepository] lets through, gets a fence tagged
    [conf] in the document. *)
Theorem getFileExtension_tags_names_without_extension :
  getFileExtension "Makefile" = JsString "makefile"
  /\ getFileExtension "conf" = JsString "conf"
  /\ files confSelected = [confFile]
  /\ result (fst (generateOutput (alwaysFulfilled "port=1") "T" "null" confSelected))
     = header "T" acme 1 +:+ sectionHeading confFile +:+ fencedBlock "conf" "port=1".
Proof. repeat split; vm_compute; reflexivity. Qed.

(** A last part that is an inherited property name of the table is not
    tagged by itself either. *)
Example getFileExtension_inherited_property :
  getFileExtension "x.constructor" = ObjectConstructor
  /\ isTextFile "x.constructor" = true
  /\ shouldIncludeFile "x.constructor" = true.
Proof. repeat split. Qed.

End FenceTags.

Section Pacing.

Variable fetchFileContent : string -> string -> string -> string -> Settled string.
Variable now : string.
Variable nullReadMessage : string.

(** After a fetched file the loop waits; after a failed one it does
    not. *)
Lemma pacing_fileEvents (r : RepoInfo) (totalFiles k : nat) (f : GitHubFile) :
  pacing (fileEvents fetchFileContent r totalFiles k f) =
  match fetchFileContent (owner r) (repo r) (path f) (branch r) with
  | Fulfilled _ => [EFetchContent (owner r) (repo r) (path f) (branch r); EDelay 100]
  | Rejected _ => [EFetchContent (owner r) (repo r) (path f) (branch r)]
  end.
Proof. unfold fileEvents. by destruct (fetchFileContent _ _ _ _). Qed.

Lemma progressValues_fileEvents (r : RepoInfo) (totalFiles k : nat) (f : GitHubFile) :
  progressValues (fileEvents fetchFileContent r totalFiles k f) = [percent k totalFiles].
Proof. unfold fileEvents. by destruct (fetchFileContent _ _ _ _). Qed.

Lemma progressValues_loopEvents (r : RepoInfo) (totalFiles k : nat)
    (selected : list GitHubFile) :
  progressValues (loopEvents fetchFileContent r totalFiles k selected)
  = map (fun i => percent i totalFiles) (seq (S k) (length selected)).
Proof.
  revert k. induction selected as [|f selected IH]; intros k; [reflexivity|].
  cbn [loopEvents length seq map].
  by rewrite progressValues_app, progressValues_fileEvents, IH.
Qed.

(** The counter is set to [k / totalFiles * 100] after the [k]-th file,
    whatever the outcome of its fetch, between the reset at the start and
    the reset at the end. *)
Lemma generateOutput_progress (st : AppState) (r : RepoInfo) :
  selectedFiles st <> ∅ -> repoInfo st = Some r ->
  let n := length (selectedFilesList st) in
  progressValues (snd (generateOutput fetchFileContent now nullReadMessage st))
  = [inject_Z 0] ++ map (fun k => percent k n) (seq 1 n) ++ [inject_Z 0].
Proof.
  intros Hsel Hrepo n.
  destruct (generateOutput_run fetchFileContent now nullReadMessage st r Hsel Hrepo)
    as [-> _].
  rewrite !progressValues_app, progressValues_loopEvents. reflexivity.
Qed.

End Pacing.

Section PacingScenario.

(** C7 (where the code departs from it).  With two selected files of
    which the first fails to fetch, the second fetch follows the failed
    one with no delay in between; the only delay is the one after the
    fetched file. *)
Theorem generateOutput_no_delay_after_failure :
  pacing (snd (generateOutput failingFirst "T" "null" twoSelected))
  = [ EFetchContent "acme" "widgets" "src/a.ts" "main";
      EFetchContent "acme" "widgets" "x.py" "main";
      EDelay 100 ].
Proof. vm_compute. reflexivity. Qed.

End PacingScenario.

(* ===================================================================== *)
(** * The sort of buildTree *)
(* ===================================================================== *)

Section SortByPath.

Variable localeCompare : string -> string -> Z.

Lemma insertByPath_perm (x : GitHubFile) (l : list GitHubFile) :
  insertByPath localeCompare x l ≡ₚ x :: l.
Proof.
  induction l as [|y l IH]; simpl; [done|].
  destruct (localeCompare (path x) (path y) <=? 0)%Z; [done|].
  rewrite IH. apply Permutation_swap.
Qed.

Lemma sortByPath_perm (l : list GitHubFile) : sortByPath localeCompare l ≡ₚ l.
Proof.
  induction l as [|x l IH]; simpl; [done|].
  by rewrite insertByPath_perm, IH.
Qed.

Lemma sortByPath_In (l : list GitHubFile) (f : GitHubFile) :
  In f (sortByPath localeCompare l) <-> In f l.
Proof.
  rewrite <- !list_elem_of_In. by rewrite sortByPath_perm.
Qed.

(** An input in which every entry may stay before the next one is left
    as it is. *)
Lemma sortByPath_sorted_id (l : list GitHubFile) :
  Sorted (pathLe localeCompare) l -> sortByPath localeCompare l = l.
Proof.
  induction 1 as [|x l Hs IH Hhd]; [reflexivity|].
  simpl. fold (sortByPath localeCompare l). rewrite IH.
  destruct Hhd as [|y l' Hxy]; [reflexivity|].
  simpl. unfold pathLe in Hxy. apply Z.leb_le in Hxy. by rewrite Hxy.
Qed.

(** What the sort uses of a consistent comparator. *)
Lemma consistent_total (a b : string) :
  consistentComparator localeCompare ->
  (localeCompare a b <= 0)%Z \/ (localeCompare b a <= 0)%Z.
Proof.
  intros (Hrefl & _ & _ & _ & Hgt).
  destruct (Z_le_gt_dec (localeCompare a b) 0%Z) as [H|H]; [by left|].
  destruct (Z_le_gt_dec (localeCompare b a) 0%Z) as [H'|H']; [by right|].
  pose proof (Hgt a b a H H'). rewrite Hrefl in *. lia.
Qed.

(** Before one way is after the other way. *)
Lemma consistent_flip (a b : string) :
  consistentComparator localeCompare ->
  (localeCompare a b < 0)%Z -> (localeCompare b a > 0)%Z.
Proof.
  intros (Hrefl & Hsym & _ & Hlt & _) H.
  destruct (Z.lt_trichotomy (localeCompare b a) 0%Z) as [H'|[H'|H']]; [| |lia].
  - pose proof (Hlt a b a H H'). rewrite Hrefl in *. lia.
  - apply Hsym in H'. lia.
Qed.

Lemma consistent_flip_gt (a b : string) :
  consistentComparator localeCompare ->
  (localeCompare a b > 0)%Z -> (localeCompare b a < 0)%Z.
Proof.
  intros (Hrefl & Hsym & _ & _ & Hgt) H.
  destruct (Z.lt_trichotomy (localeCompare b a) 0%Z) as [H'|[H'|H']]; [done| |].
  - apply Hsym in H'. lia.
  - pose proof (Hgt a b a H ltac:(lia)). rewrite Hrefl in *. lia.
Qed.

Lemma consistent_trans (a b c : string) :
  consistentComparator localeCompare ->
  (localeCompare a b <= 0)%Z -> (localeCompare b c <= 0)%Z ->
  (localeCompare a c <= 0)%Z.
Proof.
  intros Hc Hab Hbc. pose proof Hc as (Hrefl & Hsym & Htr & Hlt & Hgt).
  destruct (Z_le_gt_dec (localeCompare a c) 0%Z) as [H|H]; [done|]. exfalso.
  (* c is before a *)
  pose proof (consistent_flip_gt a c Hc H) as Hca.
  destruct (Z.eq_dec (localeCompare a b) 0%Z) as [Eab|Nab];
    destruct (Z.eq_dec (localeCompare b c) 0%Z) as [Ebc|Nbc].
  - pose proof (Htr a b c Eab Ebc). lia.
  - (* a = b, b < c, c < a: b < a *)
    pose proof (Hlt b c a ltac:(lia) Hca) as Hba. apply Hsym in Eab. lia.
  - (* a < b, b = c, c < a: c < b *)
    pose proof (Hlt c a b Hca ltac:(lia)) as Hcb. apply Hsym in Ebc. lia.
  - pose proof (Hlt a b c ltac:(lia) ltac:(lia)). lia.
Qed.

(** Each before the other: a tie. *)
Lemma consistent_tie (a b : string) :
  consistentComparator localeCompare ->
  (localeCompare a b <= 0)%Z -> (localeCompare b a <= 0)%Z ->
  localeCompare a b = 0%Z.
Proof.
  intros Hc Hab Hba.
  destruct (Z.eq_dec (localeCompare a b) 0%Z) as [E|N]; [done|].
  pose proof (consistent_flip a b Hc ltac:(lia)). lia.
Qed.

(** What the sort needs of the comparison function to put a list in
    order. *)
Hypothesis Htotal :
  forall a b, (localeCompare a b <= 0)%Z \/ (localeCompare b a <= 0)%Z.
Hypothesis Htrans :
  forall a b c, (localeCompare a b <= 0)%Z -> (localeCompare b c <= 0)%Z ->
    (localeCompare a c <= 0)%Z.

Lemma insertByPath_sorted (x : GitHubFile) (l : list GitHubFile) :
  StronglySorted (pathLe localeCompare) l ->
  StronglySorted (pathLe localeCompare) (insertByPath localeCompare x l).
Proof.
  induction 1 as [|y l Hs IH Hy]; simpl.
  - repeat constructor.
  - destruct (localeCompare (path x) (path y) <=? 0)%Z eqn:E.
    + apply Z.leb_le in E. constructor; [by constructor|].
      constructor; [exact E|].
      eapply Forall_impl; [exact Hy|]. intros z Hz. unfold pathLe in *. eauto.
    + apply Z.leb_gt in E. constructor; [exact IH|].
      rewrite insertByPath_perm. constructor; [|exact Hy].
      unfold pathLe. destruct (Htotal (path x) (path y)); [lia | done].
Qed.

Lemma sortByPath_sorted (l : list GitHubFile) :
  StronglySorted (pathLe localeCompare) (sortByPath localeCompare l).
Proof.
  induction l as [|x l IH]; simpl; [constructor|].
  by apply insertByPath_sorted.
Qed.

Lemma same_path_same_entry (l : list GitHubFile) (a b : GitHubFile) :
  NoDup (map path l) -> In a l -> In b l -> path a = path b -> a = b.
Proof.
  induction l as [|x l IH]; [intros _ []|].
  simpl. intros Hnd [->|Ha] [->|Hb] E; inversion Hnd as [|? ? Hnotin Hnd']; subst.
  - reflexivity.
  - exfalso. apply Hnotin. rewrite E. apply list_elem_of_In, in_map, Hb.
  - exfalso. apply Hnotin. rewrite <- E. apply list_elem_of_In, in_map, Ha.
  - by apply IH.
Qed.

(** Two sorted arrangements of entries with distinct paths, no two of
    them each before the other, are the same list. *)
Lemma sorted_unique (l1 l2 : list GitHubFile) :
  NoDup (map path l1) ->
  (forall f g, In f l1 -> In g l1 -> pathLe localeCompare f g ->
     pathLe localeCompare g f -> path f = path g) ->
  l1 ≡ₚ l2 ->
  StronglySorted (pathLe localeCompare) l1 ->
  StronglySorted (pathLe localeCompare) l2 ->
  l1 = l2.
Proof.
  revert l2. induction l1 as [|a l1 IH]; intros l2 Hnd Hties Hp Hs1 Hs2.
  - by apply Permutation_nil_l in Hp.
  - destruct l2 as [|b l2]; [by apply Permutation_nil_r in Hp|].
    apply StronglySorted_inv in Hs1 as [Hs1 Ha].
    apply StronglySorted_inv in Hs2 as [Hs2 Hb].
    assert (a = b) as ->.
    { assert (In a (b :: l2)) as Hain.
      { apply list_elem_of_In. rewrite <- Hp. by left. }
      assert (In b (a :: l1)) as Hbin.
      { apply list_elem_of_In. rewrite Hp. by left. }
      destruct Hain as [->|Hain]; [reflexivity|].
      destruct Hbin as [->|Hbin]; [reflexivity|].
      apply (same_path_same_entry (a :: l1)); [done|by left|by right|].
      apply Hties; [by left | by right | |].
      - rewrite Forall_forall in Ha. apply Ha, list_elem_of_In, Hbin.
      - rewrite Forall_forall in Hb. apply Hb, list_elem_of_In, Hain. }
    f_equal. apply IH; [by inversion Hnd | | by apply Permutation_cons_inv in Hp | done..].
    intros f g Hf Hg. apply Hties; by right.
Qed.

Lemma sortByPath_permutation_invariant (l1 l2 : list GitHubFile) :
  NoDup (map path l1) ->
  (forall f g, In f l1 -> In g l1 -> pathLe localeCompare f g ->
     pathLe localeCompare g f -> path f = path g) ->
  l2 ≡ₚ l1 ->
  sortByPath localeCompare l2 = sortByPath localeCompare l1.
Proof.
  intros Hnd Hties Hp. apply sorted_unique.
  - by rewrite sortByPath_perm, Hp.
  - intros f g Hf Hg. apply Hties.
    + apply (proj1 (sortByPath_In _ _)) in Hf. apply list_elem_of_In. rewrite <- Hp.
      by apply list_elem_of_In.
    + apply (proj1 (sortByPath_In _ _)) in Hg. apply list_elem_of_In. rewrite <- Hp.
      by apply list_elem_of_In.
  - by rewrite !sortByPath_perm.
  - apply sortByPath_sorted.
  - apply sortByPath_sorted.
Qed.

End SortByPath.

Section CodeCompare.

Lemma codeCompare_le (a b : string) : (codeCompare a b <= 0)%Z <-> String.le a b.
Proof.
  unfold codeCompare, String.le, String.leb.
  destruct (a ?= b)%string; simpl; split; intros H; try done; lia.
Qed.

Lemma codeCompare_total_order : totalOrderComparator codeCompare.
Proof.
  split; [|split].
  - intros a b. rewrite !codeCompare_le. apply total, _.
  - intros a b c. rewrite !codeCompare_le. apply transitivity.
  - intros a b. rewrite !codeCompare_le. apply (anti_symm String.le).
Qed.

(** A total order with the values of [codeCompare] is a consistent
    comparator without ties, and so is its composition with a function on
    the strings, with the ties of the function. *)
Lemma codeCompare_eq (a b : string) : codeCompare a b = 0%Z <-> a = b.
Proof.
  unfold codeCompare. destruct (a ?= b)%string eqn:E; split; intros H.
  - by apply String.compare_eq_iff.
  - reflexivity.
  - lia.
  - subst b. pose proof (String.compare_antisym a a) as Ha.
    rewrite E in Ha. discriminate.
  - lia.
  - subst b. pose proof (String.compare_antisym a a) as Ha.
    rewrite E in Ha. discriminate.
Qed.

Lemma codeCompare_flip (a b : string) : codeCompare b a = (- codeCompare a b)%Z.
Proof.
  unfold codeCompare. rewrite (String.compare_antisym a b).
  by destruct (b ?= a)%string.
Qed.

Lemma codeCompare_lt_trans (a b c : string) :
  (codeCompare a b < 0)%Z -> (codeCompare b c < 0)%Z -> (codeCompare a c < 0)%Z.
Proof.
  intros Hab Hbc. destruct codeCompare_total_order as (_ & Htrans & Hanti).
  pose proof (Htrans a b c ltac:(lia) ltac:(lia)) as Hac.
  destruct (Z.eq_dec (codeCompare a c) 0%Z) as [E|N]; [|lia].
  apply codeCompare_eq in E as ->.
  pose proof (Hanti c b ltac:(lia) ltac:(lia)) as ->.
  pose proof (proj2 (codeCompare_eq b b) eq_refl). lia.
Qed.

Lemma composed_consistent (f : string -> string) :
  consistentComparator (fun a b => codeCompare (f a) (f b)).
Proof.
  split; [|split; [|split; [|split]]].
  - intros a. by apply codeCompare_eq.
  - intros a b E. apply codeCompare_eq in E. by apply codeCompare_eq.
  - intros a b c E1 E2. apply codeCompare_eq in E1, E2. apply codeCompare_eq. congruence.
  - intros a b c. apply codeCompare_lt_trans.
  - intros a b c Hab Hbc.
    rewrite (codeCompare_flip (f c) (f a)).
    pose proof (codeCompare_lt_trans (f c) (f b) (f a)) as H.
    rewrite (codeCompare_flip (f a) (f b)), (codeCompare_flip (f b) (f c)) in H. lia.
Qed.

Lemma caseBlindCompare_consistent : consistentComparator caseBlindCompare.
Proof. apply (composed_consistent toLowerCase). Qed.

Lemma codeCompare_consistent : consistentComparator codeCompare.
Proof. apply (composed_consistent (fun s => s)). Qed.

Lemma codeCompare_noTies (entries : list GitHubFile) : noTies codeCompare entries.
Proof. intros f g _ _ E. by apply codeCompare_eq. Qed.

End CodeCompare.

(* ===================================================================== *)
(** * Paths and their prefixes *)
(* ===================================================================== *)

Section PathFacts.

Lemma split_not_nil (sep : ascii) (s : string) : split sep s <> [].
Proof.
  destruct s as [|c s]; simpl; [done|].
  destruct (ascii_dec c sep); [done|]. by destruct (split sep s).
Qed.

Lemma join_split (s : string) : join "/" (split "/" s) = s.
Proof.
  induction s as [|c s IH]; [reflexivity|].
  cbn [split]. destruct (ascii_dec c "/") as [->|Hc].
  - pose proof (split_not_nil "/" s) as Hne.
    destruct (split "/" s) as [|h t]; [done|].
    cbn [join]. cbn [join] in IH. by rewrite IH.
  - pose proof (split_not_nil "/" s) as Hne.
    destruct (split "/" s) as [|h t]; [done|].
    destruct t as [|h' t].
    + cbn [join] in *. by rewrite IH.
    + cbn [join] in *. rewrite <- IH. reflexivity.
Qed.

Lemma join_snoc (sep : string) (l : list string) (x : string) :
  l <> [] -> join sep (l ++ [x]) = join sep l +:+ sep +:+ x.
Proof.
  induction l as [|a l IH]; [done|]. intros _.
  destruct l as [|b l]; [reflexivity|].
  change (join sep ((a :: b :: l) ++ [x]))
    with (a +:+ sep +:+ join sep ((b :: l) ++ [x])).
  rewrite IH by done. cbn [join]. by rewrite !append_assoc.
Qed.

Lemma prefixPath_0 (parts : list string) : prefixPath parts 0 = EmptyString.
Proof. reflexivity. Qed.

Lemma prefixPath_1 (parts : list string) (part : string) :
  parts !! 0%nat = Some part -> prefixPath parts 1 = part.
Proof. destruct parts; [done|]. intros [= ->]. reflexivity. Qed.

Lemma prefixPath_S (parts : list string) (i : nat) (part : string) :
  parts !! i = Some part -> (0 < i)%nat ->
  prefixPath parts (S i) = prefixPath parts i +:+ "/" +:+ part.
Proof.
  intros Hp Hi. unfold prefixPath. rewrite (take_S_r _ _ _ Hp).
  apply join_snoc. destruct parts; [done|]. destruct i; [lia | done].
Qed.

Lemma prefixPath_truthy (parts : list string) (i : nat) :
  truthy (hd EmptyString parts) = true -> (0 < i)%nat ->
  truthy (prefixPath parts i) = true.
Proof.
  intros Hh Hi. destruct parts as [|h parts]; [done|].
  destruct i; [lia|]. unfold prefixPath. cbn [take hd] in *.
  destruct h; [done|]. cbn [join]. by destruct (take i parts).
Qed.

Lemma prefixPath_full (f : GitHubFile) :
  prefixPath (segments f) (length (segments f)) = path f.
Proof. unfold prefixPath, segments. rewrite firstn_all. apply join_split. Qed.

Lemma segments_length (f : GitHubFile) : (0 < length (segments f))%nat.
Proof.
  unfold segments. pose proof (split_not_nil "/" (path f)).
  destruct (split "/" (path f)); [done | simpl; lia].
Qed.

(** The next value of [currentPath], for a path that starts with a
    non-empty segment. *)
Lemma nextPath_prefixPath (parts : list string) (index : nat) (part : string) :
  truthy (hd EmptyString parts) = true ->
  parts !! index = Some part ->
  nextPath (prefixPath parts index) part = prefixPath parts (S index).
Proof.
  intros Hh Hp. unfold nextPath. destruct index as [|index].
  - by rewrite prefixPath_0, (prefixPath_1 _ _ Hp).
  - rewrite prefixPath_truthy by (done || lia).
    by rewrite (prefixPath_S _ _ _ Hp) by lia.
Qed.

End PathFacts.

(* ===================================================================== *)
(** * The nodes of the tree *)
(* ===================================================================== *)

Section Reachability.

(** Nodes stay in the tree when [root] and the [children] arrays only
    grow. *)
Lemma inTree_mono (t t' : Tree) :
  (forall k, In k (root t) -> In k (root t')) ->
  (forall k n, nodeMap t !! k = Some n ->
     exists n', nodeMap t' !! k = Some n' /\ forall c, In c (children n) -> In c (children n')) ->
  forall k, inTree t k -> inTree t' k.
Proof.
  intros Hroot Hnodes k H. induction H as [k Hk|p n k Hp IH Hn Hk].
  - apply inTree_root. by apply Hroot.
  - destruct (Hnodes _ _ Hn) as (n' & Hn' & Hc).
    eapply inTree_child; [exact IH | exact Hn' | by apply Hc].
Qed.

(** A path that is registered is not registered again: the tree is left
    as it is, whatever the entry that brings the path a second time. *)
Lemma visitPart_registered (f : GitHubFile) (parts : list string) (index : nat)
    (part previousPath : string) (t : Tree) (n : TreeNode) :
  nodeMap t !! nextPath previousPath part = Some n ->
  visitPart f parts index part (t, previousPath) = (t, nextPath previousPath part).
Proof. intros H. unfold visitPart. by rewrite H. Qed.

End Reachability.

(* ===================================================================== *)
(** * The invariants of buildTree *)
(* ===================================================================== *)

Section BuildTreeInvariant.

Variable all : list GitHubFile.
Hypothesis Hprefix : noFileAsDirectory all.
Hypothesis Hrel : relativePaths all.

Section Entry.

Variable processed : list GitHubFile.
Variable g : GitHubFile.
Hypothesis Hg : In g all.
Hypothesis Hprocessed : forall f, In f processed -> In f all.
Hypothesis Hfresh : forall f, In f processed -> path f <> path g.

Lemma seen_in_all (f : GitHubFile) : In f (processed ++ [g]) -> In f all.
Proof.
  intros H. apply in_app_or in H as [H|[<-|[]]]; auto.
Qed.

(** The node of the file entry [g] is not registered before its last
    part is visited. *)
Lemma last_key_absent (index : nat) (t : Tree) :
  fileInv processed g index t ->
  S index = length (segments g) -> type g = file ->
  nodeMap t !! path g = None.
Proof.
  intros (Hwf & Hcov & Hprov & Hpart & _) Hlast Hty.
  destruct (nodeMap t !! path g) as [n|] eqn:E; [|done]. exfalso.
  destruct (Hprov (path g)) as [(g' & i & Hin & Hi & Hk)|(i & Hi & Hk)]; [eauto|..].
  - destruct (decide (i = length (segments g'))) as [->|Hne].
    + rewrite prefixPath_full in Hk. by apply (Hfresh g').
    + apply (Hprefix g g' i); auto. lia.
  - apply (Hprefix g g i); auto. lia.
Qed.

(** The node of a proper prefix of [g] is a directory node. *)
Lemma parent_is_dir (index : nat) (t : Tree) (p : TreeNode) :
  fileInv processed g index t ->
  (0 < index < length (segments g))%nat ->
  nodeMap t !! prefixPath (segments g) index = Some p ->
  node_type p = dir.
Proof.
  intros ((_ & _ & Hfile & _) & _) Hidx Hp.
  destruct (node_type p) eqn:Ht; [|done]. exfalso.
  destruct (Hfile _ _ Hp Ht) as (_ & f & Hin & Hf & Hpath & _).
  apply (Hprefix f g index); auto using seen_in_all.
Qed.

Lemma newNode_file (index : nat) (part : string) :
  (index < length (segments g))%nat ->
  node_type (newNode g index part) = file ->
  S index = length (segments g) /\ type g = file
  /\ node_file (newNode g index part) = Some g.
Proof.
  intros Hlt. unfold newNode. cbn [node_type node_file].
  destruct (Nat.eqb_spec index (length (segments g) - 1)) as [E|E]; [|done].
  destruct (bool_decide_reflect (type g = file)) as [Ht|Ht]; [|done].
  intros _. split; [lia | done].
Qed.

Lemma newNode_dir (index : nat) (part : string) :
  node_type (newNode g index part) = dir -> node_file (newNode g index part) = None.
Proof.
  unfold newNode. cbn [node_type node_file].
  by destruct (_ && _).
Qed.

Lemma newNode_last (index : nat) (part : string) :
  S index = length (segments g) -> type g = file ->
  node_type (newNode g index part) = file /\ node_file (newNode g index part) = Some g.
Proof.
  intros Hlast Ht. unfold newNode. cbn [node_type node_file].
  replace (length (segments g) - 1)%nat with index by lia.
  rewrite Nat.eqb_refl, bool_decide_eq_true_2 by done. done.
Qed.

(** Registering the fresh node of the part at [index], other nodes
    keeping what they are and gaining children at most, and directory
    nodes only. *)
Lemma fileInv_extend (index : nat) (part : string) (t t' : Tree) :
  fileInv processed g index t ->
  (index < length (segments g))%nat ->
  nodeMap t !! prefixPath (segments g) (S index) = None ->
  (forall k' n', nodeMap t' !! k' = Some n' ->
     (k' = prefixPath (segments g) (S index) /\ n' = newNode g index part)
     \/ (exists n, nodeMap t !! k' = Some n
                  /\ node_path n' = node_path n /\ node_type n' = node_type n
                  /\ node_file n' = node_file n
                  /\ (node_type n = file -> n' = n))) ->
  (forall k' n, nodeMap t !! k' = Some n ->
     exists n', nodeMap t' !! k' = Some n'
                /\ node_type n' = node_type n /\ node_file n' = node_file n
                /\ forall c, In c (children n) -> In c (children n')) ->
  nodeMap t' !! prefixPath (segments g) (S index) = Some (newNode g index part) ->
  (forall k', In k' (root t) -> In k' (root t')) ->
  inTree t' (prefixPath (segments g) (S index)) ->
  fileInv processed g (S index) t'.
Proof.
  intros Hinv Hlt Hnew F1 F2 F3 Hroot Hreach.
  pose proof Hinv as ((Hpath & Hin & Hfile & Hdir) & (Hcov & Hleaf) & Hprov & Hpart & _).
  set (k := prefixPath (segments g) (S index)) in *.
  assert (forall k', inTree t k' -> inTree t' k') as Hmono.
  { apply inTree_mono; [exact Hroot|]. intros k' n Hn.
    destruct (F2 _ _ Hn) as (n' & Hn' & _ & _ & Hc). eauto. }
  assert (forall k', is_Some (nodeMap t !! k') -> is_Some (nodeMap t' !! k')) as Hkeep.
  { intros k' [n Hn]. destruct (F2 _ _ Hn) as (n' & Hn' & _). eauto. }
  split; [|split; [|split; [|split]]].
  - (* the nodes *)
    split; [|split; [|split]].
    + intros k' n' Hn'. destruct (F1 _ _ Hn') as [[-> ->]|(n & Hn & Hp & _)].
      * reflexivity.
      * rewrite Hp. by apply Hpath.
    + intros k' [n' Hn']. destruct (F1 _ _ Hn') as [[-> ->]|(n & Hn & _)].
      * exact Hreach.
      * apply Hmono, Hin. eauto.
    + intros k' n' Hn' Ht. destruct (F1 _ _ Hn') as [[-> ->]|(n & Hn & _ & Hty & _ & Hsame)].
      * destruct (newNode_file index part Hlt Ht) as (Hlast & Htg & Hf).
        split; [reflexivity|]. exists g. split; [apply in_or_app; right; by left|].
        split; [done|]. split; [|done].
        unfold k. rewrite Hlast. symmetry. apply prefixPath_full.
      * rewrite Hty in Ht. rewrite (Hsame Ht). by apply Hfile.
    + intros k' n' Hn' Ht. destruct (F1 _ _ Hn') as [[-> ->]|(n & Hn & _ & Hty & Hf & _)].
      * by apply newNode_dir.
      * rewrite Hf. apply (Hdir k'); [done|]. by rewrite <- Hty.
  - (* the processed entries *)
    split.
    + intros g' i Hg' Hi. apply Hkeep. by apply Hcov.
    + intros f Hf Ht. destruct (Hleaf f Hf Ht) as (n & Hn & Hty & Hnf).
      destruct (F2 _ _ Hn) as (n' & Hn' & Hty' & Hnf' & _).
      exists n'. split; [done|]. split; congruence.
  - (* provenance *)
    intros k' [n' Hn']. destruct (F1 _ _ Hn') as [[-> ->]|(n & Hn & _)].
    + right. exists (S index). split; [lia | done].
    + destruct (Hprov k') as [H|(i & Hi & ->)]; [eauto | by left |].
      right. exists i. split; [lia | done].
  - (* the prefixes of the current entry *)
    intros i Hi. destruct (decide (i = S index)) as [->|Hne].
    + fold k. rewrite F3. eauto.
    + apply Hkeep, Hpart. lia.
  - (* the node of the current entry *)
    intros Hlast Ht. destruct (newNode_last index part Hlast Ht) as [Hty Hf].
    exists (newNode g index part). split; [|done].
    rewrite <- prefixPath_full, <- Hlast. exact F3.
Qed.

(** One part of the current entry. *)
Lemma visitPart_step (index : nat) (part : string) (t : Tree) :
  segments g !! index = Some part ->
  fileInv processed g index t ->
  exists t',
    visitPart g (segments g) index part (t, prefixPath (segments g) index)
    = (t', prefixPath (segments g) (S index))
    /\ fileInv processed g (S index) t'.
Proof.
  intros Hpart Hinv.
  pose proof (lookup_lt_Some _ _ _ Hpart) as Hlt.
  unfold visitPart. rewrite (nextPath_prefixPath _ _ _ (Hrel g Hg) Hpart).
  fold (newNode g index part).
  set (k := prefixPath (segments g) (S index)).
  destruct (nodeMap t !! k) as [n0|] eqn:Ek.
  - (* the node is registered already *)
    exists t. split; [reflexivity|].
    pose proof Hinv as (Hwf & Hcov & Hprov & Hpartial & _).
    split; [exact Hwf|]. split; [exact Hcov|]. split; [|split].
    + intros k' Hk'. destruct (Hprov k' Hk') as [H|(i & Hi & ->)]; [by left|].
      right. exists i. split; [lia | done].
    + intros i Hi. destruct (decide (i = S index)) as [->|Hne].
      * fold k. rewrite Ek. eauto.
      * apply Hpartial. lia.
    + intros Hlast Ht. exfalso.
      pose proof (last_key_absent index t Hinv Hlast Ht) as Habs.
      rewrite <- prefixPath_full, <- Hlast in Habs. fold k in Habs. congruence.
  - destruct index as [|index].
    + (* a new top-level node *)
      cbn [Nat.eqb]. eexists. split; [reflexivity|].
      apply (fileInv_extend 0 part t); try done; cbn [nodeMap root].
      * intros k' n' Hn'. apply lookup_insert_Some in Hn' as [[<- <-]|[Hne Hn']].
        -- by left.
        -- right. exists n'. by repeat split.
      * intros k' n Hn. exists n. split; [|done].
        rewrite lookup_insert_ne; [done|]. intros <-. fold k in Ek. congruence.
      * apply lookup_insert_eq.
      * intros k' Hk'. apply in_or_app. by left.
      * apply inTree_root. cbn [root]. apply in_or_app. right. by left.
    + (* a new node under its parent *)
      cbn [Nat.eqb].
      set (pk := prefixPath (segments g) (S index)) in *.
      fold (prefixPath (segments g) (S index)). fold pk.
      pose proof Hinv as (Hwf & _ & _ & Hpartial & _).
      destruct (Hpartial (S index)) as [p Hp]; [lia|]. fold pk in Hp.
      assert (pk <> k) as Hne by (intros E; rewrite E in Hp; congruence).
      rewrite lookup_insert_ne by done. rewrite Hp.
      assert (node_type p = dir) as Hpdir.
      { apply (parent_is_dir (S index) t p Hinv); [lia | exact Hp]. }
      eexists. split; [reflexivity|].
      assert (forall k' n, nodeMap t !! k' = Some n ->
                exists n', <[pk:=pushChild k p]> (<[k:=newNode g (S index) part]> (nodeMap t)) !! k' = Some n'
                  /\ node_type n' = node_type n /\ node_file n' = node_file n
                  /\ forall c, In c (children n) -> In c (children n')) as F2.
      { intros k' n Hn. destruct (decide (k' = pk)) as [->|Hk'].
        - rewrite lookup_insert_eq. exists (pushChild k p).
          assert (n = p) as -> by congruence.
          repeat split. intros c Hc. cbn [pushChild children]. apply in_or_app. by left.
        - rewrite lookup_insert_ne by done.
          rewrite lookup_insert_ne by (intros <-; congruence). eauto. }
      apply (fileInv_extend (S index) part t); try done; cbn [nodeMap root].
      * intros k' n' Hn'. apply lookup_insert_Some in Hn' as [[<- <-]|[Hne' Hn']].
        -- right. exists p. repeat split; [done|]. intros Hf. congruence.
        -- apply lookup_insert_Some in Hn' as [[<- <-]|[Hne'' Hn']].
           ++ by left.
           ++ right. exists n'. by repeat split.
      * rewrite lookup_insert_ne by done. apply lookup_insert_eq.
      * destruct Hwf as (_ & Hin & _).
        eapply inTree_child.
        -- apply (inTree_mono t); [done| |apply Hin; eauto].
           intros k' n Hn. destruct (F2 _ _ Hn) as (n' & Hn' & _ & _ & Hc). eauto.
        -- cbn [nodeMap]. apply lookup_insert_eq.
        -- cbn [pushChild children]. apply in_or_app. right. by left.
Qed.

End Entry.

End BuildTreeInvariant.

Section BuildTreeLoops.

Variable all : list GitHubFile.
Hypothesis Hprefix : noFileAsDirectory all.
Hypothesis Hrel : relativePaths all.

(** The parts of one entry. *)
Lemma forEachPart_inv (processed : list GitHubFile) (g : GitHubFile) :
  In g all ->
  (forall f, In f processed -> In f all) ->
  (forall f, In f processed -> path f <> path g) ->
  forall (rest pre : list string) (t : Tree),
    segments g = pre ++ rest ->
    fileInv processed g (length pre) t ->
    fileInv processed g (length (segments g))
      (fst (forEachPart g (segments g) (length pre) rest
              (t, prefixPath (segments g) (length pre)))).
Proof.
  intros Hg Hprocessed Hfresh.
  induction rest as [|part rest IH]; intros pre t Hsplit Hinv.
  - assert (length (segments g) = length pre) as ->.
    { by rewrite Hsplit, app_nil_r. }
    exact Hinv.
  - cbn [forEachPart].
    destruct (visitPart_step all Hprefix Hrel processed g Hg Hprocessed Hfresh
                (length pre) part t) as (t' & E & Hinv'); [|exact Hinv|].
    { rewrite Hsplit. apply list_lookup_middle. reflexivity. }
    rewrite E.
    replace (S (length pre)) with (length (pre ++ [part])) in *
      by (rewrite length_app; simpl; lia).
    apply IH; [|exact Hinv']. by rewrite <- app_assoc.
Qed.

(** One entry. *)
Lemma addFile_inv (processed : list GitHubFile) (g : GitHubFile) (t : Tree) :
  In g all ->
  (forall f, In f processed -> In f all) ->
  (forall f, In f processed -> path f <> path g) ->
  treeInv processed t ->
  treeInv (processed ++ [g]) (addFile t g).
Proof.
  intros Hg Hprocessed Hfresh ((Hpath & Hin & Hfile & Hdir) & Hcov & Hprov).
  assert (fileInv processed g 0 t) as Hstart.
  { split; [|split; [|split; [|split]]].
    - split; [done|]. split; [done|]. split; [|done].
      intros k n Hn Ht. destruct (Hfile k n Hn Ht) as (Hc & f & Hf & H).
      split; [done|]. exists f. split; [|done]. apply in_or_app. by left.
    - exact Hcov.
    - intros k Hk. left. by apply Hprov.
    - intros i Hi. lia.
    - intros H. pose proof (segments_length g). lia. }
  pose proof (forEachPart_inv processed g Hg Hprocessed Hfresh (segments g) [] t
                eq_refl Hstart) as (Hwf & (Hcov1 & Hleaf1) & Hprov' & Hpart & Hleaf).
  change (treeInv (processed ++ [g])
            (fst (forEachPart g (segments g) 0 (segments g) (t, EmptyString)))).
  change (prefixPath (segments g) (length (@nil string))) with EmptyString in *.
  change (length (@nil string)) with 0%nat in *.
  set (t' := fst (forEachPart g (segments g) 0 (segments g) (t, EmptyString))) in *.
  split; [exact Hwf|]. split; [split|].
  - intros g' i Hg' Hi. apply in_app_or in Hg' as [Hg'|[<-|[]]].
    + by apply Hcov1.
    + apply Hpart. lia.
  - intros f Hf Ht. apply in_app_or in Hf as [Hf|[<-|[]]].
    + by apply Hleaf1.
    + by apply Hleaf.
  - intros k Hk. destruct (Hprov' k Hk) as [(g' & i & Hg' & Hi & ->)|(i & Hi & ->)].
    + exists g', i. split; [apply in_or_app; by left | done].
    + exists g, i. split; [apply in_or_app; right; by left | done].
Qed.

Lemma emptyTree_inv : treeInv [] emptyTree.
Proof.
  assert (forall k, nodeMap emptyTree !! k = None) as He.
  { intros k. apply lookup_empty. }
  split; [|split].
  - split; [|split; [|split]].
    + intros k n. by rewrite He.
    + intros k [n Hn]. by rewrite He in Hn.
    + intros k n. by rewrite He.
    + intros k n. by rewrite He.
  - split; [intros g i []|intros f []].
  - intros k [n Hn]. by rewrite He in Hn.
Qed.

(** All the entries, in the order in which they are processed. *)
Lemma fold_addFile_inv (rest processed : list GitHubFile) (t : Tree) :
  (forall f, In f (processed ++ rest) -> In f all) ->
  NoDup (map path (processed ++ rest)) ->
  treeInv processed t ->
  treeInv (processed ++ rest) (fold_left addFile rest t).
Proof.
  revert processed t. induction rest as [|g rest IH]; intros processed t Hall Hnd Hinv.
  - by rewrite app_nil_r.
  - cbn [fold_left]. rewrite (cons_middle g processed rest), app_assoc in *.
    apply IH; [done..|].
    apply addFile_inv; [| | |exact Hinv].
    + apply Hall. apply in_or_app. left. apply in_or_app. right. by left.
    + intros f Hf. apply Hall. apply in_or_app. left. apply in_or_app. by left.
    + intros f Hf E.
      rewrite !map_app in Hnd. apply NoDup_app in Hnd as [Hnd _].
      apply NoDup_app in Hnd as (_ & Hdisj & _).
      apply (Hdisj (path f)).
      * apply list_elem_of_In, in_map, Hf.
      * rewrite E. simpl. by left.
Qed.

End BuildTreeLoops.

Section BuildTreeClaims.

Lemma treeInv_matches (entries processed : list GitHubFile) (t : Tree) :
  (forall f, In f processed <-> In f entries) ->
  noFileAsDirectory entries ->
  treeInv processed t -> treeMatchesEntries t entries.
Proof.
  intros Hsame Hprefix ((Hpath & Hin & Hfile & Hdir) & (Hcov & Hleaf) & Hprov).
  split; [|split; [|split]].
  - intros f Hf Ht. apply Hsame in Hf.
    destruct (Hleaf f Hf Ht) as (n & Hn & Hty & Hnf).
    exists n. split; [exists (path f); split; [apply Hin; eauto | done]|].
    split; [done|]. split; [done|]. by destruct (Hfile _ _ Hn Hty).
  - intros n (k & Hk & Hn) Hty.
    destruct (Hfile _ _ Hn Hty) as (Hc & f & Hf & Hft & _ & Hnf).
    split; [done|]. exists f. split; [by apply Hsame | done].
  - intros n n' f (k & _ & Hn) (k' & _ & Hn') Hnf Hnf'.
    assert (forall k0 n0, nodeMap t !! k0 = Some n0 -> node_file n0 = Some f ->
              k0 = path f) as Hkey.
    { intros k0 n0 Hn0 Hf0. destruct (node_type n0) eqn:Hty.
      - destruct (Hfile _ _ Hn0 Hty) as (_ & f0 & _ & _ & Hp & Hf0').
        congruence.
      - rewrite (Hdir _ _ Hn0 Hty) in Hf0. discriminate. }
    rewrite (Hkey _ _ Hn Hnf) in Hn. rewrite (Hkey _ _ Hn' Hnf') in Hn'. congruence.
  - intros g i Hg Hi. pose proof Hg as Hg'. apply Hsame in Hg'.
    destruct (Hcov g i Hg') as [n Hn]; [lia|].
    exists n. split; [exists (prefixPath (segments g) i); split; [apply Hin; eauto | done]|].
    split; [|by apply Hpath].
    destruct (node_type n) eqn:Hty; [|done]. exfalso.
    destruct (Hfile _ _ Hn Hty) as (_ & f & Hf & Hft & Hp & _).
    apply (Hprefix f g i); [by apply Hsame | done..].
Qed.

(** C1 (amended).  When no two entries have the same path, no file
    entry's path is a proper directory prefix of an entry's path and
    every path starts with a non-empty segment, the file nodes of
    [buildTree(E)] are leaves and correspond one to one to the file
    entries of [E], each carrying its entry, and every proper prefix of
    an entry's path has a directory node with that path. *)
Theorem buildTree_matches_entries
    (localeCompare : string -> string -> Z) (entries : list GitHubFile) :
  pathsDistinct entries -> noFileAsDirectory entries -> relativePaths entries ->
  treeMatchesEntries (buildTree localeCompare entries) entries.
Proof.
  intros Hnd Hprefix Hrel.
  apply (treeInv_matches entries (sortByPath localeCompare entries)).
  - intros f. apply sortByPath_In.
  - exact Hprefix.
  - unfold buildTree, buildFrom.
    apply (fold_addFile_inv entries Hprefix Hrel (sortByPath localeCompare entries) []).
    + intros f Hf. by apply sortByPath_In in Hf.
    + cbn [app]. unfold pathsDistinct in Hnd. by rewrite sortByPath_perm.
    + apply emptyTree_inv.
Qed.

End BuildTreeClaims.

Section BuildTreeScenarios.

(** The example of the specification: [a/b.txt] and [a/c/d.txt] give the
    root [a] with the children [b.txt] and [c], and [d.txt] under [c]. *)
Example buildTree_example :
  view (buildTree codeCompare [bTxt; dTxt])
  = [ View "a" "a" dir
        [ View "b.txt" "a/b.txt" file [] (Some bTxt);
          View "c" "a/c" dir [ View "d.txt" "a/c/d.txt" file [] (Some dTxt) ] None ]
        None ].
Proof. vm_compute. reflexivity. Qed.

Lemma example_pathsDistinct : pathsDistinct [bTxt; dTxt].
Proof. unfold pathsDistinct. apply (bool_decide_unpack _). vm_compute. exact I. Qed.

Lemma example_noFileAsDirectory : noFileAsDirectory [bTxt; dTxt].
Proof.
  intros f g i [<-|[<-|[]]] [<-|[<-|[]]] _ [Hlo Hhi];
    vm_compute in Hhi;
    (destruct i as [|[|[|i]]]; try lia); vm_compute; discriminate.
Qed.

Lemma example_relativePaths : relativePaths [bTxt; dTxt].
Proof. intros g [<-|[<-|[]]]; reflexivity. Qed.

Lemma buildTree_matches_entries_witness :
  treeMatchesEntries (buildTree codeCompare [bTxt; dTxt]) [bTxt; dTxt].
Proof.
  apply (buildTree_matches_entries codeCompare [bTxt; dTxt]).
  - exact example_pathsDistinct.
  - exact example_noFileAsDirectory.
  - exact example_relativePaths.
Defined.

(** C1 as stated fails: with the file entries [a] and [a/b], whatever
    the collation, either the file node [a] gets the child [a/b] and no
    directory node has the path [a], or [a] is a directory node and the
    file entry [a] has no node. *)
Lemma buildTree_file_as_directory :
  exists entries,
    entries = [aFile; abFile]
    /\ forall localeCompare,
         ~ treeMatchesEntries (buildTree localeCompare entries) entries.
Proof.
  exists [aFile; abFile]. split; [reflexivity|].
  intros localeCompare (H1 & H2 & _ & _).
  unfold buildTree in *. cbn [sortByPath foldr insertByPath] in *.
  destruct (localeCompare (path aFile) (path abFile) <=? 0)%Z.
  - destruct (H2 (mkNode "a" "a" file ["a/b"] (Some aFile))) as [Hc _];
      [|reflexivity|discriminate Hc].
    exists "a". split; [apply inTree_root; vm_compute; by left|].
    vm_compute. reflexivity.
  - destruct (H1 aFile) as (n & (k & _ & Hk) & _ & Hnf & _);
      [by left | reflexivity |].
    apply elem_of_map_to_list, list_elem_of_In in Hk. vm_compute in Hk.
    destruct Hk as [Hk|[Hk|[]]]; inversion Hk; subst; discriminate Hnf.
Qed.

End BuildTreeScenarios.

Section OrderIndependence.

(** C8 (amended).  For entries with distinct paths and a consistent
    comparison function that ties no two of these paths, [buildTree]
    gives the same tree for every permutation of the entries; and
    entries that are already in order are processed as they are.  The
    comparison function may tie other strings. *)
Theorem buildTree_order_independent
    (localeCompare : string -> string -> Z) (entries entries' : list GitHubFile) :
  consistentComparator localeCompare ->
  noTies localeCompare entries ->
  pathsDistinct entries ->
  Permutation entries' entries ->
  buildTree localeCompare entries' = buildTree localeCompare entries
  /\ view (buildTree localeCompare entries') = view (buildTree localeCompare entries)
  /\ (Sorted (pathLe localeCompare) entries ->
      buildTree localeCompare entries = buildFrom entries).
Proof.
  intros Hconsistent Hties Hnd Hperm.
  assert (buildTree localeCompare entries' = buildTree localeCompare entries) as E.
  { unfold buildTree. f_equal. apply sortByPath_permutation_invariant; [| |done| |done].
    - intros a b. by apply consistent_total.
    - intros a b c. by apply consistent_trans.
    - intros f g Hf Hg Hfg Hgf. apply Hties; [done..|].
      by apply consistent_tie. }
  split; [exact E|]. split; [by rewrite E|].
  intros Hs. unfold buildTree. f_equal. by apply sortByPath_sorted_id.
Qed.

(** The comparison that ignores the case of the letters ties [A] and
    [a], and no two paths of the example. *)
Lemma example_noTies : noTies caseBlindCompare [bTxt; dTxt].
Proof.
  intros f g [<-|[<-|[]]] [<-|[<-|[]]] H; try reflexivity;
    vm_compute in H; discriminate H.
Qed.

Example caseBlindCompare_tie : caseBlindCompare "A" "a" = 0%Z.
Proof. reflexivity. Qed.

Lemma buildTree_order_independent_witness :
  buildTree caseBlindCompare [dTxt; bTxt] = buildTree caseBlindCompare [bTxt; dTxt]
  /\ view (buildTree caseBlindCompare [dTxt; bTxt])
     = view (buildTree caseBlindCompare [bTxt; dTxt])
  /\ buildTree caseBlindCompare [bTxt; dTxt] = buildFrom [bTxt; dTxt].
Proof.
  destruct (buildTree_order_independent caseBlindCompare [bTxt; dTxt] [dTxt; bTxt]
              caseBlindCompare_consistent example_noTies example_pathsDistinct
              (Permutation_swap bTxt dTxt [])) as (H1 & H2 & H3).
  split; [exact H1|]. split; [exact H2|]. apply H3.
  repeat constructor. vm_compute. discriminate.
Defined.

(** C8 as stated fails: a directory entry and a file entry with the
    same path give a directory node in one order and a file node in the
    other, whatever the collation. *)
Lemma buildTree_order_of_duplicates :
  exists entries entries',
    entries = [aDir; aFile] /\ Permutation entries' entries
    /\ forall localeCompare,
         buildTree localeCompare entries' <> buildTree localeCompare entries
         /\ view (buildTree localeCompare entries')
            <> view (buildTree localeCompare entries).
Proof.
  exists [aDir; aFile], [aFile; aDir].
  split; [reflexivity|]. split; [apply Permutation_swap|].
  intros localeCompare.
  assert (view (buildTree localeCompare [aFile; aDir])
          <> view (buildTree localeCompare [aDir; aFile])) as Hview.
  { unfold buildTree. cbn [sortByPath foldr insertByPath].
    change (path aFile) with "a". change (path aDir) with "a".
    destruct (localeCompare "a" "a" <=? 0)%Z; intros H; vm_compute in H; discriminate H. }
  split; [|exact Hview]. intros E. apply Hview. by rewrite E.
Qed.

(** Two different paths that the comparison function ties stay in the
    order of the input. *)
Example buildTree_order_of_ties :
  pathsDistinct [aFile; capitalA]
  /\ view (buildTree caseBlindCompare [aFile; capitalA])
     = [View "a" "a" file [] (Some aFile); View "A" "A" file [] (Some capitalA)]
  /\ view (buildTree caseBlindCompare [capitalA; aFile])
     = [View "A" "A" file [] (Some capitalA); View "a" "a" file [] (Some aFile)].
Proof.
  split; [|split; vm_compute; reflexivity].
  apply (bool_decide_unpack _). vm_compute. exact I.
Qed.

Example buildFrom_duplicates :
  view (buildFrom [aDir; aFile]) = [View "a" "a" dir [] None]
  /\ view (buildFrom [aFile; aDir]) = [View "a" "a" file [] (Some aFile)].
Proof. split; vm_compute; reflexivity. Qed.

Example buildFrom_file_as_directory :
  view (buildFrom [aFile; abFile])
  = [View "a" "a" file [View "b" "a/b" file [] (Some abFile)] (Some aFile)]
  /\ view (buildFrom [abFile; aFile])
     = [View "a" "a" dir [View "b" "a/b" file [] (Some abFile)] None].
Proof. split; vm_compute; reflexivity. Qed.

End OrderIndependence.

(* ===================================================================== *)
(** * GitHubService: the key and the requests *)
(* ===================================================================== *)

Section ApiKey.

Import GitHubService.

Lemma getApiKey_after_set (key : string) (ks : KeyStore) :
  fst (getApiKey (setApiKey key ks)) = Some key.
Proof.
  unfold getApiKey, setApiKey. cbn [apiKey truthyKey localStorage].
  destruct (truthy key); cbn [fst apiKey]; [reflexivity|].
  apply lookup_insert_eq.
Qed.

Lemma getApiKey_after_reload (key : string) (ks : KeyStore) :
  fst (getApiKey (reload (setApiKey key ks))) = Some key.
Proof.
  unfold getApiKey, reload, setApiKey. cbn [apiKey truthyKey localStorage fst].
  apply lookup_insert_eq.
Qed.

(** X1.  The key that was set is the key that is read, at once and after a
    page load; setting it touches no other item of [localStorage]; reading
    leaves [localStorage] alone, and a second read gives what the first
    gave and changes nothing more. *)
Theorem apiKey_saved_and_read_back (key : string) (ks : KeyStore) :
  fst (getApiKey (setApiKey key ks)) = Some key
  /\ fst (getApiKey (reload (setApiKey key ks))) = Some key
  /\ (forall item, item <> "github_api_key" ->
        localStorage (setApiKey key ks) !! item = localStorage ks !! item)
  /\ localStorage (snd (getApiKey ks)) = localStorage ks
  /\ getApiKey (snd (getApiKey ks)) = getApiKey ks.
Proof.
  split; [apply getApiKey_after_set|]. split; [apply getApiKey_after_reload|].
  split; [|split].
  - intros item Hne. unfold setApiKey. cbn [localStorage].
    by rewrite lookup_insert_ne.
  - unfold getApiKey. by destruct (truthyKey (apiKey ks)).
  - unfold getApiKey. destruct (truthyKey (apiKey ks)) eqn:E; cbn [snd fst].
    + by rewrite E.
    + cbn [apiKey localStorage].
      by destruct (truthyKey (localStorage ks !! "github_api_key")).
Qed.

(** X2.  The requests carry the [Accept] header always, and the header
    [Authorization: token <key>] exactly when the key that was set is not
    empty, also after a page load; with no key set and none saved they
    carry no [Authorization] header. *)
Theorem requestHeaders_follow_the_key (key : string) (ks : KeyStore) :
  requestHeaders (fst (getApiKey (setApiKey key ks)))
  = ("Accept", "application/vnd.github.v3+json")
    :: (if truthy key then [("Authorization", "token " +:+ key)] else [])
  /\ requestHeaders (fst (getApiKey (reload (setApiKey key ks))))
     = ("Accept", "application/vnd.github.v3+json")
       :: (if truthy key then [("Authorization", "token " +:+ key)] else [])
  /\ (apiKey ks = None -> localStorage ks !! "github_api_key" = None ->
      requestHeaders (fst (getApiKey ks)) = [("Accept", "application/vnd.github.v3+json")]).
Proof.
  rewrite getApiKey_after_set, getApiKey_after_reload.
  unfold requestHeaders. cbn [truthyKey default].
  split; [reflexivity|]. split; [reflexivity|].
  intros Hk Hl. unfold getApiKey. rewrite Hk. cbn [truthyKey fst apiKey].
  by rewrite Hl.
Qed.

Lemma requestHeaders_follow_the_key_witness :
  requestHeaders (fst (getApiKey savedKey))
  = [("Accept", "application/vnd.github.v3+json"); ("Authorization", "token ghp_abc")]
  /\ requestHeaders (fst (getApiKey (mkKeyStore None ∅)))
     = [("Accept", "application/vnd.github.v3+json")].
Proof.
  split.
  - exact (proj1 (proj2 (requestHeaders_follow_the_key "ghp_abc" (mkKeyStore None ∅)))).
  - apply (proj2 (proj2 (requestHeaders_follow_the_key "ghp_abc" (mkKeyStore None ∅))));
      reflexivity.
Defined.

End ApiKey.

Section ServiceRequests.

Import GitHubService.

Lemma removeNewlines_app (a b : string) :
  removeNewlines (a +:+ b) = removeNewlines a +:+ removeNewlines b.
Proof.
  induction a as [|c a IH]; [reflexivity|].
  rewrite append_cons. cbn [removeNewlines].
  destruct (ascii_dec c (ascii_of_nat 10)); [exact IH|].
  rewrite append_cons. by rewrite IH.
Qed.

Lemma removeNewlines_nl : removeNewlines nl = EmptyString.
Proof. reflexivity. Qed.

(** X3.  A base64 payload decodes to the same text however it is broken
    into lines: the line feeds are removed before [atob] sees it. *)
Theorem decodeContent_ignores_line_breaks
    (atob : string -> Settled string) (a b : string) :
  truthy (a +:+ b) = true ->
  decodeContent atob (mkContentData (Some (a +:+ nl +:+ b)) (Some "base64"))
  = decodeContent atob (mkContentData (Some (a +:+ b)) (Some "base64"))
  /\ decodeContent atob (mkContentData (Some (a +:+ b)) (Some "base64"))
     = atob (removeNewlines a +:+ removeNewlines b).
Proof.
  intros Ht. unfold decodeContent. cbn [content encoding].
  rewrite Ht, bool_decide_eq_true_2 by done.
  assert (truthy (a +:+ nl +:+ b) = true) as ->.
  { destruct a; [reflexivity | reflexivity]. }
  rewrite !removeNewlines_app, removeNewlines_nl. done.
Qed.

Lemma decodeContent_ignores_line_breaks_witness :
  decodeContent atobSample (mkContentData (Some ("cHJpbnQo" +:+ nl +:+ "MSk=")) (Some "base64"))
  = decodeContent atobSample (mkContentData (Some ("cHJpbnQo" +:+ "MSk=")) (Some "base64"))
  /\ decodeContent atobSample (mkContentData (Some ("cHJpbnQo" +:+ "MSk=")) (Some "base64"))
     = atobSample (removeNewlines "cHJpbnQo" +:+ removeNewlines "MSk=").
Proof.
  apply (decodeContent_ignores_line_breaks atobSample "cHJpbnQo" "MSk="). reflexivity.
Defined.

(** X4.  When the tree request is answered with a status that is not ok,
    [fetchRepository] reports the failure with the status in the message
    (the words "Failed to fetch repository" twice, once from the service
    and once from the component), and leaves the file list, the selection,
    the repository and the result as they were, with the loading flag off. *)
Theorem fetchRepository_reports_http_status
    (fetchTree : string -> list (string * string) -> Settled (Response GitHubTree))
    (ks : KeyStore) (st : AppState) (parsedRepo : RepoInfo) (response : Response GitHubTree) :
  truthy (trim (repoUrl st)) = true ->
  parseRepoUrl (repoUrl st) = Some parsedRepo ->
  fetchTree (treeUrl (owner parsedRepo) (repo parsedRepo) (Some (branch parsedRepo)))
            (requestHeaders (fst (getApiKey ks))) = Fulfilled response ->
  ok response = false ->
  snd (fetchRepository (serviceFetchRepoTree fetchTree ks) st)
  = [ ESetLoading true; ESetProgress (inject_Z 10);
      EFetchTree (owner parsedRepo) (repo parsedRepo) (branch parsedRepo);
      EToast (errorToast
        ("Failed to fetch repository: Failed to fetch repository: "
         +:+ numberToString (status response) +:+ " " +:+ statusText response));
      ESetLoading false; ESetProgress (inject_Z 0) ]
  /\ files (fst (fetchRepository (serviceFetchRepoTree fetchTree ks) st)) = files st
  /\ selectedFiles (fst (fetchRepository (serviceFetchRepoTree fetchTree ks) st))
     = selectedFiles st
  /\ repoInfo (fst (fetchRepository (serviceFetchRepoTree fetchTree ks) st)) = repoInfo st
  /\ result (fst (fetchRepository (serviceFetchRepoTree fetchTree ks) st)) = result st
  /\ loading (fst (fetchRepository (serviceFetchRepoTree fetchTree ks) st)) = false.
Proof.
  intros Hurl Hparse Hfetch Hok.
  assert (serviceFetchRepoTree fetchTree ks (owner parsedRepo) (repo parsedRepo)
            (branch parsedRepo)
          = Rejected (ErrorObject
              ("Failed to fetch repository: " +:+ numberToString (status response)
               +:+ " " +:+ statusText response))) as E.
  { unfold serviceFetchRepoTree, fetchRepoTree.
    destruct (getApiKey ks) as [key ks'] eqn:Ek. cbn [fst] in Hfetch.
    rewrite Hfetch, Hok. reflexivity. }
  unfold fetchRepository. rewrite Hurl, Hparse, E.
  cbn [errorMessage]. repeat split.
Qed.

Lemma fetchRepository_reports_http_status_witness :
  snd (fetchRepository (serviceFetchRepoTree treeNotFound savedKey) urlTyped)
  = [ ESetLoading true; ESetProgress (inject_Z 10);
      EFetchTree "acme" "widgets" "main";
      EToast (errorToast
        ("Failed to fetch repository: Failed to fetch repository: "
         +:+ numberToString 404 +:+ " " +:+ "Not Found"));
      ESetLoading false; ESetProgress (inject_Z 0) ]
  /\ files (fst (fetchRepository (serviceFetchRepoTree treeNotFound savedKey) urlTyped))
     = files urlTyped.
Proof.
  destruct (fetchRepository_reports_http_status treeNotFound savedKey urlTyped acme
              (mkResponse false 404 "Not Found" (Rejected OtherValue))
              eq_refl eq_refl eq_refl eq_refl) as (H1 & H2 & _).
  split; [exact H1 | exact H2].
Defined.

Lemma bundle_section_occurs
    (fetchFileContent : string -> string -> string -> string -> Settled string)
    (now nullReadMessage : string) (st : AppState) (r : RepoInfo) (f : GitHubFile) :
  selectedFiles st <> ∅ -> repoInfo st = Some r -> In f (selectedFilesList st) ->
  occursIn (sectionOf fetchFileContent r f)
           (result (fst (generateOutput fetchFileContent now nullReadMessage st))).
Proof.
  intros Hsel Hrepo Hin.
  destruct (generateOutput_run fetchFileContent now nullReadMessage st r Hsel Hrepo)
    as [_ ->].
  by apply occursIn_app_l, sections_occurs.
Qed.

(** X5.  The bundle built with the service's [fetchFileContent]: a
    selected file whose request is answered with a status that is not ok,
    whose request fails, or whose payload [atob] refuses, gets the error
    section with that message; a base64 payload gets the section with the
    decoded text; a payload without content gets an empty fence. *)
Theorem generateOutput_sections_by_answer
    (fetchContent : string -> list (string * string) -> Settled (Response ContentData))
    (atob : string -> Settled string) (ks : KeyStore)
    (now nullReadMessage : string) (st : AppState) (r : RepoInfo) (f : GitHubFile) :
  selectedFiles st <> ∅ -> repoInfo st = Some r -> In f (selectedFilesList st) ->
  let doc :=
    result (fst (generateOutput (serviceFetchFileContent fetchContent atob ks)
                                now nullReadMessage st)) in
  let answer :=
    fetchContent (contentUrl (owner r) (repo r) (path f) (Some (branch r)))
                 (requestHeaders (fst (getApiKey ks))) in
  (forall e, answer = Rejected e -> occursIn (errorSection f e) doc)
  /\ (forall response,
        answer = Fulfilled response -> ok response = false ->
        occursIn
          (errorSection f
             (ErrorObject ("Failed to fetch file: " +:+ numberToString (status response)
                           +:+ " " +:+ statusText response)))
          doc)
  /\ (forall response c text,
        answer = Fulfilled response -> ok response = true ->
        json response = Fulfilled (mkContentData (Some c) (Some "base64")) ->
        truthy c = true -> atob (removeNewlines c) = Fulfilled text ->
        occursIn (contentSection f text) doc)
  /\ (forall response c e,
        answer = Fulfilled response -> ok response = true ->
        json response = Fulfilled (mkContentData (Some c) (Some "base64")) ->
        truthy c = true -> atob (removeNewlines c) = Rejected e ->
        occursIn (errorSection f e) doc)
  /\ (forall response enc,
        answer = Fulfilled response -> ok response = true ->
        json response = Fulfilled (mkContentData None enc) ->
        occursIn (contentSection f EmptyString) doc).
Proof.
  intros Hsel Hrepo Hin doc answer.
  pose proof (bundle_section_occurs (serviceFetchFileContent fetchContent atob ks)
                now nullReadMessage st r f Hsel Hrepo Hin) as Hocc.
  fold doc in Hocc. unfold sectionOf in Hocc.
  unfold serviceFetchFileContent, fetchFileContent in Hocc.
  destruct (getApiKey ks) as [key ks'] eqn:Ek. cbn [fst] in answer.
  fold answer in Hocc.
  split; [|split; [|split; [|split]]].
  - intros e E. by rewrite E in Hocc.
  - intros response E Hok. by rewrite E, Hok in Hocc.
  - intros response c text E Hok Hjson Hc Hatob.
    rewrite E, Hok, Hjson in Hocc. cbn [negb fst] in Hocc.
    unfold decodeContent in Hocc. cbn [content encoding] in Hocc.
    by rewrite Hc, bool_decide_eq_true_2, Hatob in Hocc by done.
  - intros response c e E Hok Hjson Hc Hatob.
    rewrite E, Hok, Hjson in Hocc. cbn [negb fst] in Hocc.
    unfold decodeContent in Hocc. cbn [content encoding] in Hocc.
    by rewrite Hc, bool_decide_eq_true_2, Hatob in Hocc by done.
  - intros response enc E Hok Hjson.
    by rewrite E, Hok, Hjson in Hocc.
Qed.

(** Two selected files: [404] for the first, a base64 payload over two
    lines for the second. *)
Lemma generateOutput_sections_by_answer_witness :
  occursIn
    (errorSection aTs (ErrorObject ("Failed to fetch file: " +:+ numberToString 404
                                    +:+ " " +:+ "Not Found")))
    (result (fst (generateOutput (serviceFetchFileContent contentsNetwork atobSample savedKey)
                                 "T" "null" twoSelected)))
  /\ occursIn (contentSection xPy "print(1)")
       (result (fst (generateOutput (serviceFetchFileContent contentsNetwork atobSample savedKey)
                                    "T" "null" twoSelected))).
Proof.
  split.
  - apply (proj1 (proj2 (generateOutput_sections_by_answer contentsNetwork atobSample
                           savedKey "T" "null" twoSelected acme aTs
                           twoSelected_nonempty eq_refl (or_introl eq_refl)))
             (mkResponse false 404 "Not Found" (Rejected OtherValue)));
      reflexivity.
  - apply (proj1 (proj2 (proj2 (generateOutput_sections_by_answer contentsNetwork atobSample
                           savedKey "T" "null" twoSelected acme xPy
                           twoSelected_nonempty eq_refl (or_intror (or_introl eq_refl)))))
             (mkResponse true 200 "OK"
                (Fulfilled (mkContentData (Some ("cHJpbnQo" +:+ nl +:+ "MSk=")) (Some "base64"))))
             ("cHJpbnQo" +:+ nl +:+ "MSk=") "print(1)");
      reflexivity.
Defined.

End ServiceRequests.

(* ===================================================================== *)
(** * More on parseRepoUrl *)
(* ===================================================================== *)

Section ParsedFields.

Lemma slashFree_substring (s : string) (n m : nat) :
  slashFree s = true -> slashFree (substring n m s) = true.
Proof.
  revert n m. induction s as [|c s IH]; intros n m H.
  - by destruct n, m.
  - cbn [slashFree] in H. apply andb_prop in H as [Hc Hs].
    destruct n as [|n]; cbn [substring].
    + destruct m as [|m]; [reflexivity|]. cbn [slashFree]. by rewrite Hc, IH.
    + by apply IH.
Qed.

Lemma slashFree_replaceGitSuffix (s : string) :
  slashFree s = true -> slashFree (replaceGitSuffix s) = true.
Proof.
  intros H. unfold replaceGitSuffix. destruct (endsWith s ".git"); [|done].
  by apply slashFree_substring.
Qed.

Lemma endsWith_inv (s p : string) : endsWith s p = true -> exists a, s = a +:+ p.
Proof.
  induction s as [|c s IH]; cbn [endsWith].
  - destruct (string_dec EmptyString p) as [<-|]; [|discriminate].
    intros _. by exists EmptyString.
  - destruct (string_dec (String c s) p) as [<-|].
    + intros _. by exists EmptyString.
    + cbn [orb]. intros H. destruct (IH H) as [a ->]. by exists (String c a).
Qed.

Lemma matchTree_sound (s b : string) : matchTree s = Some b -> isSegment b = true.
Proof.
  unfold matchTree. destruct (stripPrefix "/tree/" s) as [s'|]; [|discriminate].
  destruct (spanSegment s') as [b' rest] eqn:E.
  apply spanSegment_spec in E as (_ & Hs & _).
  destruct (truthy b') eqn:Ht; [|discriminate].
  intros [= <-]. unfold isSegment. by rewrite Ht, Hs.
Qed.

Lemma matchUrl_captures (s o r : string) (b : option string) :
  matchUrl s = Some (o, r, b) ->
  isSegment o = true /\ isSegment r = true
  /\ forall b', b = Some b' -> isSegment b' = true.
Proof.
  induction s as [|c s IH]; rewrite matchUrl_unfold.
  - destruct (matchUrlAt EmptyString) as [m|] eqn:E; [|discriminate].
    intros [= ->]. apply matchUrlAt_sound in E as (rest & _ & Ho & Hr & _ & ->).
    repeat split; try done. intros b'. apply matchTree_sound.
  - destruct (matchUrlAt (String c s)) as [m|] eqn:E; [|exact IH].
    intros [= ->]. apply matchUrlAt_sound in E as (rest & _ & Ho & Hr & _ & ->).
    repeat split; try done. intros b'. apply matchTree_sound.
Qed.

Lemma matchPatterns_captures (url o r : string) (b : option string) :
  matchPatterns url = Some (o, r, b) ->
  isSegment o = true /\ isSegment r = true
  /\ forall b', b = Some b' -> isSegment b' = true.
Proof.
  unfold matchPatterns. destruct (matchUrl url) as [m|] eqn:E.
  - intros [= ->]. by apply matchUrl_captures in E.
  - intros H. apply matchShorthand_sound in H as (_ & Ho & Hr & ->).
    repeat split; try done.
Qed.

(** X6.  Whatever is accepted, the owner and the branch returned are
    non-empty and without a slash, and the repository is without a slash;
    it is empty exactly when the repository segment of the input is
    [.git]. *)
Theorem parseRepoUrl_fields (url : string) (info : RepoInfo) :
  parseRepoUrl url = Some info ->
  isSegment (owner info) = true
  /\ slashFree (repo info) = true
  /\ isSegment (branch info) = true
  /\ (repo info = EmptyString <->
      exists o b, matchPatterns url = Some (o, ".git", b)).
Proof.
  unfold parseRepoUrl.
  destruct (matchPatterns url) as [[[o r] b]|] eqn:E; [|discriminate].
  intros [= <-]. cbn [owner repo branch].
  destruct (matchPatterns_captures _ _ _ _ E) as (Ho & Hr & Hb).
  destruct (isSegment_inv r Hr) as [Htr Hsr].
  split; [exact Ho|]. split; [by apply slashFree_replaceGitSuffix|]. split.
  - destruct b as [b'|]; [|reflexivity]. cbn [branchOrMain].
    pose proof (Hb b' eq_refl) as Hb'. destruct (isSegment_inv b' Hb') as [Ht _].
    by rewrite Ht.
  - split.
    + intros Hempty. exists o, b. do 3 f_equal.
      unfold replaceGitSuffix in Hempty.
      destruct (endsWith r ".git") eqn:He.
      * apply endsWith_inv in He as [a ->].
        rewrite length_append in Hempty. cbn [String.length] in Hempty.
        replace (String.length a + 4 - 4)%nat with (String.length a) in Hempty by lia.
        rewrite substring_prefix in Hempty. by subst a.
      * subst r. discriminate.
    + intros (o' & b' & [= -> -> ->]). reflexivity.
Qed.

Lemma parseRepoUrl_fields_witness :
  isSegment "acme" = true
  /\ slashFree EmptyString = true
  /\ isSegment "main" = true
  /\ (EmptyString = EmptyString <->
      exists o b, matchPatterns "acme/.git" = Some (o, ".git", b)).
Proof.
  exact (parseRepoUrl_fields "acme/.git" (mkRepo "acme" EmptyString "main") eq_refl).
Defined.

End ParsedFields.

(* ===================================================================== *)
(** * More on the inclusion filter and the fence tags *)
(* ===================================================================== *)

Section LetterCase.

Lemma lowerChar_dot (c : ascii) :
  (if ascii_dec (lowerChar c) "." then true else false)
  = (if ascii_dec c "." then true else false).
Proof. destruct c as [[] [] [] [] [] [] [] []]; reflexivity. Qed.

Lemma lowerChar_idempotent (c : ascii) : lowerChar (lowerChar c) = lowerChar c.
Proof. destruct c as [[] [] [] [] [] [] [] []]; reflexivity. Qed.

Lemma toLowerCase_idempotent (s : string) : toLowerCase (toLowerCase s) = toLowerCase s.
Proof.
  induction s as [|c s IH]; [reflexivity|].
  cbn [toLowerCase]. by rewrite lowerChar_idempotent, IH.
Qed.

Lemma split_toLowerCase (s : string) :
  split "." (toLowerCase s) = map toLowerCase (split "." s).
Proof.
  induction s as [|c s IH]; [reflexivity|].
  cbn [toLowerCase split].
  pose proof (lowerChar_dot c) as Hc.
  destruct (ascii_dec (lowerChar c) ".") as [E|E], (ascii_dec c ".") as [E'|E'];
    try discriminate.
  - by rewrite IH.
  - rewrite IH. pose proof (split_not_nil "." s) as Hne.
    destruct (split "." s) as [|h t]; [done | reflexivity].
Qed.

Lemma last_map_toLowerCase (l : list string) :
  List.last (map toLowerCase l) EmptyString = toLowerCase (List.last l EmptyString).
Proof.
  induction l as [|x l IH]; [reflexivity|].
  destruct l as [|y l]; [reflexivity|]. exact IH.
Qed.

(** X7.  For ASCII names, the two functions that look at a file's name
    see it through its lower-case form only: names that differ in the
    case of their letters only pass or fail [isTextFile] together and
    get the same fence tag. *)
Theorem names_are_case_insensitive (a b : string) :
  isAscii a = true -> isAscii b = true ->
  toLowerCase a = toLowerCase b ->
  isTextFile a = isTextFile b /\ getFileExtension a = getFileExtension b.
Proof.
  intros _ _ H. split.
  - unfold isTextFile. by rewrite H.
  - unfold getFileExtension.
    rewrite <- !last_map_toLowerCase, <- !split_toLowerCase. by rewrite H.
Qed.

Lemma names_are_case_insensitive_witness :
  isTextFile "Main.PY" = isTextFile "main.py"
  /\ getFileExtension "Main.PY" = getFileExtension "main.py".
Proof.
  apply (names_are_case_insensitive "Main.PY" "main.py"); reflexivity.
Defined.

(** X8.  A file whose name is, in any letter case, [Dockerfile], [README],
    [LICENSE] or [CHANGELOG] is not a text file for [isTextFile]: the name
    is lower-cased before it is compared with these entries. *)
Theorem isTextFile_rejects_named_files (filename : string) :
  In (toLowerCase filename) namedFiles -> isTextFile filename = false.
Proof.
  unfold isTextFile, namedFiles.
  intros [<-|[<-|[<-|[<-|[]]]]]; reflexivity.
Qed.

Lemma isTextFile_rejects_named_files_witness :
  isTextFile "README" = false.
Proof. apply (isTextFile_rejects_named_files "README"). right. left. reflexivity. Defined.

End LetterCase.

Section ExclusionPatterns.

Lemma matchHere_lits (l s : string) : matchHere (lits l) false s = startsWith s l.
Proof.
  revert s. induction l as [|c l IH]; intros s; [by destruct s|].
  cbn [lits matchHere]. destruct s as [|x s]; [reflexivity|].
  cbn [startsWith].
  destruct (ascii_dec x c) as [E1|E1], (ascii_dec c x) as [E2|E2];
    solve [apply IH | congruence].
Qed.

Lemma matchHere_lits_end (l s : string) :
  matchHere (lits l) true s = if string_dec s l then true else false.
Proof.
  revert s. induction l as [|c l IH]; intros s.
  - destruct s; cbn [lits matchHere truthy negb]; by destruct (string_dec _ _).
  - cbn [lits matchHere]. destruct s as [|x s].
    + by destruct (string_dec _ _).
    + destruct (ascii_dec x c) as [->|Hx].
      * rewrite IH. destruct (string_dec s l) as [->|Hs];
          destruct (string_dec _ _); congruence.
      * destruct (string_dec _ _); congruence.
Qed.

Lemma matchHere_lits_opt (l : string) (c : ascii) (s : string) :
  matchHere (lits l ++ [Opt c]) false s = startsWith s l.
Proof.
  revert s. induction l as [|a l IH]; intros s.
  - cbn [lits app matchHere]. destruct s as [|x s]; [reflexivity|].
    cbn [startsWith]. by rewrite orb_true_r.
  - cbn [lits app matchHere]. destruct s as [|x s]; [reflexivity|].
    cbn [startsWith].
    destruct (ascii_dec x a) as [E1|E1], (ascii_dec a x) as [E2|E2];
      solve [apply IH | congruence].
Qed.

Lemma test_substring (l s : string) : test (mkRegExp (lits l) false) s = includes s l.
Proof.
  unfold test. cbn [atoms anchoredAtEnd].
  induction s as [|x s IH]; cbn [searchFrom includes]; rewrite matchHere_lits;
    [reflexivity | by rewrite IH].
Qed.

Lemma test_suffix (l s : string) : test (mkRegExp (lits l) true) s = endsWith s l.
Proof.
  unfold test. cbn [atoms anchoredAtEnd].
  induction s as [|x s IH]; cbn [searchFrom endsWith]; rewrite matchHere_lits_end;
    [reflexivity | by rewrite IH].
Qed.

Lemma test_optional (l : string) (c : ascii) (s : string) :
  test (mkRegExp (lits l ++ [Opt c]) false) s = includes s l.
Proof.
  unfold test. cbn [atoms anchoredAtEnd].
  induction s as [|x s IH]; cbn [searchFrom includes]; rewrite matchHere_lits_opt;
    [reflexivity | by rewrite IH].
Qed.

Lemma shouldIncludeFile_eq (p : string) :
  shouldIncludeFile p
  = negb (existsb (includes p) excludedSubstrings || existsb (endsWith p) excludedSuffixes).
Proof.
  unfold shouldIncludeFile, excludePatterns, excludedSubstrings, excludedSuffixes.
  cbn [existsb]. rewrite !test_substring, !test_suffix, test_optional.
  rewrite !orb_false_r. f_equal. rewrite <- !orb_assoc. reflexivity.
Qed.

Lemma startsWith_app (p s : string) : startsWith (p +:+ s) p = true.
Proof.
  induction p as [|c p IH]; [by destruct s|].
  rewrite append_cons. cbn [startsWith]. by destruct (ascii_dec c c).
Qed.

Lemma includes_app (pre sub post : string) : includes (pre +:+ sub +:+ post) sub = true.
Proof.
  induction pre as [|c pre IH].
  - rewrite append_nil_l.
    destruct (sub +:+ post) eqn:E; cbn [includes]; rewrite <- E, startsWith_app;
      reflexivity.
  - rewrite append_cons. cbn [includes]. rewrite IH. apply orb_true_r.
Qed.

(** X9.  [shouldIncludeFile] refuses a path exactly when it contains one
    of the unanchored pattern texts anywhere, or ends with one of the
    anchored ones; so a path that contains such a text as part of a longer
    name ([out] in [layout]) or of a directory above the file is refused
    as well. *)
Theorem shouldIncludeFile_by_substring (p : string) :
  (shouldIncludeFile p = false <->
     (exists s, In s excludedSubstrings /\ includes p s = true)
     \/ (exists s, In s excludedSuffixes /\ endsWith p s = true))
  /\ (forall pre sub post,
        In sub excludedSubstrings -> shouldIncludeFile (pre +:+ sub +:+ post) = false)
  /\ (forall pre suffix,
        In suffix excludedSuffixes -> shouldIncludeFile (pre +:+ suffix) = false).
Proof.
  assert (forall q,
            shouldIncludeFile q = false <->
            (exists s, In s excludedSubstrings /\ includes q s = true)
            \/ (exists s, In s excludedSuffixes /\ endsWith q s = true)) as Hiff.
  { intros q. rewrite shouldIncludeFile_eq, negb_false_iff, orb_true_iff.
    by rewrite !existsb_exists. }
  split; [apply Hiff|]. split.
  - intros pre sub post Hin. apply Hiff. left. exists sub. split; [done|].
    apply includes_app.
  - intros pre suffix Hin. apply Hiff. right. exists suffix. split; [done|].
    apply endsWith_app.
Qed.

End ExclusionPatterns.

(* ===================================================================== *)
(** * More on the sort of buildTree *)
(* ===================================================================== *)

Section SortStability.

Variable localeCompare : string -> string -> Z.

Lemma withPath_insertByPath_other (p : string) (x : GitHubFile) (l : list GitHubFile) :
  path x <> p ->
  withPath p (insertByPath localeCompare x l) = withPath p l.
Proof.
  intros Hx. unfold withPath.
  induction l as [|y l IH]; cbn [insertByPath List.filter].
  - by destruct (string_dec (path x) p).
  - destruct (localeCompare (path x) (path y) <=? 0)%Z; cbn [List.filter].
    + by destruct (string_dec (path x) p).
    + by rewrite IH.
Qed.

Lemma withPath_insertByPath_same (x : GitHubFile) (l : list GitHubFile) :
  (localeCompare (path x) (path x) <= 0)%Z ->
  withPath (path x) (insertByPath localeCompare x l) = x :: withPath (path x) l.
Proof.
  intros Hrefl. unfold withPath.
  induction l as [|y l IH]; cbn [insertByPath List.filter].
  - by destruct (string_dec (path x) (path x)).
  - destruct (localeCompare (path x) (path y) <=? 0)%Z eqn:E; cbn [List.filter].
    + by destruct (string_dec (path x) (path x)).
    + destruct (string_dec (path y) (path x)) as [Ey|Ey]; [|exact IH].
      rewrite Ey in E. apply Z.leb_gt in E. lia.
Qed.

(** X10.  The sort of [buildTree], for every comparator: the sorted list
    has the entries of the input, each as often as the input, and an input
    whose neighbours are in order is returned as it is. When no string is
    put after itself, entries with the same path keep their input order;
    when the comparator is a total order, the result is in order. *)
Theorem sortByPath_properties (entries : list GitHubFile) :
  Permutation (sortByPath localeCompare entries) entries
  /\ length (sortByPath localeCompare entries) = length entries
  /\ (Sorted (pathLe localeCompare) entries -> sortByPath localeCompare entries = entries)
  /\ ((forall s, (localeCompare s s <= 0)%Z) ->
      forall p, withPath p (sortByPath localeCompare entries) = withPath p entries)
  /\ (totalOrderComparator localeCompare ->
      StronglySorted (pathLe localeCompare) (sortByPath localeCompare entries)).
Proof.
  split; [apply sortByPath_perm|]. split; [by rewrite sortByPath_perm|].
  split; [apply sortByPath_sorted_id|].
  split; [|intros (Htotal & Htrans & _); by apply sortByPath_sorted].
  intros Hrefl p. induction entries as [|x l IH]; [reflexivity|].
  cbn [sortByPath foldr]. fold (sortByPath localeCompare l).
  destruct (string_dec (path x) p) as [<-|Hne].
  - rewrite withPath_insertByPath_same by apply Hrefl. rewrite IH.
    unfold withPath. cbn [List.filter]. by destruct (string_dec (path x) (path x)).
  - rewrite withPath_insertByPath_other by done. rewrite IH.
    unfold withPath. cbn [List.filter]. by destruct (string_dec (path x) p).
Qed.

End SortStability.

Section SortScenario.

Lemma codeCompare_refl (s : string) : (codeCompare s s <= 0)%Z.
Proof. apply codeCompare_le. reflexivity. Qed.

Lemma sortByPath_properties_witness :
  sortByPath codeCompare [aFile; abFile] = [aFile; abFile]
  /\ withPath "a" (sortByPath codeCompare [abFile; aDir; aFile]) = [aDir; aFile]
  /\ StronglySorted (pathLe codeCompare) (sortByPath codeCompare [abFile; aDir; aFile]).
Proof.
  split; [|split].
  - apply (proj1 (proj2 (proj2 (sortByPath_properties codeCompare [aFile; abFile])))).
    repeat constructor. vm_compute. discriminate.
  - exact (proj1 (proj2 (proj2 (proj2 (sortByPath_properties codeCompare
                                          [abFile; aDir; aFile]))))
             codeCompare_refl "a").
  - exact (proj2 (proj2 (proj2 (proj2 (sortByPath_properties codeCompare
                                          [abFile; aDir; aFile]))))
             codeCompare_total_order).
Defined.

End SortScenario.

(* ===================================================================== *)
(** * What buildTree keeps for every input *)
(* ===================================================================== *)

Section StoreInvariant.

Variable entries : list GitHubFile.

Lemma NoDup_snoc (l : list string) (x : string) :
  List.NoDup l -> ~ In x l -> List.NoDup (l ++ [x]).
Proof.
  induction 1 as [|y l Hy Hnd IH]; intros Hx; cbn [app].
  - constructor; [intros [] | constructor].
  - constructor.
    + intros Hin. apply in_app_or in Hin as [Hin|[<-|[]]]; [done|].
      apply Hx. by left.
    + apply IH. intros Hin. apply Hx. by right.
Qed.

(** Registering a fresh node, not yet attached. *)
Lemma register_inv (t : Tree) (k : string) (node : TreeNode) :
  storeInv entries t ->
  nodeMap t !! k = None ->
  node_path node = k -> children node = [] ->
  (node_type node = file ->
     exists f, node_file node = Some f /\ In f entries /\ type f = file) ->
  (node_type node = dir -> node_file node = None) ->
  storeInv entries (mkTree (root t) (<[k:=node]> (nodeMap t)))
  /\ unattached (mkTree (root t) (<[k:=node]> (nodeMap t))) k.
Proof.
  intros (S1 & S2 & S3 & S4 & S5 & S6 & S7 & S8 & S9) Hnew Hpath Hch Hfile Hdir.
  assert (forall q, is_Some (nodeMap t !! q) -> is_Some (<[k:=node]> (nodeMap t) !! q))
    as Hkeep.
  { intros q Hq. rewrite lookup_insert_is_Some. destruct (decide (k = q)); auto. }
  assert (forall q, is_Some (nodeMap t !! q) -> q <> k) as Hold.
  { intros q [x Hx] ->. congruence. }
  split.
  - unfold storeInv. cbn [root nodeMap].
    split; [|split; [|split; [|split; [|split; [|split; [|split; [|split]]]]]]].
    + intros q n Hn. apply lookup_insert_Some in Hn as [[<- <-]|[_ Hn]]; eauto.
    + intros q n Hn. apply lookup_insert_Some in Hn as [[<- <-]|[_ Hn]]; eauto.
    + intros q n Hn. apply lookup_insert_Some in Hn as [[<- <-]|[_ Hn]]; eauto.
    + intros q Hq. apply Hkeep, S4, Hq.
    + intros p n c Hn Hc. apply lookup_insert_Some in Hn as [[<- <-]|[_ Hn]].
      * rewrite Hch in Hc. destruct Hc.
      * apply Hkeep. eauto.
    + exact S6.
    + intros p n Hn. apply lookup_insert_Some in Hn as [[<- <-]|[_ Hn]]; eauto.
      rewrite Hch. constructor.
    + intros p n c Hn Hc. apply lookup_insert_Some in Hn as [[<- <-]|[_ Hn]]; eauto.
      rewrite Hch in Hc. destruct Hc.
    + intros p p' n n' c Hn Hn' Hc Hc'.
      apply lookup_insert_Some in Hn as [[<- <-]|[_ Hn]];
        [rewrite Hch in Hc; destruct Hc|].
      apply lookup_insert_Some in Hn' as [[<- <-]|[_ Hn']];
        [rewrite Hch in Hc'; destruct Hc'|].
      eauto.
  - unfold unattached. cbn [root nodeMap]. split.
    + intros Hin. apply (Hold k); [by apply S4 | reflexivity].
    + intros p n Hn Hc. apply lookup_insert_Some in Hn as [[<- <-]|[_ Hn]].
      * rewrite Hch in Hc. destruct Hc.
      * apply (Hold k); [eauto | reflexivity].
Qed.

(** [root.push(node)] *)
Lemma push_root_inv (t : Tree) (k : string) :
  storeInv entries t -> is_Some (nodeMap t !! k) -> unattached t k ->
  storeInv entries (mkTree (root t ++ [k]) (nodeMap t)).
Proof.
  intros (S1 & S2 & S3 & S4 & S5 & S6 & S7 & S8 & S9) Hk [Hr Hc].
  unfold storeInv. cbn [root nodeMap].
  split; [exact S1|]. split; [exact S2|]. split; [exact S3|].
  split; [|split; [exact S5|]; split; [|split; [exact S7|]; split; [|exact S9]]].
  - intros q Hq. apply in_app_or in Hq as [Hq|[<-|[]]]; auto.
  - by apply NoDup_snoc.
  - intros p n c Hn Hin Hroot. apply in_app_or in Hroot as [Hroot|[<-|[]]].
    + by apply (S8 p n c).
    + by apply (Hc p n).
Qed.

(** [parentNode.children.push(node)] *)
Lemma push_child_inv (t : Tree) (k pk : string) (pn : TreeNode) :
  storeInv entries t -> is_Some (nodeMap t !! k) -> unattached t k ->
  nodeMap t !! pk = Some pn ->
  storeInv entries (mkTree (root t) (<[pk:=pushChild k pn]> (nodeMap t))).
Proof.
  intros (S1 & S2 & S3 & S4 & S5 & S6 & S7 & S8 & S9) Hk [Hr Hc] Hp.
  assert (forall q, is_Some (nodeMap t !! q) ->
                    is_Some (<[pk:=pushChild k pn]> (nodeMap t) !! q)) as Hkeep.
  { intros q Hq. rewrite lookup_insert_is_Some. destruct (decide (pk = q)); auto. }
  unfold storeInv. cbn [root nodeMap].
  split; [|split; [|split; [|split; [|split; [|split; [|split; [|split]]]]]]].
  - intros q n Hn. apply lookup_insert_Some in Hn as [[<- <-]|[_ Hn]]; eauto.
    exact (S1 _ _ Hp).
  - intros q n Hn. apply lookup_insert_Some in Hn as [[<- <-]|[_ Hn]]; eauto.
    exact (S2 _ _ Hp).
  - intros q n Hn. apply lookup_insert_Some in Hn as [[<- <-]|[_ Hn]]; eauto.
    exact (S3 _ _ Hp).
  - intros q Hq. apply Hkeep, S4, Hq.
  - intros p n c Hn Hin. apply lookup_insert_Some in Hn as [[<- <-]|[_ Hn]].
    + cbn [pushChild children] in Hin. apply in_app_or in Hin as [Hin|[<-|[]]].
      * apply Hkeep. eauto.
      * by apply Hkeep.
    + apply Hkeep. eauto.
  - exact S6.
  - intros p n Hn. apply lookup_insert_Some in Hn as [[<- <-]|[_ Hn]]; eauto.
    cbn [pushChild children]. apply NoDup_snoc; eauto.
  - intros p n c Hn Hin. apply lookup_insert_Some in Hn as [[<- <-]|[_ Hn]]; eauto.
    cbn [pushChild children] in Hin. apply in_app_or in Hin as [Hin|[<-|[]]]; eauto.
  - intros p p' n n' c Hn Hn' Hin Hin'.
    apply lookup_insert_Some in Hn as [[<- <-]|[Hne Hn]];
      apply lookup_insert_Some in Hn' as [[<- <-]|[Hne' Hn']]; try reflexivity.
    + cbn [pushChild children] in Hin. apply in_app_or in Hin as [Hin|[<-|[]]].
      * eauto.
      * exfalso. by apply (Hc p' n').
    + cbn [pushChild children] in Hin'. apply in_app_or in Hin' as [Hin'|[<-|[]]].
      * eauto.
      * exfalso. by apply (Hc p n).
    + eauto.
Qed.

Lemma visitPart_storeInv (f : GitHubFile) (parts : list string) (index : nat)
    (part : string) (st : Tree * string) :
  In f entries -> storeInv entries (fst st) ->
  storeInv entries (fst (visitPart f parts index part st)).
Proof.
  intros Hf Hinv. destruct st as [t previousPath]. cbn [fst] in Hinv.
  unfold visitPart.
  set (k := nextPath previousPath part).
  destruct (nodeMap t !! k) eqn:Ek; [exact Hinv|].
  set (leaf := Nat.eqb index (length parts - 1) && bool_decide (type f = file)).
  set (node := {| node_name := part; node_path := k;
                  node_type := if leaf then file else dir; children := [];
                  node_file := if leaf then Some f else None |}).
  destruct (register_inv t k node Hinv Ek eq_refl eq_refl) as [Hinv1 Hun].
  { cbn [node node_type node_file]. destruct leaf eqn:El; [|discriminate].
    intros _. exists f. split; [reflexivity|]. split; [exact Hf|].
    unfold leaf in El. apply andb_prop in El as [_ El].
    by apply bool_decide_eq_true in El. }
  { cbn [node node_type node_file]. by destruct leaf. }
  assert (is_Some (<[k:=node]> (nodeMap t) !! k)) as Hreg.
  { rewrite lookup_insert_eq. eauto. }
  destruct (Nat.eqb index 0).
  - cbn [fst]. exact (push_root_inv _ k Hinv1 Hreg Hun).
  - destruct (<[k:=node]> (nodeMap t) !! join "/" (take index parts)) as [pn|] eqn:Ep;
      cbn [fst].
    + exact (push_child_inv _ k _ pn Hinv1 Hreg Hun Ep).
    + exact Hinv1.
Qed.

Lemma forEachPart_storeInv (f : GitHubFile) (parts rest : list string) (index : nat)
    (st : Tree * string) :
  In f entries -> storeInv entries (fst st) ->
  storeInv entries (fst (forEachPart f parts index rest st)).
Proof.
  intros Hf. revert index st. induction rest as [|part rest IH]; intros index st Hinv.
  - exact Hinv.
  - cbn [forEachPart]. apply IH. by apply visitPart_storeInv.
Qed.

Lemma fold_addFile_storeInv (l : list GitHubFile) (t : Tree) :
  (forall f, In f l -> In f entries) -> storeInv entries t ->
  storeInv entries (fold_left addFile l t).
Proof.
  revert t. induction l as [|f l IH]; intros t Hl Hinv; [exact Hinv|].
  cbn [fold_left]. apply IH; [intros g Hg; apply Hl; by right|].
  unfold addFile. apply forEachPart_storeInv; [apply Hl; by left | exact Hinv].
Qed.

Lemma emptyTree_storeInv : storeInv entries emptyTree.
Proof.
  unfold storeInv, emptyTree. cbn [root nodeMap].
  repeat split; try (intros; by rewrite lookup_empty in * ); try by intros ? [].
  - constructor.
Qed.

End StoreInvariant.

(** X11.  For every list of entries and every collation, the store of
    [buildTree] is well formed: nodes are registered under their own path,
    file nodes carry a file entry of the input and directory nodes none,
    what is attached is registered, and no node is attached twice. *)
Theorem buildTree_store_invariant
    (localeCompare : string -> string -> Z) (entries : list GitHubFile) :
  storeInv entries (buildTree localeCompare entries).
Proof.
  unfold buildTree, buildFrom. apply fold_addFile_storeInv.
  - intros f Hf. by apply sortByPath_In in Hf.
  - apply emptyTree_storeInv.
Qed.

(* ===================================================================== *)
(** * How the paths of the nodes hang together *)
(* ===================================================================== *)

Section LinkedPaths.

Variable g : GitHubFile.
Hypothesis Hrel : truthy (hd EmptyString (segments g)) = true.

(** One part of the entry [g]. *)
Lemma visitPart_linked (index : nat) (part : string) (t : Tree) :
  segments g !! index = Some part ->
  linkedUpTo g index t ->
  exists t',
    visitPart g (segments g) index part (t, prefixPath (segments g) index)
    = (t', prefixPath (segments g) (S index))
    /\ linkedUpTo g (S index) t'.
Proof.
  intros Hpart [(L1 & L2 & L3 & L4 & L5 & L6) Hcov].
  unfold visitPart. rewrite (nextPath_prefixPath _ _ _ Hrel Hpart).
  set (k := prefixPath (segments g) (S index)).
  destruct (nodeMap t !! k) as [n0|] eqn:Ek.
  - exists t. split; [reflexivity|]. split; [done|].
    intros i Hi. destruct (decide (i = S index)) as [->|Hne].
    + fold k. rewrite Ek. eauto.
    + apply Hcov. lia.
  - set (leaf := Nat.eqb index (length (segments g) - 1) && bool_decide (type g = file)).
    set (node := {| node_name := part; node_path := k;
                    node_type := if leaf then file else dir; children := [];
                    node_file := if leaf then Some g else None |}).
    assert (forall q, is_Some (nodeMap t !! q) -> q <> k) as Hold.
    { intros q [x Hx] ->. congruence. }
    destruct index as [|i].
    + (* a top-level node *)
      cbn [Nat.eqb]. eexists. split; [reflexivity|].
      assert (k = part) as Hk by (apply prefixPath_1, Hpart).
      assert (forall q, is_Some (nodeMap t !! q) ->
                        is_Some (<[k:=node]> (nodeMap t) !! q)) as Hkeep.
      { intros q Hq. rewrite lookup_insert_is_Some.
        destruct (decide (k = q)); auto. }
      split.
      * unfold pathsLinked. cbn [root nodeMap].
        split; [|split; [|split; [|split; [|split]]]].
        -- intros q n Hn. apply lookup_insert_Some in Hn as [[<- <-]|[_ Hn]]; eauto.
        -- intros q Hq. apply in_app_or in Hq as [Hq|[<-|[]]]; [by apply Hkeep, L2|].
           rewrite lookup_insert_eq. eauto.
        -- intros p n c Hn Hc. apply lookup_insert_Some in Hn as [[<- <-]|[_ Hn]];
             [destruct Hc|]. apply Hkeep. eauto.
        -- intros q Hq. apply lookup_insert_is_Some in Hq as [<-|[Hne Hq]].
           ++ apply inTree_root. cbn [root]. apply in_or_app. right. by left.
           ++ apply (inTree_mono t); [| |by apply L4].
              ** intros q' Hq'. cbn [root]. apply in_or_app. by left.
              ** intros q' n Hn. exists n. split; [|done]. cbn [nodeMap].
                 rewrite lookup_insert_ne; [done|].
                 intros <-. congruence.
        -- intros q n Hq Hn. apply lookup_insert_Some in Hn as [[<- <-]|[Hne Hn]].
           ++ exact Hk.
           ++ apply in_app_or in Hq as [Hq|[<-|[]]]; [eauto | done].
        -- intros p n c cn Hn Hc Hcn.
           apply lookup_insert_Some in Hn as [[<- <-]|[_ Hn]]; [destruct Hc|].
           apply lookup_insert_Some in Hcn as [[<- <-]|[_ Hcn]]; [|eauto].
           exfalso. apply (Hold k); [eauto | reflexivity].
      * intros j Hj. assert (j = 1%nat) as -> by lia. cbn [nodeMap]. fold k.
        rewrite lookup_insert_eq. eauto.
    + (* a node below the node of the previous part *)
      cbn [Nat.eqb].
      change (join "/" (take (S i) (segments g))) with (prefixPath (segments g) (S i)).
      set (pk := prefixPath (segments g) (S i)).
      destruct (Hcov (S i)) as [pn Hpn]; [lia|]. fold pk in Hpn.
      assert (pk <> k) as Hpk by (apply Hold; eauto).
      rewrite lookup_insert_ne by done. rewrite Hpn.
      eexists. split; [reflexivity|].
      assert (k = pk +:+ "/" +:+ part) as Hk.
      { unfold k, pk. apply prefixPath_S; [exact Hpart | lia]. }
      set (m2 := <[pk:=pushChild k pn]> (<[k:=node]> (nodeMap t))).
      assert (forall q, is_Some (nodeMap t !! q) -> is_Some (m2 !! q)) as Hkeep.
      { intros q Hq. unfold m2. rewrite !lookup_insert_is_Some.
        destruct (decide (pk = q)); [by left|]. right. split; [done|].
        destruct (decide (k = q)); auto. }
      assert (m2 !! k = Some node) as Hnew.
      { unfold m2. rewrite lookup_insert_ne by done. apply lookup_insert_eq. }
      assert (forall q x, m2 !! q = Some x ->
                (q = k /\ x = node)
                \/ (exists x0, nodeMap t !! q = Some x0 /\ q <> k
                               /\ node_path x = node_path x0
                               /\ node_name x = node_name x0
                               /\ (children x = children x0
                                   \/ (q = pk /\ children x = children x0 ++ [k]))))
        as Horigin.
      { intros q x Hx. unfold m2 in Hx.
        apply lookup_insert_Some in Hx as [[<- <-]|[Hne Hx]].
        - right. exists pn. repeat split; auto.
        - apply lookup_insert_Some in Hx as [[<- <-]|[Hne' Hx]]; [by left|].
          right. exists x. repeat split; auto. }
      split.
      * unfold pathsLinked. cbn [root nodeMap]. fold m2.
        split; [|split; [|split; [|split; [|split]]]].
        -- intros q n Hn.
           destruct (Horigin q n Hn) as [[-> ->]|(x0 & Hx0 & _ & -> & _)]; eauto.
        -- intros q Hq. apply Hkeep, L2, Hq.
        -- intros p n c Hn Hc.
           destruct (Horigin p n Hn) as [[-> ->]|(x0 & Hx0 & _ & _ & _ & [Ec|[-> Ec]])];
             [destruct Hc | |]; rewrite Ec in Hc.
           ++ apply Hkeep. eauto.
           ++ apply in_app_or in Hc as [Hc|[<-|[]]]; [apply Hkeep; eauto|].
              rewrite Hnew. eauto.
        -- assert (forall q, inTree t q ->
                     inTree {| root := root t; nodeMap := m2 |} q) as Hmono.
           { apply inTree_mono; [done|]. intros q n Hn. cbn [nodeMap].
             destruct (decide (q = pk)) as [->|Hne].
             - exists (pushChild k pn). split; [apply lookup_insert_eq|].
               intros c Hc. cbn [pushChild children]. apply in_or_app. left.
               congruence.
             - exists n. split; [|done]. unfold m2.
               rewrite lookup_insert_ne by done. rewrite lookup_insert_ne; [done|].
               intros <-. congruence. }
           intros q [x Hx].
           destruct (Horigin q x Hx) as [[-> ->]|(x0 & Hx0 & _)].
           ++ apply (inTree_child _ pk (pushChild k pn)).
              ** apply Hmono, L4. eauto.
              ** cbn [nodeMap]. apply lookup_insert_eq.
              ** cbn [pushChild children]. apply in_or_app. right. by left.
           ++ apply Hmono, L4. eauto.
        -- intros q n Hq Hn.
           destruct (Horigin q n Hn) as [[-> ->]|(x0 & Hx0 & _ & -> & -> & _)].
           ++ exfalso. apply (Hold k); [by apply L2 | reflexivity].
           ++ eauto.
        -- intros p n c cn Hn Hc Hcn.
           destruct (Horigin p n Hn)
             as [[-> ->]|(x0 & Hx0 & _ & -> & _ & [Ec|[-> Ec]])];
             [destruct Hc | |]; rewrite Ec in Hc.
           ++ destruct (Horigin c cn Hcn) as [[-> ->]|(c0 & Hc0 & _ & -> & -> & _)].
              ** exfalso. apply (Hold k); [eauto | reflexivity].
              ** eauto.
           ++ apply in_app_or in Hc as [Hc|[<-|[]]].
              ** destruct (Horigin c cn Hcn) as [[-> ->]|(c0 & Hc0 & _ & -> & -> & _)].
                 --- exfalso. apply (Hold k); [eauto | reflexivity].
                 --- eauto.
              ** rewrite Hnew in Hcn. injection Hcn as <-.
                 cbn [node node_path node_name]. rewrite Hk.
                 by rewrite (L1 _ _ Hx0).
      * intros j Hj. cbn [nodeMap]. fold m2.
        destruct (decide (j = S (S i))) as [->|Hne].
        -- fold k. rewrite Hnew. eauto.
        -- apply Hkeep, Hcov. lia.
Qed.

(** The parts of the entry [g]. *)
Lemma forEachPart_linked :
  forall (rest pre : list string) (t : Tree),
    segments g = pre ++ rest ->
    linkedUpTo g (length pre) t ->
    pathsLinked
      (fst (forEachPart g (segments g) (length pre) rest
              (t, prefixPath (segments g) (length pre)))).
Proof.
  induction rest as [|part rest IH]; intros pre t Hsplit Hinv.
  - exact (proj1 Hinv).
  - cbn [forEachPart].
    destruct (visitPart_linked (length pre) part t) as (t' & E & Hinv');
      [|exact Hinv|].
    { rewrite Hsplit. apply list_lookup_middle. reflexivity. }
    rewrite E.
    replace (S (length pre)) with (length (pre ++ [part])) in *
      by (rewrite length_app; simpl; lia).
    apply IH; [|exact Hinv']. by rewrite <- app_assoc.
Qed.

Lemma addFile_linked (t : Tree) : pathsLinked t -> pathsLinked (addFile t g).
Proof.
  intros Hinv. apply (forEachPart_linked (segments g) [] t eq_refl).
  split; [exact Hinv|]. intros i Hi. cbn [length] in Hi. lia.
Qed.

End LinkedPaths.

Lemma fold_addFile_linked (l : list GitHubFile) (t : Tree) :
  relativePaths l -> pathsLinked t -> pathsLinked (fold_left addFile l t).
Proof.
  revert t. induction l as [|f l IH]; intros t Hrel Hinv; [exact Hinv|].
  cbn [fold_left]. apply IH.
  - intros h Hh. apply Hrel. by right.
  - apply addFile_linked; [apply Hrel; by left | exact Hinv].
Qed.

Lemma emptyTree_linked : pathsLinked emptyTree.
Proof.
  unfold pathsLinked, emptyTree. cbn [root nodeMap].
  split; [|split; [|split; [|split; [|split]]]].
  - intros k n H. by rewrite lookup_empty in H.
  - intros k [].
  - intros p n c H. by rewrite lookup_empty in H.
  - intros k [x H]. by rewrite lookup_empty in H.
  - intros k n [].
  - intros p n c cn H. by rewrite lookup_empty in H.
Qed.

(** X12.  When no path is empty or starts with a slash, whatever else the
    entries are (duplicates, a file in the place of a directory): every
    node of the store is in the tree; the path of a top-level node is its
    name, and the path of a child is the path of its parent, a slash and
    the child's name. *)
Theorem buildTree_paths_linked
    (localeCompare : string -> string -> Z) (entries : list GitHubFile) :
  relativePaths entries ->
  pathsLinked (buildTree localeCompare entries).
Proof.
  intros Hrel. unfold buildTree, buildFrom. apply fold_addFile_linked.
  - intros f Hf. apply Hrel. by apply sortByPath_In in Hf.
  - apply emptyTree_linked.
Qed.

Lemma buildTree_paths_linked_witness :
  relativePaths [bTxt; dTxt] /\ pathsLinked (buildTree codeCompare [bTxt; dTxt]).
Proof.
  assert (relativePaths [bTxt; dTxt]) as H.
  { intros f [<-|[<-|[]]]; reflexivity. }
  split; [exact H | exact (buildTree_paths_linked codeCompare [bTxt; dTxt] H)].
Defined.

(* ===================================================================== *)
(** * The runs of RepoAnalyzer *)
(* ===================================================================== *)

Section ComponentRuns.

Variable fetchRepoTree : string -> string -> string -> Settled GitHubTree.
Variable fetchFileContent : string -> string -> string -> string -> Settled string.
Variable now : string.
Variable nullReadMessage : string.

(** The loop of [generateOutput] sets nothing but the progress. *)
Lemma loopEvents_frame (r : RepoInfo) (totalFiles k : nat) (selected : list GitHubFile)
    (st : AppState) :
  exists p,
    fold_left applyEvent (loopEvents fetchFileContent r totalFiles k selected) st
    = mkState (repoUrl st) (files st) (selectedFiles st) (loading st) p (result st)
              (repoInfo st).
Proof.
  revert k st. induction selected as [|f selected IH]; intros k st.
  - exists (progress st). by destruct st.
  - cbn [loopEvents]. rewrite fold_left_app.
    destruct (IH (S k) (fold_left applyEvent
                          (fileEvents fetchFileContent r totalFiles (S k) f) st))
      as [p ->].
    exists p. unfold fileEvents. by destruct (fetchFileContent _ _ _ _).
Qed.

Lemma loopEvents_no_result (r : RepoInfo) (totalFiles k : nat)
    (selected : list GitHubFile) (doc : string) :
  ~ In (ESetResult doc) (loopEvents fetchFileContent r totalFiles k selected).
Proof.
  revert k. induction selected as [|f selected IH]; intros k; [intros []|].
  cbn [loopEvents]. intros H. apply in_app_or in H as [H|H]; [|by apply (IH (S k))].
  unfold fileEvents in H.
  destruct (fetchFileContent _ _ _ _); cbn in H; intuition discriminate.
Qed.

(** The state a run of [generateOutput] leaves. *)
Lemma generateOutput_state (st : AppState) :
  (selectedFiles st = ∅ ->
     generateOutput fetchFileContent now nullReadMessage st
     = (st, [EToast (errorToast "Please select at least one file")]))
  /\ (selectedFiles st <> ∅ -> repoInfo st = None ->
        generateOutput fetchFileContent now nullReadMessage st
        = (mkState (repoUrl st) (files st) (selectedFiles st) false (inject_Z 0)
                   (result st) None,
           [ESetLoading true; ESetProgress (inject_Z 0);
            EToast (errorToast ("Failed to generate output: " +:+ nullReadMessage));
            ESetLoading false; ESetProgress (inject_Z 0)]))
  /\ (selectedFiles st <> ∅ -> forall r, repoInfo st = Some r ->
        fst (generateOutput fetchFileContent now nullReadMessage st)
        = mkState (repoUrl st) (files st) (selectedFiles st) false (inject_Z 0)
            (header now r (length (selectedFilesList st))
             +:+ sections fetchFileContent r (selectedFilesList st))
            (Some r)).
Proof.
  split; [|split].
  - intros Hsel. unfold generateOutput. rewrite Hsel, size_empty. reflexivity.
  - intros Hsel Hrepo. unfold generateOutput.
    rewrite (selection_nonempty st Hsel), Hrepo. unfold run. cbn.
    by rewrite Hrepo.
  - intros Hsel r Hrepo. unfold generateOutput.
    rewrite (selection_nonempty st Hsel), Hrepo, loop_spec.
    cbn [output processedFiles events]. unfold run. cbn [fst].
    rewrite !fold_left_app.
    destruct (loopEvents_frame r (length (selectedFilesList st)) 0 (selectedFilesList st)
                (fold_left applyEvent [ESetLoading true; ESetProgress (inject_Z 0)] st))
      as [p ->].
    cbn. by rewrite Hrepo.
Qed.

(** X13.  A run of [generateOutput] sets a document exactly when something
    is selected and the repository is known, and only then is anything
    fetched; otherwise the earlier document stays. In every case the
    reference, the file list, the selection and the repository are left as
    they were, and a run that got past the selection test ends with
    nothing loading and the progress reset. *)
Theorem generateOutput_outcomes (st : AppState) :
  ((exists doc,
      In (ESetResult doc) (snd (generateOutput fetchFileContent now nullReadMessage st)))
   <-> selectedFiles st <> ∅ /\ is_Some (repoInfo st))
  /\ (selectedFiles st = ∅ \/ repoInfo st = None ->
        result (fst (generateOutput fetchFileContent now nullReadMessage st)) = result st
        /\ fetchedPaths (snd (generateOutput fetchFileContent now nullReadMessage st)) = [])
  /\ repoUrl (fst (generateOutput fetchFileContent now nullReadMessage st)) = repoUrl st
  /\ files (fst (generateOutput fetchFileContent now nullReadMessage st)) = files st
  /\ selectedFiles (fst (generateOutput fetchFileContent now nullReadMessage st))
     = selectedFiles st
  /\ repoInfo (fst (generateOutput fetchFileContent now nullReadMessage st)) = repoInfo st
  /\ (selectedFiles st <> ∅ ->
        loading (fst (generateOutput fetchFileContent now nullReadMessage st)) = false
        /\ progress (fst (generateOutput fetchFileContent now nullReadMessage st))
           = inject_Z 0).
Proof.
  destruct (generateOutput_state st) as (Hempty & Hnull & Hdoc).
  destruct (decide (selectedFiles st = ∅)) as [Hsel|Hsel].
  - rewrite (Hempty Hsel). cbn [fst snd]. split; [|by repeat split].
    split; [|by intros [? _]]. intros [doc [H|[]]]. discriminate.
  - destruct (repoInfo st) as [r|] eqn:Hrepo.
    + specialize (Hdoc Hsel r eq_refl).
      destruct (generateOutput_run fetchFileContent now nullReadMessage st r Hsel Hrepo)
        as [Hev _].
      rewrite Hdoc. cbn [repoUrl files selectedFiles repoInfo loading progress].
      split; [|split; [|by repeat split]].
      * split; [by split|]. intros _. eexists. rewrite Hev.
        apply in_or_app. right. apply in_or_app. right. by left.
      * intros [H|H]; [done | discriminate].
    + rewrite (Hnull Hsel eq_refl). cbn [fst snd repoUrl files selectedFiles repoInfo
                                            loading progress result fetchedPaths].
      split; [|by repeat split].
      split; [|by intros [_ [? ?]]].
      intros [doc H]. cbn in H. intuition discriminate.
Qed.

(** A number divided by itself is one. *)
Lemma SFdiv_same (s : bool) (m : positive) (e : Z) :
  SFdiv precision maxExponent (S754_finite s m e) (S754_finite s m e)
  = S754_finite false 4503599627370496 (-52).
Proof.
  unfold SFdiv, SFdiv_core_binary.
  replace (Zdigits2 (Z.pos m) + e - (Zdigits2 (Z.pos m) + e))%Z with 0%Z by lia.
  replace (e - e)%Z with 0%Z by lia.
  change (Z.min (fexp precision maxExponent 0) 0) with (-53)%Z.
  change (0 - -53)%Z with 53%Z. cbv iota.
  assert (Z.div_eucl (Z.shiftl (Z.pos m) 53) (Z.pos m) = (2 ^ 53, 0)%Z) as ->.
  { rewrite Z.shiftl_mul_pow2 by lia.
    pose proof (Z_div_mod (Z.pos m * 2 ^ 53) (Z.pos m) ltac:(lia)) as H.
    destruct (Z.div_eucl (Z.pos m * 2 ^ 53) (Z.pos m)) as [q r].
    destruct H as [H1 H2].
    assert (r = 0)%Z as ->.
    { assert (r = Z.pos m * (2 ^ 53 - q))%Z as Hr by lia.
      destruct (Z.eq_dec (2 ^ 53 - q)%Z 0%Z) as [E|N]; [rewrite Hr, E; lia|].
      exfalso. nia. }
    f_equal. nia. }
  assert (new_location (Z.pos m) 0 = loc_Exact) as ->.
  { unfold new_location. by destruct (Z.even (Z.pos m)). }
  destruct s; reflexivity.
Qed.

Lemma digits2_size (p : positive) : digits2_pos p = Pos.size p.
Proof. induction p; simpl; congruence. Qed.

Lemma digits2_iter (p : positive) (k : positive) :
  digits2_pos (Pos.iter xO p k) = (digits2_pos p + k)%positive.
Proof.
  induction k as [|k IH] using Pos.peano_ind.
  - simpl. lia.
  - rewrite Pos.iter_succ. simpl. rewrite IH. lia.
Qed.

Lemma digits2_bound (p : positive) :
  (Z.pos p < 2 ^ 53)%Z -> (Z.pos (digits2_pos p) <= 53)%Z.
Proof.
  intros H. rewrite digits2_size.
  pose proof (Pos.size_le p) as Hle.
  destruct (Z_le_gt_dec (Z.pos (Pos.size p)) 53%Z) as [|Hgt]; [done|]. exfalso.
  assert (2 ^ 54 <= 2 ^ Z.pos (Pos.size p))%Z by (apply Z.pow_le_mono_r; lia).
  assert (Z.pos (2 ^ Pos.size p) = 2 ^ Z.pos (Pos.size p))%Z as E
    by (by rewrite Pos2Z.inj_pow).
  assert (Z.pos (2 ^ Pos.size p) <= Z.pos p~0)%Z by (apply Pos2Z.pos_le_pos, Hle).
  lia.
Qed.

(** A count between one and [2^53] is a number with that value, and no
    infinity. *)
Lemma numberOfNat_finite (n : nat) :
  (0 < n)%nat -> (Z.of_nat n < 2 ^ 53)%Z ->
  exists m e, numberOfNat n = S754_finite false m e.
Proof.
  intros Hn Hb. unfold numberOfNat.
  destruct (Z.of_nat n) as [|p|p] eqn:E; [lia| |lia].
  pose proof (digits2_bound p Hb) as Hd.
  unfold binary_normalize, binary_round, shl_align.
  set (d := digits2_pos p) in *.
  assert (fexp precision maxExponent (Z.pos d + 0) = Z.pos d - 53)%Z as ->.
  { unfold fexp, emin, precision, maxExponent. lia. }
  destruct (Z.pos d - 53 - 0)%Z as [|k|k] eqn:Ek; [| lia |].
  - (* 53 digits *)
    assert (Z.pos d = 53)%Z as E53 by lia.
    unfold binary_round_aux, shr_fexp. cbn [Zdigits2]. fold d.
    assert (fexp precision maxExponent (Z.pos d + 0) - 0 = 0)%Z as ->.
    { unfold fexp, emin, precision, maxExponent. lia. }
    cbn [shr_record_of_loc shr shr_m loc_of_shr_record round_nearest_even Zdigits2].
    fold d.
    assert (fexp precision maxExponent (Z.pos d + 0) - 0 = 0)%Z as ->.
    { unfold fexp, emin, precision, maxExponent. lia. }
    cbn [shr_record_of_loc shr shr_m].
    assert ((0 <=? maxExponent - precision) = true)%Z as -> by reflexivity.
    eauto.
  - (* fewer: the digits are shifted to the left *)
    unfold binary_round_aux, shr_fexp. cbn [Zdigits2]. rewrite digits2_iter. fold d.
    assert (Z.pos (d + k) = 53)%Z as -> by lia.
    assert (fexp precision maxExponent (53 + (Z.pos d - 53)) - (Z.pos d - 53) = 0)%Z as ->.
    { unfold fexp, emin, precision, maxExponent. lia. }
    cbn [shr_record_of_loc shr shr_m loc_of_shr_record round_nearest_even Zdigits2].
    rewrite digits2_iter. fold d.
    assert (Z.pos (d + k) = 53)%Z as -> by lia.
    assert (fexp precision maxExponent (53 + (Z.pos d - 53)) - (Z.pos d - 53) = 0)%Z as ->.
    { unfold fexp, emin, precision, maxExponent. lia. }
    cbn [shr_record_of_loc shr shr_m].
    assert ((Z.pos d - 53 <=? maxExponent - precision) = true)%Z as ->.
    { apply Z.leb_le. unfold maxExponent, precision. lia. }
    eauto.
Qed.

(** After the last file the progress is [100]. *)
Lemma percent_full (n : nat) :
  (0 < n)%nat -> (Z.of_nat n < 2 ^ 53)%Z -> (percent n n == inject_Z 100)%Q.
Proof.
  intros Hn Hb. destruct (numberOfNat_finite n Hn Hb) as (m & e & E).
  unfold percent, percentNumber. rewrite E, SFdiv_same. reflexivity.
Qed.

(** The progress of the runs over at most a hundred files, computed. *)
Lemma progress_checked : progressRisesUpTo 100 = true.
Proof. vm_compute. reflexivity. Qed.

Lemma nondecreasing_step (f : nat -> Q) (m a k : nat) :
  nondecreasing (map f (seq a (S m))) = true ->
  (a <= k < a + m)%nat -> (f k <= f (S k))%Q.
Proof.
  revert a. induction m as [|m IH]; intros a H Hk; [lia|].
  change (seq a (S (S m))) with (a :: S a :: seq (S (S a)) m) in H.
  cbn [map nondecreasing] in H. apply andb_prop in H as [Hhere Hrest].
  destruct (decide (k = a)) as [->|Hne]; [by apply Qle_bool_iff|].
  apply (IH (S a)); [exact Hrest | lia].
Qed.

Lemma progressRises_step (n k : nat) :
  progressRises n = true -> (k < n)%nat -> (percent k n <= percent (S k) n)%Q.
Proof.
  unfold progressRises. intros H Hk.
  apply (nondecreasing_step (fun i => percent i n) n 0 k H). lia.
Qed.

Lemma progressRisesUpTo_run (bound n : nat) :
  progressRisesUpTo bound = true -> (n <= bound)%nat -> progressRises n = true.
Proof.
  unfold progressRisesUpTo. rewrite forallb_forall. intros H Hn.
  apply H, in_seq. lia.
Qed.

Lemma percent_rises (n i j : nat) :
  (n <= 100)%nat -> (i <= j <= n)%nat -> (percent i n <= percent j n)%Q.
Proof.
  intros Hn [Hij Hj].
  pose proof (progressRisesUpTo_run 100 n progress_checked Hn) as Hrises.
  induction Hij as [|j Hij IH]; [apply Qle_refl|].
  apply (Qle_trans _ (percent j n)); [apply IH; lia|].
  apply progressRises_step; [exact Hrises | lia].
Qed.

(** X14.  The progress a run of [generateOutput] reports, as the numbers
    the code computes: reset at the start, then [(k / n) * 100] after the
    [k]-th of the [n] selected files whether or not its fetch succeeded,
    reset at the end.  The value after the last file is [100]; for a run
    over at most a hundred files the values never decrease. *)
Theorem generateOutput_progress_report (st : AppState) (r : RepoInfo) :
  selectedFiles st <> ∅ -> repoInfo st = Some r ->
  progressValues (snd (generateOutput fetchFileContent now nullReadMessage st))
  = [inject_Z 0]
    ++ map (fun k => percent k (length (selectedFilesList st)))
           (seq 1 (length (selectedFilesList st)))
    ++ [inject_Z 0]
  /\ ((0 < length (selectedFilesList st))%nat ->
      (Z.of_nat (length (selectedFilesList st)) < 2 ^ 53)%Z ->
      (percent (length (selectedFilesList st)) (length (selectedFilesList st))
       == inject_Z 100)%Q)
  /\ ((length (selectedFilesList st) <= 100)%nat ->
      forall i j, (i <= j <= length (selectedFilesList st))%nat ->
        (percent i (length (selectedFilesList st))
         <= percent j (length (selectedFilesList st)))%Q).
Proof.
  intros Hsel Hrepo. split; [|split].
  - exact (generateOutput_progress fetchFileContent now nullReadMessage st r Hsel Hrepo).
  - apply percent_full.
  - intros Hn i j. by apply percent_rises.
Qed.

Lemma delays_app (a b : list Event) : delays (a ++ b) = (delays a + delays b)%nat.
Proof.
  induction a as [|e a IH]; [reflexivity|].
  destruct e; cbn [app delays]; rewrite IH; reflexivity.
Qed.

Lemma delays_loopEvents (r : RepoInfo) (totalFiles k : nat) (selected : list GitHubFile) :
  delays (loopEvents fetchFileContent r totalFiles k selected)
  = length (fetchedFiles fetchFileContent r selected).
Proof.
  revert k. induction selected as [|f selected IH]; intros k; [reflexivity|].
  cbn [loopEvents]. rewrite delays_app, IH.
  unfold fetchedFiles, fileEvents. cbn [List.filter].
  by destruct (fetchFileContent _ _ _ _).
Qed.

(** X15.  A run of [generateOutput] waits once for every selected file
    whose content was fetched, and not at all for a file whose fetch
    failed. *)
Theorem generateOutput_waits_per_fetched_file (st : AppState) (r : RepoInfo) :
  selectedFiles st <> ∅ -> repoInfo st = Some r ->
  delays (snd (generateOutput fetchFileContent now nullReadMessage st))
  = length (fetchedFiles fetchFileContent r (selectedFilesList st)).
Proof.
  intros Hsel Hrepo.
  destruct (generateOutput_run fetchFileContent now nullReadMessage st r Hsel Hrepo)
    as [-> _].
  rewrite !delays_app, delays_loopEvents. cbn [delays]. lia.
Qed.

(** The state a run of [fetchRepository] leaves. *)
Lemma fetchRepository_state (st : AppState) :
  (truthy (trim (repoUrl st)) = false \/ parseRepoUrl (repoUrl st) = None ->
     fst (fetchRepository fetchRepoTree st) = st
     /\ exists text, snd (fetchRepository fetchRepoTree st) = [EToast (errorToast text)])
  /\ (forall p, truthy (trim (repoUrl st)) = true -> parseRepoUrl (repoUrl st) = Some p ->
        In (EFetchTree (owner p) (repo p) (branch p))
           (snd (fetchRepository fetchRepoTree st))
        /\ (forall o r b, In (EFetchTree o r b) (snd (fetchRepository fetchRepoTree st)) ->
              p = mkRepo o r b)
        /\ (forall e,
              fetchRepoTree (owner p) (repo p) (branch p) = Rejected e ->
              fst (fetchRepository fetchRepoTree st)
              = mkState (repoUrl st) (files st) (selectedFiles st) false (inject_Z 0)
                        (result st) (repoInfo st))
        /\ (forall t,
              fetchRepoTree (owner p) (repo p) (branch p) = Fulfilled t ->
              fst (fetchRepository fetchRepoTree st)
              = mkState (repoUrl st) (textFiles (tree t))
                        (list_to_set (map path (textFiles (tree t)))) false (inject_Z 0)
                        (result st) (Some p))).
Proof.
  split.
  - intros H. unfold fetchRepository.
    destruct (truthy (trim (repoUrl st))) eqn:Hurl; cbn [negb].
    + destruct H as [H|H]; [discriminate|]. rewrite H. split; [reflexivity|]. eauto.
    + split; [reflexivity|]. eauto.
  - intros p Hurl Hparse. unfold fetchRepository. rewrite Hurl, Hparse. cbn [negb].
    destruct (fetchRepoTree _ _ _) as [t|e]; unfold run; cbn [fst snd app].
    + split; [right; right; by left|]. split; [|split; [discriminate|]].
      * intros o r b H. cbn in H. destruct p.
        repeat (destruct H as [H|H]; [try discriminate|]); [|destruct H].
        by injection H as <- <- <-.
      * intros t' [= <-]. reflexivity.
    + split; [right; right; by left|]. split; [|split; [|discriminate]].
      * intros o r b H. cbn in H. destruct p.
        repeat (destruct H as [H|H]; [try discriminate|]); [|destruct H].
        by injection H as <- <- <-.
      * intros e' _. reflexivity.
Qed.

(** X16.  [fetchRepository] asks for the tree exactly when the reference
    is not blank and is parsed, and then for the parsed owner, repository
    and branch; otherwise it only reports the error and leaves the state
    as it was. *)
Theorem fetchRepository_asks_for_parsed_reference (st : AppState) :
  (forall o r b,
     In (EFetchTree o r b) (snd (fetchRepository fetchRepoTree st))
     <-> truthy (trim (repoUrl st)) = true
         /\ parseRepoUrl (repoUrl st) = Some (mkRepo o r b))
  /\ (truthy (trim (repoUrl st)) = false \/ parseRepoUrl (repoUrl st) = None ->
        fst (fetchRepository fetchRepoTree st) = st
        /\ exists text,
             snd (fetchRepository fetchRepoTree st) = [EToast (errorToast text)]).
Proof.
  destruct (fetchRepository_state st) as [Hbad Hgood].
  split; [|exact Hbad].
  intros o r b. split.
  - intros Hin.
    destruct (truthy (trim (repoUrl st))) eqn:Hurl.
    + destruct (parseRepoUrl (repoUrl st)) as [p|] eqn:Hparse.
      * destruct (Hgood p eq_refl eq_refl) as (_ & Honly & _).
        split; [reflexivity|]. f_equal. by apply Honly.
      * destruct Hbad as [_ [text E]]; [by right|]. rewrite E in Hin.
        destruct Hin as [Hin|[]]. discriminate.
    + destruct Hbad as [_ [text E]]; [by left|]. rewrite E in Hin.
      destruct Hin as [Hin|[]]. discriminate.
  - intros [Hurl Hparse].
    by destruct (Hgood _ Hurl Hparse) as (Hin & _).
Qed.

Lemma filter_all {A : Type} (p : A -> bool) (l : list A) :
  (forall x, In x l -> p x = true) -> List.filter p l = l.
Proof.
  induction l as [|x l IH]; intros H; [reflexivity|].
  cbn [List.filter]. rewrite (H x) by (by left). f_equal.
  apply IH. intros y Hy. apply H. by right.
Qed.

Lemma selected_all (l : list GitHubFile) :
  List.filter (fun f => bool_decide (path f ∈ (list_to_set (map path l) : gset string))) l
  = l.
Proof.
  apply filter_all. intros f Hf. apply bool_decide_eq_true.
  apply elem_of_list_to_set, list_elem_of_In, in_map, Hf.
Qed.

(** X17.  After a successful fetch the list holds the files found, all of
    them selected, and the repository is the parsed reference; the
    document of an earlier run stays, so that the download would offer it
    under the name of the new repository. Generating right away fetches
    every file found, in the order of the listing. *)
Theorem fetchRepository_selects_all_found
    (st : AppState) (parsedRepo : RepoInfo) (t : GitHubTree) :
  truthy (trim (repoUrl st)) = true ->
  parseRepoUrl (repoUrl st) = Some parsedRepo ->
  fetchRepoTree (owner parsedRepo) (repo parsedRepo) (branch parsedRepo) = Fulfilled t ->
  fst (fetchRepository fetchRepoTree st)
  = mkState (repoUrl st) (textFiles (tree t))
            (list_to_set (map path (textFiles (tree t)))) false (inject_Z 0)
            (result st) (Some parsedRepo)
  /\ selectedFilesList (fst (fetchRepository fetchRepoTree st)) = textFiles (tree t)
  /\ RepoAnalyzer.downloadResult (fst (fetchRepository fetchRepoTree st))
     = Some (owner parsedRepo +:+ "-" +:+ repo parsedRepo +:+ "-" +:+ branch parsedRepo
             +:+ ".txt", result st)
  /\ (textFiles (tree t) <> [] ->
        fetchedPaths (snd (generateOutput fetchFileContent now nullReadMessage
                             (fst (fetchRepository fetchRepoTree st))))
        = map path (textFiles (tree t))).
Proof.
  intros Hurl Hparse Hfetch.
  destruct (fetchRepository_state st) as [_ Hgood].
  destruct (Hgood parsedRepo Hurl Hparse) as (_ & _ & _ & Hst).
  rewrite (Hst t Hfetch).
  assert (selectedFilesList
            (mkState (repoUrl st) (textFiles (tree t))
               (list_to_set (map path (textFiles (tree t)))) false (inject_Z 0)
               (result st) (Some parsedRepo)) = textFiles (tree t)) as Hall.
  { unfold selectedFilesList. cbn [files selectedFiles]. apply selected_all. }
  split; [reflexivity|]. split; [exact Hall|]. split; [reflexivity|].
  intros Hfound.
  ogeneralize (generateOutput_run fetchFileContent now nullReadMessage
            (mkState (repoUrl st) (textFiles (tree t))
               (list_to_set (map path (textFiles (tree t)))) false (inject_Z 0)
               (result st) (Some parsedRepo)) parsedRepo _ eq_refl).
  { cbn [selectedFiles]. destruct (textFiles (tree t)) as [|f l]; [done|].
    cbn [map list_to_set]. intros Hempty.
    apply (not_elem_of_empty (C:=gset string) (path f)). rewrite <- Hempty.
    apply elem_of_union_l, elem_of_singleton. reflexivity. }
  intros [Hev _]. rewrite Hev, Hall.
  rewrite !fetchedPaths_app, fetchedPaths_loopEvents. cbn. by rewrite app_nil_r.
Qed.

End ComponentRuns.

Section RunScenarios.

(** Two selected files: the progress is [50], then [100]. *)
Lemma generateOutput_progress_report_witness :
  progressValues (snd (generateOutput failingFirst "T" "null" twoSelected))
  = [inject_Z 0; percent 1 2; percent 2 2; inject_Z 0]
  /\ (percent 2 2 == inject_Z 100)%Q
  /\ (percent 1 2 <= percent 2 2)%Q.
Proof.
  destruct (generateOutput_progress_report failingFirst "T" "null" twoSelected acme
              twoSelected_nonempty eq_refl) as (Hvalues & Hfull & Hrises).
  split; [exact Hvalues|]. split.
  - apply Hfull; vm_compute; [lia | reflexivity].
  - apply Hrises; vm_compute; lia.
Defined.

(** Two selected files, the fetch of the first fails: one wait. *)
Lemma generateOutput_waits_per_fetched_file_witness :
  delays (snd (generateOutput failingFirst "T" "null" twoSelected)) = 1%nat.
Proof.
  exact (generateOutput_waits_per_fetched_file failingFirst "T" "null" twoSelected acme
           twoSelected_nonempty eq_refl).
Defined.

Lemma sampleTree_found : textFiles (tree sampleTree) <> [].
Proof. discriminate. Qed.

(** The sample tree, fetched over the document of an earlier run. *)
Lemma fetchRepository_selects_all_found_witness :
  selectedFilesList (fst (fetchRepository treeFetched noneSelected)) = [aTs]
  /\ RepoAnalyzer.downloadResult (fst (fetchRepository treeFetched noneSelected))
     = Some ("acme-widgets-main.txt", "# earlier document")
  /\ fetchedPaths (snd (generateOutput failingFirst "T" "null"
                          (fst (fetchRepository treeFetched noneSelected))))
     = ["src/a.ts"].
Proof.
  destruct (fetchRepository_selects_all_found treeFetched failingFirst "T" "null"
              noneSelected acme sampleTree eq_refl eq_refl eq_refl)
    as (_ & Hall & Hdownload & Hpaths).
  split; [exact Hall|]. split; [exact Hdownload|]. exact (Hpaths sampleTree_found).
Defined.

End RunScenarios.

(* ===================================================================== *)
(** * The states of RepoAnalyzer between runs *)
(* ===================================================================== *)

Section ReachableStates.

Import RepoAnalyzer.

(** The six parts of [stateInv]. *)
Local Ltac split_inv :=
  unfold stateInv; cbn [applyEvent setRepoUrl fst loading progress files repoInfo result
                        selectedFiles];
  split; [|split; [|split; [|split; [|split]]]].

Lemma stateInv_fetchRepository
    (fetchRepoTree : string -> string -> string -> Settled GitHubTree) (st : AppState) :
  stateInv st -> stateInv (fst (fetchRepository fetchRepoTree st)).
Proof.
  intros Hinv. destruct (fetchRepository_state fetchRepoTree st) as [Hbad Hgood].
  destruct (truthy (trim (repoUrl st))) eqn:Hurl;
    [|by destruct Hbad as [-> _]; [left|]].
  destruct (parseRepoUrl (repoUrl st)) as [p|] eqn:Hparse;
    [|by destruct Hbad as [-> _]; [right|]].
  destruct (Hgood p eq_refl eq_refl) as (_ & _ & Hrej & Hful).
  destruct Hinv as (Hl & Hp & Hfiles & Hrepo & Hres & Hsel).
  destruct (fetchRepoTree (owner p) (repo p) (branch p)) as [t|e].
  - rewrite (Hful t eq_refl). split_inv; [done | done | | eauto | eauto |].
    + intros f Hf. unfold textFiles in Hf. apply filter_In in Hf as [_ Hf].
      apply andb_prop in Hf as [Hf Hinc]. apply andb_prop in Hf as [Hty Htxt].
      by apply bool_decide_eq_true in Hty.
    + intros ->. reflexivity.
  - rewrite (Hrej e eq_refl). split_inv; done.
Qed.

Lemma stateInv_generateOutput
    (fetchFileContent : string -> string -> string -> string -> Settled string)
    (now nullReadMessage : string) (st : AppState) :
  stateInv st -> stateInv (fst (generateOutput fetchFileContent now nullReadMessage st)).
Proof.
  intros Hinv.
  destruct (generateOutput_state fetchFileContent now nullReadMessage st)
    as (Hempty & Hnull & Hdoc).
  destruct (decide (selectedFiles st = ∅)) as [Hsel|Hsel]; [by rewrite (Hempty Hsel)|].
  destruct Hinv as (Hl & Hp & Hfiles & Hrepo & Hres & Hnone).
  destruct (repoInfo st) as [r|] eqn:E.
  - rewrite (Hdoc Hsel r eq_refl). split_inv; eauto.
  - rewrite (Hnull Hsel eq_refl). split_inv; done.
Qed.

Lemma stateInv_selection (st : AppState) (sel : gset string) :
  stateInv st -> files st <> [] -> stateInv (applyEvent st (ESetSelectedFiles sel)).
Proof.
  intros (Hl & Hp & Hfiles & Hrepo & Hres & Hnone) Hne. split_inv; done.
Qed.

Lemma rendered_files (st : AppState) :
  Nat.ltb 0 (length (files st)) = true -> files st <> [].
Proof. by destruct (files st). Qed.

Lemma reachable_stateInv (st : AppState) : reachable st -> stateInv st.
Proof.
  induction 1 as [|st a fetchRepoTree fetchFileContent now nullReadMessage _ IH Ha].
  - unfold initialState. split_inv; done.
  - destruct a; cbn [perform available] in *.
    + destruct IH as (Hl & Hp & Hfiles & Hrepo & Hres & Hnone). split_inv; done.
    + by apply stateInv_fetchRepository.
    + apply stateInv_selection; [exact IH | by apply rendered_files].
    + apply stateInv_selection; [exact IH | by apply rendered_files].
    + apply stateInv_selection; [exact IH | by apply rendered_files].
    + by apply stateInv_generateOutput.
Qed.

(** X18.  Whatever the user does and the network answers, one run at a
    time: between runs nothing is loading, the progress is reset, every
    listed file went through the filter, and the repository is known
    wherever files or a document are shown. So the generate button, when
    it can be pressed, always produces a document, and the download
    button, shown with a document, always finds the repository its file
    name is made of. *)
Theorem reachable_states (st : AppState) :
  reachable st ->
  stateInv st
  /\ (available st Generate = true ->
        forall fetchFileContent now nullReadMessage,
        exists r,
          repoInfo st = Some r
          /\ In (ESetResult (header now r (length (selectedFilesList st))
                             +:+ sections fetchFileContent r (selectedFilesList st)))
                (snd (generateOutput fetchFileContent now nullReadMessage st)))
  /\ (truthy (result st) = true ->
        exists r,
          repoInfo st = Some r
          /\ downloadResult st
             = Some (owner r +:+ "-" +:+ repo r +:+ "-" +:+ branch r +:+ ".txt",
                     result st)).
Proof.
  intros Hreach. pose proof (reachable_stateInv st Hreach) as Hinv.
  split; [exact Hinv|].
  destruct Hinv as (Hl & Hp & Hfiles & Hrepo & Hres & Hnone). split.
  - cbn [available]. intros Ha fetchFileContent now nullReadMessage.
    apply andb_prop in Ha as [Hshown Hon].
    destruct (Hrepo (rendered_files st Hshown)) as [r Hr]. exists r.
    split; [exact Hr|].
    apply negb_true_iff, orb_false_elim in Hon as [_ Hsize].
    assert (selectedFiles st <> ∅) as Hsel.
    { intros E. rewrite E, size_empty in Hsize. discriminate. }
    destruct (generateOutput_run fetchFileContent now nullReadMessage st r Hsel Hr)
      as [-> _].
    apply in_or_app. right. apply in_or_app. right. by left.
  - intros Ht. destruct (Hres Ht) as [r Hr]. exists r. split; [exact Hr|].
    unfold downloadResult. by rewrite Hr.
Qed.

Lemma afterGenerate_reachable : reachable afterGenerate.
Proof.
  unfold afterGenerate.
  apply (reachable_step afterFetch Generate); [|vm_compute; reflexivity].
  unfold afterFetch.
  apply (reachable_step urlTyped Fetch); [|reflexivity].
  apply (reachable_step initialState (TypeUrl "acme/widgets") treeFetched failingFirst
           "T" "null"); [apply reachable_initial | reflexivity].
Qed.

(** The reference typed, the sample tree fetched, the document
    generated. *)
Lemma reachable_states_witness :
  reachable afterGenerate
  /\ stateInv afterGenerate
  /\ (exists r,
        repoInfo afterGenerate = Some r
        /\ In (ESetResult (header "T" r (length (selectedFilesList afterGenerate))
                           +:+ sections failingFirst r (selectedFilesList afterGenerate)))
              (snd (generateOutput failingFirst "T" "null" afterGenerate)))
  /\ (exists r,
        repoInfo afterGenerate = Some r
        /\ downloadResult afterGenerate
           = Some (owner r +:+ "-" +:+ repo r +:+ "-" +:+ branch r +:+ ".txt",
                   result afterGenerate)).
Proof.
  destruct (reachable_states afterGenerate afterGenerate_reachable)
    as (Hinv & Hgenerate & Hdownload).
  split; [exact afterGenerate_reachable|]. split; [exact Hinv|]. split.
  - apply Hgenerate. vm_compute. reflexivity.
  - apply Hdownload. vm_compute. reflexivity.
Defined.

End ReachableStates.

(* ===================================================================== *)
(** * FileTreeSelector: the handlers *)
(* ===================================================================== *)

Section SelectorHandlers.

Import FileTreeSelector.

(** X19.  Expanding and collapsing: a second click on a directory undoes
    the first, a click changes the state of that directory and of no
    other. *)
Theorem toggleExpanded_twice (p : string) (expandedDirs : gset string) :
  toggleExpanded p (toggleExpanded p expandedDirs) = expandedDirs
  /\ (p ∈ toggleExpanded p expandedDirs <-> p ∉ expandedDirs)
  /\ (forall q, q <> p -> q ∈ toggleExpanded p expandedDirs <-> q ∈ expandedDirs).
Proof.
  unfold toggleExpanded.
  destruct (decide (p ∈ expandedDirs)) as [Hin|Hout].
  - rewrite (bool_decide_eq_true_2 _ Hin).
    assert (p ∉ expandedDirs ∖ {[p]}) as Hgone.
    { rewrite elem_of_difference, elem_of_singleton. tauto. }
    rewrite (bool_decide_eq_false_2 _ Hgone). split; [|split].
    + apply set_eq. intros q.
      rewrite elem_of_union, elem_of_difference, elem_of_singleton.
      destruct (decide (q = p)) as [->|Hne]; tauto.
    + tauto.
    + intros q Hne. rewrite elem_of_difference, elem_of_singleton. tauto.
  - rewrite (bool_decide_eq_false_2 _ Hout).
    assert (p ∈ expandedDirs ∪ {[p]}) as Hthere.
    { rewrite elem_of_union, elem_of_singleton. tauto. }
    rewrite (bool_decide_eq_true_2 _ Hthere). split; [|split].
    + apply set_eq. intros q.
      rewrite elem_of_difference, elem_of_union, elem_of_singleton.
      destruct (decide (q = p)) as [->|Hne]; tauto.
    + tauto.
    + intros q Hne. rewrite elem_of_union, elem_of_singleton. tauto.
Qed.

Lemma selectedFilesList_In (st : AppState) (sel : gset string) (f : GitHubFile) :
  In f (selectedFilesList (applyEvent st (ESetSelectedFiles sel)))
  <-> In f (files st) /\ path f ∈ sel.
Proof.
  unfold selectedFilesList. cbn [applyEvent files selectedFiles].
  by rewrite filter_In, bool_decide_eq_true.
Qed.

(** X20.  What the handlers of the selector select, as [generateOutput]
    reads the selection. [selectAll] selects the entries that have the
    path of a file entry, so every entry of the list that
    [fetchRepository] builds; [selectNone] none; a checkbox adds or
    removes the entries with the path of its node and leaves the others as
    they were. *)
Theorem selection_handlers (st : AppState) :
  (forall f,
     In f (selectedFilesList (applyEvent st (ESetSelectedFiles (selectAll (files st)))))
     <-> In f (files st)
         /\ exists g, In g (files st) /\ type g = file /\ path g = path f)
  /\ ((forall f, In f (files st) -> type f = file) ->
        selectedFilesList (applyEvent st (ESetSelectedFiles (selectAll (files st))))
        = files st)
  /\ selectedFilesList (applyEvent st (ESetSelectedFiles selectNone)) = []
  /\ (forall p checked f,
        In f (selectedFilesList
                (applyEvent st
                   (ESetSelectedFiles (toggleFileSelection p checked (selectedFiles st)))))
        <-> In f (files st)
            /\ ((path f = p /\ checked = true)
                \/ (path f <> p /\ path f ∈ selectedFiles st))).
Proof.
  split; [|split; [|split]].
  - intros f. rewrite selectedFilesList_In. unfold selectAll.
    rewrite elem_of_list_to_set, list_elem_of_In, in_map_iff.
    split; intros [Hf (g & H1 & H2)]; (split; [exact Hf|]); exists g.
    + apply filter_In in H2 as [Hg Hty]. apply bool_decide_eq_true in Hty. done.
    + destruct H2 as [Hty Hp]. split; [done|]. apply filter_In.
      split; [done|]. by apply bool_decide_eq_true.
  - intros Hall. unfold selectedFilesList, selectAll. cbn [applyEvent files selectedFiles].
    rewrite (filter_all (fun f => bool_decide (type f = file)) (files st)).
    + apply selected_all.
    + intros f Hf. apply bool_decide_eq_true. by apply Hall.
  - unfold selectedFilesList, selectNone. cbn [applyEvent files selectedFiles].
    induction (files st) as [|f l IH]; [reflexivity|]. cbn [List.filter].
    rewrite bool_decide_eq_false_2; [exact IH | apply not_elem_of_empty].
  - intros p checked f. rewrite selectedFilesList_In. unfold toggleFileSelection.
    destruct checked.
    + rewrite elem_of_union, elem_of_singleton.
      destruct (decide (path f = p)); intuition congruence.
    + rewrite elem_of_difference, elem_of_singleton. intuition congruence.
Qed.

End SelectorHandlers.

(* ===================================================================== *)
(** * The tag of a fence *)
(* ===================================================================== *)

(** X21.  The tag [getFileExtension] gives a name, by its last
    dot-separated part in lower case: none when that part is empty; the
    identifier of the table when the part is one of its keys; the part
    itself when it is no key (and not the name of an inherited property). *)
Theorem getFileExtension_tag (filename : string) :
  (toStringValue (getFileExtension filename) = EmptyString
   <-> List.last (split "." filename) EmptyString = EmptyString)
  /\ (forall tag,
        ownProperty extMap (toLowerCase (List.last (split "." filename) EmptyString))
        = Some tag ->
        getFileExtension filename = JsString tag /\ truthy tag = true)
  /\ (ownProperty extMap (toLowerCase (List.last (split "." filename) EmptyString)) = None ->
      toLowerCase (List.last (split "." filename) EmptyString) <> "constructor" ->
      toLowerCase (List.last (split "." filename) EmptyString) <> "__proto__" ->
      getFileExtension filename
      = JsString (toLowerCase (List.last (split "." filename) EmptyString))).
Proof.
  split; [apply getFileExtension_untagged_iff|]. split.
  - intros tag H. split; [by apply getFileExtension_mapped|].
    exact (extMap_values_truthy _ _ H).
  - apply getFileExtension_unmapped.
Qed.
